(** * Lecture-Voice-to-Notes-Generator: [utils.py]

    A shallow embedding of [chunk_transcript_segments], [estimate_token_count]
    and [format_timestamp] from [src/utils.py], and the properties the
    specification states about them.

    Conventions.
    - A Python [str] is a list of Unicode code points ([str := list N]).
    - A Python [float] is an IEEE-754 value, [spec_float] of the standard
      library ([S754_finite s m e] is [(-1)^s * m * 2^e]).
    - A Python [int] is a [Z].
    - A generator is run to exhaustion: its meaning is the list of values it
      yields, in order, together with the way it stops (it returns, or an
      exception escapes from it). *)

From Stdlib Require Import List ZArith NArith PArith Lia Bool String Ascii.
From Stdlib Require Import SpecFloat DecimalString DecimalPos DecimalN.
Import ListNotations.
Local Open Scope Z_scope.

(* ================================================================== *)
(** ** Python strings *)

Module PyStr.

Definition str : Type := list N.

(** A literal: the code points of an ASCII string constant. *)
Definition py (s : string) : str := map N_of_ascii (list_ascii_of_string s).

(** [bool(s)]: a string is true when it is not empty. *)
Definition truthy (s : str) : bool :=
  match s with
  | [] => false
  | _ :: _ => true
  end.

(** [c.isspace()] for one code point: the characters CPython's
    [_PyUnicode_IsWhitespace] accepts, which are the ones [str.strip()]
    removes. *)
Definition isspace (c : N) : bool :=
  ((9 <=? c) && (c <=? 13)          (* \t \n \v \f \r *)
   || (28 <=? c) && (c <=? 32)      (* FS GS RS US and the space *)
   || (c =? 133) || (c =? 160)      (* NEL, no-break space *)
   || (c =? 5760)                   (* U+1680 *)
   || (8192 <=? c) && (c <=? 8202)  (* U+2000 .. U+200A *)
   || (c =? 8232) || (c =? 8233)    (* U+2028, U+2029 *)
   || (c =? 8239) || (c =? 8287)    (* U+202F, U+205F *)
   || (c =? 12288))%N.              (* U+3000 *)

Fixpoint lstrip (s : str) : str :=
  match s with
  | [] => []
  | c :: r => if isspace c then lstrip r else s
  end.

Definition rstrip (s : str) : str := rev (lstrip (rev s)).

(** [s.strip()] *)
Definition strip (s : str) : str := rstrip (lstrip s).

(** [sep.join(parts)] *)
Fixpoint join (sep : str) (parts : list str) : str :=
  match parts with
  | [] => []
  | [p] => p
  | p :: rest => p ++ sep ++ join sep rest
  end.

Fixpoint str_eqb (a b : str) : bool :=
  match a, b with
  | [], [] => true
  | x :: a', y :: b' => (x =? y)%N && str_eqb a' b'
  | _, _ => false
  end.

Fixpoint startswith (text prefix : str) : bool :=
  match prefix, text with
  | [], _ => true
  | p :: prefix', c :: text' => (p =? c)%N && startswith text' prefix'
  | _ :: _, [] => false
  end.

(** [sub in text] *)
Fixpoint contains (sub text : str) : bool :=
  startswith text sub ||
  match text with
  | [] => false
  | _ :: text' => contains sub text'
  end.

Definition SPACE : str := py " ".

End PyStr.
Import PyStr.

(* ================================================================== *)
(** ** Python floats *)

Module PyFloat.

(** [a <= b] and [a < b] on floats: false as soon as one side is a NaN. *)
Definition le (a b : spec_float) : bool := SFleb a b.
Definition lt (a b : spec_float) : bool := SFltb a b.

Definition zero : spec_float := S754_zero false.

(** The binary64 value nearest to [m * 2^e], in normal form (a float
    literal). *)
Definition f64 (m : Z) (e : Z) : spec_float := binary_normalize 53 1024 m e false.

End PyFloat.

(* ================================================================== *)
(** ** Exceptions and generators *)

Inductive exn : Type :=
| IndexError
| ValueError
| OverflowError.

(** A generator body run to exhaustion: what it yielded, and either the
    exception that escaped or the value it finished with. *)
Definition gen (Y A : Type) : Type := (list Y * (exn + A))%type.

Definition ret {Y A} (a : A) : gen Y A := ([], inr a).

Definition raise {Y A} (e : exn) : gen Y A := ([], inl e).

Definition yield {Y} (y : Y) : gen Y unit := ([y], inr tt).

Definition bind {Y A B} (m : gen Y A) (k : A -> gen Y B) : gen Y B :=
  match m with
  | (ys, inl e) => (ys, inl e)
  | (ys, inr a) => let (zs, r) := k a in (ys ++ zs, r)
  end.

Declare Scope gen_scope.
Delimit Scope gen_scope with gen.
Notation "x <- m ;; k" := (bind m (fun x => k))
  (at level 61, m at next level, right associativity) : gen_scope.
Notation "m ;;; k" := (bind m (fun _ => k))
  (at level 61, right associativity) : gen_scope.

Definition yielded {Y A} (g : gen Y A) : list Y := fst g.

Definition returns {Y A} (g : gen Y A) : bool :=
  match snd g with
  | inr _ => true
  | inl _ => false
  end.

(* ================================================================== *)
(** ** Segments and chunks *)

(** A whisper segment, the dict [{'text': .., 'start': .., 'end': ..}]. *)
Record segment : Type := {
  seg_text : str;
  seg_start : spec_float;
  seg_end : spec_float
}.

(** A chunk, the dict [{"text": .., "start_time": .., "end_time": ..}]. *)
Record chunk : Type := {
  text : str;
  start_time : spec_float;
  end_time : spec_float
}.

(** What one [yield] statement of [chunk_transcript_segments] hands out,
    [emitted_chunk], with the values the local variables
    [chunk_segments] and [current_chunk_text] have at that statement.  The
    caller sees the chunk only; the two snapshots name the segments a chunk
    covers and the string the budget test looked at. *)
Record emission : Type := {
  emitted_chunk : chunk;
  covered : list segment;
  accumulated : str
}.

(** [xs[-1]] *)
Definition last_item {A Y} (xs : list A) : gen Y A :=
  match rev xs with
  | [] => raise IndexError
  | x :: _ => ret x
  end.

(* ================================================================== *)
(** ** [estimate_token_count] *)

Definition DEFAULT_MODEL : str := py "gpt-4o-mini".

(** What looking an encoding up can raise: [KeyError], the one exception
    line 31 catches, or something else. *)
Module tiktoken.

Inductive error : Type :=
| KeyError
| Other (e : exn).

(** An encoding is its [encode] method.  It raises too: called as line 35
    calls it, [ValueError] on a text that holds a special token. *)
Definition Encoding (token : Type) : Type := str -> exn + list token.

End tiktoken.

Section Tiktoken.

(** The [tiktoken] package is not part of the repository: its two entry
    points are parameters.  The warning line 32 prints is not kept. *)
Variable token : Type.
Variable encoding_for_model : str -> tiktoken.error + tiktoken.Encoding token.
Variable get_encoding : str -> exn + tiktoken.Encoding token.

Definition estimate_token_count (text : str) (model : str) : exn + Z :=
  match
    match encoding_for_model model with
    | inr encoding => inr encoding
    | inl tiktoken.KeyError => get_encoding (py "cl100k_base")
    | inl (tiktoken.Other e) => inl e
    end
  with
  | inl e => inl e
  | inr encoding =>
      match encoding text with
      | inl e => inl e
      | inr tokens => inr (Z.of_nat (List.length tokens))
      end
  end.

End Tiktoken.

(** The count an estimator call came back with. *)
Definition returned (r : exn + Z) : Z :=
  match r with
  | inr count => count
  | inl _ => 0
  end.

(* ================================================================== *)
(** ** [chunk_transcript_segments] *)

Section Chunker.

(** The function the module-level name [estimate_token_count] is bound to
    when the chunker runs, called with the text only.  The tests rebind it
    with [unittest.mock.patch], returning arbitrary integers.  Here it
    returns; [Raising] below is the function for an estimator that can
    raise. *)
Variable estimate : str -> Z.
Variable max_tokens_per_chunk : Z.

Record locals : Type := {
  current_chunk_text : str;
  current_chunk_start_time : spec_float;
  chunk_segments : list segment
}.

(** The [yield {...}] statement of lines 70-74 and 87-91. *)
Definition yield_chunk (l : locals) : gen emission unit :=
  (last <- last_item (chunk_segments l) ;;
   yield {| emitted_chunk :=
              {| text := strip (current_chunk_text l);
                 start_time := current_chunk_start_time l;
                 end_time := seg_end last |};
            covered := chunk_segments l;
            accumulated := current_chunk_text l |})%gen.

(** The body of the [for] loop, lines 63-83. *)
Definition loop_body (l : locals) (segment : segment) : gen emission locals :=
  let segment_text := seg_text segment in
  let potential_chunk_text := current_chunk_text l ++ SPACE ++ segment_text in
  if estimate potential_chunk_text >? max_tokens_per_chunk then
    ((if truthy (current_chunk_text l) then yield_chunk l else ret tt) ;;;
     ret {| current_chunk_text := segment_text;
            current_chunk_start_time := seg_start segment;
            chunk_segments := [segment] |})%gen
  else
    ret {| current_chunk_text := potential_chunk_text;
           current_chunk_start_time := current_chunk_start_time l;
           chunk_segments := chunk_segments l ++ [segment] |}.

(** [for segment in segments: ...] threaded through the locals. *)
Fixpoint for_loop (l : locals) (segments : list segment) : gen emission locals :=
  match segments with
  | [] => ret l
  | segment :: rest => (l' <- loop_body l segment ;; for_loop l' rest)%gen
  end.

(** The locals when the loop is entered.  Line 54 sets
    [current_chunk_start_time] to the integer 0, and line 60 overwrites it
    before anything reads it. *)
Definition initial_locals (first : segment) : locals :=
  {| current_chunk_text := [];
     current_chunk_start_time := seg_start first;
     chunk_segments := [] |}.

Definition chunk_run (segments : list segment) : gen emission unit :=
  match segments with
  | [] => ret tt
  | first :: _ =>
      (l <- for_loop (initial_locals first) segments ;;
       if truthy (current_chunk_text l) then yield_chunk l else ret tt)%gen
  end.

(** The locals after the loop has gone through [segments] (when no
    exception escaped). *)
Definition scan (first : segment) (segments : list segment) : option locals :=
  match snd (for_loop (initial_locals first) segments) with
  | inr l => Some l
  | inl _ => None
  end.

End Chunker.

(** The chunks the generator hands to its caller. *)
Definition chunk_transcript_segments
    (estimate : str -> Z) (segments : list segment) (max_tokens_per_chunk : Z)
  : list chunk :=
  map emitted_chunk (yielded (chunk_run estimate max_tokens_per_chunk segments)).

(* ================================================================== *)
(** ** [chunk_transcript_segments] with an estimator that can raise

    The same function, for an estimator whose call at line 67 can raise:
    nothing in the function catches the exception, which ends the
    generator after the chunks yielded so far. *)

Module Raising.

Section Chunker.

Variable estimate : str -> exn + Z.
Variable max_tokens_per_chunk : Z.

(** The call [estimate_token_count(potential_chunk_text)]. *)
Definition call_estimate (potential_chunk_text : str) : gen emission Z :=
  match estimate potential_chunk_text with
  | inl e => raise e
  | inr count => ret count
  end.

(** The body of the [for] loop, lines 63-83. *)
Definition loop_body (l : locals) (segment : segment) : gen emission locals :=
  let segment_text := seg_text segment in
  let potential_chunk_text := current_chunk_text l ++ SPACE ++ segment_text in
  (count <- call_estimate potential_chunk_text ;;
   if count >? max_tokens_per_chunk then
     ((if truthy (current_chunk_text l) then yield_chunk l else ret tt) ;;;
      ret {| current_chunk_text := segment_text;
             current_chunk_start_time := seg_start segment;
             chunk_segments := [segment] |})
   else
     ret {| current_chunk_text := potential_chunk_text;
            current_chunk_start_time := current_chunk_start_time l;
            chunk_segments := chunk_segments l ++ [segment] |})%gen.

Fixpoint for_loop (l : locals) (segments : list segment) : gen emission locals :=
  match segments with
  | [] => ret l
  | segment :: rest => (l' <- loop_body l segment ;; for_loop l' rest)%gen
  end.

Definition chunk_run (segments : list segment) : gen emission unit :=
  match segments with
  | [] => ret tt
  | first :: _ =>
      (l <- for_loop (initial_locals first) segments ;;
       if truthy (current_chunk_text l) then yield_chunk l else ret tt)%gen
  end.

End Chunker.

(** What the caller gets from the generator: the chunks, then the
    exception, if one escaped. *)
Definition chunk_transcript_segments
    (estimate : str -> exn + Z) (segments : list segment)
    (max_tokens_per_chunk : Z) : gen chunk unit :=
  let run := chunk_run estimate max_tokens_per_chunk segments in
  (map emitted_chunk (fst run), snd run).

End Raising.

(* ================================================================== *)
(** ** [chunk_transcript_segments] on a store of list objects

    The same function with the Python lists as objects in a store: the
    argument [segments] is a reference to the caller's list, [chunk_segments]
    a reference to a list the function allocates, [append] updates the store
    in place, and the [for] loop reads the list through an iterator that
    holds an index into it.  Segment dicts are only ever read (every
    subscript on a segment is a load), so they stay values. *)

Module Exec.

Definition loc : Type := nat.

(** The list objects, and the next unused address. *)
Record heap : Type := {
  cell : loc -> list segment;
  next : loc
}.

(** What the caller and the estimator observe, in order. *)
Inductive event : Type :=
| Estimate (arg : str)
| Yield (c : chunk).

Inductive outcome (A : Type) : Type :=
| Done (a : A)
| Raised (e : exn)
| OutOfFuel.
Arguments Done {A} a.
Arguments Raised {A} e.
Arguments OutOfFuel {A}.

Definition M (A : Type) : Type := heap -> list event * heap * outcome A.

Definition ret {A} (a : A) : M A := fun h => ([], h, Done a).

Definition raise {A} (e : exn) : M A := fun h => ([], h, Raised e).

Definition bind {A B} (m : M A) (k : A -> M B) : M B :=
  fun h =>
    match m h with
    | (ev, h1, Done a) => let '(ev', h2, r) := k a h1 in (ev ++ ev', h2, r)
    | (ev, h1, Raised e) => (ev, h1, Raised e)
    | (ev, h1, OutOfFuel) => (ev, h1, OutOfFuel)
    end.

Declare Scope exec_scope.
Delimit Scope exec_scope with exec.
Notation "x <- m ;; k" := (bind m (fun x => k))
  (at level 61, m at next level, right associativity) : exec_scope.
Notation "m ;;; k" := (bind m (fun _ => k))
  (at level 61, right associativity) : exec_scope.

Definition emit (e : event) : M unit := fun h => ([e], h, Done tt).

(** [[x, ...]]: a new list object. *)
Definition new_list (v : list segment) : M loc :=
  fun h =>
    ([], {| cell := fun q => if Nat.eqb q (next h) then v else cell h q;
            next := S (next h) |}, Done (next h)).

(** The value of the list object at [p]. *)
Definition read (p : loc) : M (list segment) := fun h => ([], h, Done (cell h p)).

(** [p.append(x)] *)
Definition append (p : loc) (x : segment) : M unit :=
  fun h =>
    ([], {| cell := fun q => if Nat.eqb q p then cell h p ++ [x] else cell h q;
            next := next h |}, Done tt).

(** [p[i]] for [i >= 0] *)
Definition item (p : loc) (i : nat) : M segment :=
  (xs <- read p ;;
   match nth_error xs i with
   | Some x => ret x
   | None => raise IndexError
   end)%exec.

(** [p[-1]] *)
Definition last_item (p : loc) : M segment :=
  (xs <- read p ;;
   match rev xs with
   | x :: _ => ret x
   | [] => raise IndexError
   end)%exec.

Section Chunker.

Variable estimate : str -> Z.

Definition call_estimate (arg : str) : M Z :=
  (emit (Estimate arg) ;;; ret (estimate arg))%exec.

Record frame : Type := {
  segments : loc;
  max_tokens_per_chunk : Z;
  current_chunk_text : str;
  current_chunk_start_time : spec_float;
  chunk_segments : loc
}.

Definition yield_chunk (f : frame) : M unit :=
  (last <- last_item (chunk_segments f) ;;
   emit (Yield {| text := strip (current_chunk_text f);
                  start_time := current_chunk_start_time f;
                  end_time := seg_end last |}))%exec.

Definition loop_body (f : frame) (segment : segment) : M frame :=
  let segment_text := seg_text segment in
  let potential_chunk_text := current_chunk_text f ++ SPACE ++ segment_text in
  (n <- call_estimate potential_chunk_text ;;
   if n >? max_tokens_per_chunk f then
     (if truthy (current_chunk_text f) then yield_chunk f else ret tt) ;;;
     fresh <- new_list [segment] ;;
     ret {| segments := segments f;
            max_tokens_per_chunk := max_tokens_per_chunk f;
            current_chunk_text := segment_text;
            current_chunk_start_time := seg_start segment;
            chunk_segments := fresh |}
   else
     append (chunk_segments f) segment ;;;
     ret {| segments := segments f;
            max_tokens_per_chunk := max_tokens_per_chunk f;
            current_chunk_text := potential_chunk_text;
            current_chunk_start_time := current_chunk_start_time f;
            chunk_segments := chunk_segments f |})%exec.

(** [for segment in segments: ...]: the list iterator is at index [i]; each
    round reads the list object again, and stops when [i] is past its end.
    [fuel] bounds the number of rounds. *)
Fixpoint for_loop (fuel : nat) (i : nat) (f : frame) : M frame :=
  match fuel with
  | O => fun h => ([], h, OutOfFuel)
  | S fuel' =>
      (xs <- read (segments f) ;;
       match nth_error xs i with
       | None => ret f
       | Some segment =>
           f' <- loop_body f segment ;;
           for_loop fuel' (S i) f'
       end)%exec
  end.

Definition chunk_transcript_segments
    (fuel : nat) (segments_ref : loc) (max_tokens : Z) : M unit :=
  (fresh <- new_list [] ;;
   xs <- read segments_ref ;;
   match xs with
   | [] => ret tt
   | _ :: _ =>
       first <- item segments_ref 0 ;;
       f <- for_loop fuel 0
              {| segments := segments_ref;
                 max_tokens_per_chunk := max_tokens;
                 current_chunk_text := [];
                 current_chunk_start_time := seg_start first;
                 chunk_segments := fresh |} ;;
       if truthy (current_chunk_text f) then yield_chunk f else ret tt
   end)%exec.

End Chunker.

Definition yields (ev : list event) : list chunk :=
  flat_map (fun e => match e with Yield c => [c] | Estimate _ => [] end) ev.

Definition calls (ev : list event) : list str :=
  flat_map (fun e => match e with Estimate a => [a] | Yield _ => [] end) ev.

End Exec.

(* ================================================================== *)
(** ** [format_timestamp] *)

(** The argument is annotated [float]; the tests pass [int]s as well. *)
Inductive number : Type :=
| PyInt (z : Z)
| PyFloat (f : spec_float).

(** [seconds < 0] *)
Definition lt_zero (x : number) : bool :=
  match x with
  | PyInt z => z <? 0
  | PyFloat f => PyFloat.lt f PyFloat.zero
  end.

(** [int(seconds)]: truncation toward zero; a NaN raises [ValueError], an
    infinity [OverflowError]. *)
Definition int (x : number) : exn + Z :=
  match x with
  | PyInt z => inr z
  | PyFloat S754_nan => inl ValueError
  | PyFloat (S754_infinity _) => inl OverflowError
  | PyFloat (S754_zero _) => inr 0
  | PyFloat (S754_finite s m e) =>
      let a := Z.shiftl (Z.pos m) e in
      inr (if s then - a else a)
  end.

(** [divmod(a, b)] on integers: floor division and its remainder. *)
Definition divmod (a b : Z) : Z * Z := (a / b, a mod b).

(** The decimal numeral of a natural number. *)
Definition decimal (n : N) : str :=
  py (DecimalString.NilZero.string_of_uint (N.to_uint n)).

Definition zfill (width : nat) (s : str) : str :=
  repeat 48%N (width - List.length s) ++ s.

(** [f"{z:02d}"]: the sign counts in the width, the zeros go after it.
    (From CPython 3.11 on an int of more than 4300 digits is refused; as an
    hour count no float and no int below [3600 * 10^4300] gets there.) *)
Definition format_02d (z : Z) : str :=
  if z <? 0 then py "-" ++ zfill 1 (decimal (Z.abs_N z))
  else zfill 2 (decimal (Z.to_N z)).

Definition format_timestamp (seconds : number) : exn + str :=
  if lt_zero seconds then inr (py "00:00")
  else
    match int seconds with
    | inl e => inl e
    | inr n =>
        let '(minutes, seconds) := divmod n 60 in
        let '(hours, minutes) := divmod minutes 60 in
        if hours >? 0 then
          inr (format_02d hours ++ py ":" ++ format_02d minutes ++ py ":"
               ++ format_02d seconds)
        else
          inr (format_02d minutes ++ py ":" ++ format_02d seconds)
    end.

(** The arguments whose hour count stays within the 4300 digits CPython
    converts by default: every float, and the ints below [3600 * 10^4300]. *)
Definition within_int_max_str_digits (seconds : number) : Prop :=
  match seconds with
  | PyInt z => z < 3600 * 10 ^ 4300
  | PyFloat _ => True
  end.

(** Two decimal digits, for [0 <= n < 100]. *)
Definition two_digits (n : Z) : str :=
  [(48 + Z.to_N (n / 10))%N; (48 + Z.to_N (n mod 10))%N].

(* ================================================================== *)
(** ** The fixtures of [tests/test_utils.py] *)

Module Tests.

Definition s1 : str := py " This is the first sentence.".
Definition s2 : str :=
  py " And this is a much longer second sentence designed to take up more tokens.".
Definition s3 : str := py " A third one.".
Definition s4 : str := py " Fourth segment here.".
Definition s5 : str :=
  py " The final segment is quite long as well, pushing the token limit.".

Definition MOCK_SEGMENTS : list segment :=
  [ {| seg_text := s1; seg_start := PyFloat.f64 0 0; seg_end := PyFloat.f64 2 0 |};
    {| seg_text := s2; seg_start := PyFloat.f64 5 (-1); seg_end := PyFloat.f64 7 0 |};
    {| seg_text := s3; seg_start := PyFloat.f64 15 (-1); seg_end := PyFloat.f64 17 (-1) |};
    {| seg_text := s4; seg_start := PyFloat.f64 9 0; seg_end := PyFloat.f64 10 0 |};
    {| seg_text := s5; seg_start := PyFloat.f64 21 (-1); seg_end := PyFloat.f64 15 0 |} ].

(** The dict [token_counts], in insertion order. *)
Definition token_counts : list (str * Z) :=
  [ (s1, 10); (s2, 30); (s3, 5); (s4, 5); (s5, 25) ].

(** [lambda text: sum(token_counts[s] for s in token_counts if s in text)] *)
Definition mock_estimate_tokens (text : str) : Z :=
  fold_left Z.add
    (map snd (filter (fun kv => contains (fst kv) text) token_counts)) 0.

(** [patch(..., return_value=5)] *)
Definition mock_return_5 (text : str) : Z := 5.

End Tests.

(** Toy tokenizers: one token per character, with one longer vocabulary
    entry that encodes a text equal to it as a single token. *)
Definition phrase_encode (phrase : str) (t : str) : list str :=
  if str_eqb t phrase then [t] else map (fun c => [c]) t.

(** The encoding with that [encode]: it has no special token. *)
Definition phrase_encoding (phrase : str) : tiktoken.Encoding str :=
  fun t => inr (phrase_encode phrase t).

Definition phrase_estimate (phrase : str) (t : str) : Z :=
  returned
    (estimate_token_count str (fun _ => inr (phrase_encoding phrase))
       (fun _ => inr (phrase_encoding phrase)) t DEFAULT_MODEL).


(** Small inputs for the examples below. *)
Module Samples.

Definition seg_ab : segment :=
  {| seg_text := py "ab"; seg_start := PyFloat.f64 0 0; seg_end := PyFloat.f64 1 0 |}.

Definition seg_cd : segment :=
  {| seg_text := py "cd"; seg_start := PyFloat.f64 1 0; seg_end := PyFloat.f64 2 0 |}.

Definition seg_empty : segment :=
  {| seg_text := []; seg_start := PyFloat.f64 0 0; seg_end := PyFloat.f64 1 0 |}.


(** A segment of silence: its text is one space. *)
Definition seg_blank : segment :=
  {| seg_text := py " "; seg_start := PyFloat.f64 0 0; seg_end := PyFloat.f64 1 0 |}.

End Samples.

(** Segments in non-decreasing [start] order: each start is [<=] the next. *)
Definition starts_nondecreasing (segments : list segment) : Prop :=
  forall i a b,
    nth_error segments i = Some a -> nth_error segments (S i) = Some b ->
    PyFloat.le (seg_start a) (seg_start b) = true.

(** Every segment ends no earlier than it starts. *)
Definition ends_after_starts (segments : list segment) : Prop :=
  Forall (fun s => PyFloat.le (seg_start s) (seg_end s) = true) segments.

(** A text with something other than whitespace in it. *)
Definition has_content (t : str) : Prop := Exists (fun c => isspace c = false) t.

(* ================================================================== *)
(** ** Proof devices for the chunker: closed forms of one loop round *)

Section ChunkerForms.

Variable estimate : str -> Z.
Variable max_tokens_per_chunk : Z.

(** The emission of [yield_chunk] when [chunk_segments] is not empty. *)
Definition closing (l : locals) : emission :=
  {| emitted_chunk :=
       {| text := strip (current_chunk_text l);
          start_time := current_chunk_start_time l;
          end_time := match rev (chunk_segments l) with
                      | last :: _ => seg_end last
                      | [] => current_chunk_start_time l
                      end |};
     covered := chunk_segments l;
     accumulated := current_chunk_text l |}.

Definition flush (l : locals) : list emission :=
  if truthy (current_chunk_text l) then [closing l] else [].

Definition restart (s : segment) : locals :=
  {| current_chunk_text := seg_text s;
     current_chunk_start_time := seg_start s;
     chunk_segments := [s] |}.

Definition extend (l : locals) (s : segment) : locals :=
  {| current_chunk_text := current_chunk_text l ++ SPACE ++ seg_text s;
     current_chunk_start_time := current_chunk_start_time l;
     chunk_segments := chunk_segments l ++ [s] |}.

(** The budget test of line 67 fails for [s] on top of [l]. *)
Definition over_budget (l : locals) (s : segment) : bool :=
  estimate (current_chunk_text l ++ SPACE ++ seg_text s) >? max_tokens_per_chunk.

Definition step (l : locals) (s : segment) : list emission * locals :=
  if over_budget l s then (flush l, restart s) else ([], extend l s).

(** No text accumulated without a segment recorded. *)
Definition consistent (l : locals) : Prop :=
  chunk_segments l = [] -> current_chunk_text l = [].

Fixpoint steps (l : locals) (segments : list segment) : list emission * locals :=
  match segments with
  | [] => ([], l)
  | s :: rest =>
      let (tr, l1) := step l s in
      let (tr', l2) := steps l1 rest in
      (tr ++ tr', l2)
  end.

(** The locals, and what has been yielded, once the loop that started for
    the input headed by [first] has gone through [scanned]. *)
Definition state_at (first : segment) (scanned : list segment) : locals :=
  snd (steps (initial_locals first) scanned).

Definition trace_at (first : segment) (scanned : list segment) : list emission :=
  fst (steps (initial_locals first) scanned).

(** The strings the estimator is asked about, in order. *)
Fixpoint candidates (l : locals) (segments : list segment) : list str :=
  match segments with
  | [] => []
  | s :: rest =>
      (current_chunk_text l ++ SPACE ++ seg_text s)
      :: candidates (snd (step l s)) rest
  end.

(** Every segment recorded has left some text: the converse of
    [consistent]. *)
Definition live (l : locals) : Prop :=
  current_chunk_text l = [] -> chunk_segments l = [].

(** The very first budget test, on the candidate [" " + first text], passed
    and no test has failed since: the accumulation still holds everything
    scanned. *)
Definition untouched (first : segment) (scanned : list segment) (l : locals) : bool :=
  (0 <? List.length scanned)%nat
  && (List.length (chunk_segments l) =? List.length scanned)%nat
  && negb (over_budget (initial_locals first) (hd first scanned)).

End ChunkerForms.

(** The locals of the functional form that a frame and a store stand for:
    [chunk_segments] is the value of the list object it refers to. *)
Definition locals_of (f : Exec.frame) (h : Exec.heap) : locals :=
  {| current_chunk_text := Exec.current_chunk_text f;
     current_chunk_start_time := Exec.current_chunk_start_time f;
     chunk_segments := Exec.cell h (Exec.chunk_segments f) |}.

(** The frame [f] and the store [h] of a call on the list at [p], started in
    the store [h0]: the frame still refers to the caller's list, its own
    list was allocated by the call, and no object that existed before the
    call has changed. *)
Record tied (h0 : Exec.heap) (p : Exec.loc) (max : Z)
    (f : Exec.frame) (h : Exec.heap) : Prop := {
  tied_segments : Exec.segments f = p;
  tied_max : Exec.max_tokens_per_chunk f = max;
  tied_input : (p < Exec.next h0)%nat;
  tied_own : (Exec.next h0 <= Exec.chunk_segments f < Exec.next h)%nat;
  tied_frame : forall q, (q < Exec.next h0)%nat -> Exec.cell h q = Exec.cell h0 q
}.

(** A segment as the data model has it: its text is not empty. *)
Definition well_formed (s : segment) : Prop := seg_text s <> [].

Definition texts (ss : list segment) : list str := map seg_text ss.

(** The first [k] segments of the input. *)
Definition prefix_of (k : nat) (segments : list segment) : list segment :=
  firstn k segments.

(** The chunk made of one segment alone. *)
Definition chunk_of_segment (s : segment) : chunk :=
  {| text := strip (seg_text s);
     start_time := seg_start s;
     end_time := seg_end s |}.

(** A non-empty run of consecutive segments, and the chunk over it: the
    texts joined by single spaces and stripped, from the start of the first
    segment to the end of the last. *)
Definition range : Type := (segment * list segment)%type.

Definition segments_of (r : range) : list segment := fst r :: snd r.

Definition chunk_over (r : range) : chunk :=
  {| text := strip (join SPACE (texts (segments_of r)));
     start_time := seg_start (fst r);
     end_time := seg_end (last (snd r) (fst r)) |}.

(** What a [yield] hands out is the chunk over the segments recorded. *)
Definition closes_a_range (e : emission) : Prop :=
  exists r, covered e = segments_of r /\ emitted_chunk e = chunk_over r.

(** The estimator returns on the text [t]. *)
Definition answered (estimate : str -> exn + Z) (t : str) : Prop :=
  exists count, estimate t = inr count.

(** The estimator returns on every text made of consecutive segment texts
    joined by single spaces, with or without a space in front. *)
Definition returns_on_runs (estimate : str -> exn + Z) (segments : list segment)
  : Prop :=
  forall before run after lead,
    segments = before ++ run ++ after -> run <> [] ->
    lead = [] \/ lead = SPACE ->
    answered estimate (lead ++ join SPACE (texts run)).


(** The chunker as [app.py] and the tests without a mock run it: the
    estimator is [estimate_token_count] with its default model. *)
Definition chunk_with_tiktoken
    (token : Type)
    (encoding_for_model : str -> tiktoken.error + tiktoken.Encoding token)
    (get_encoding : str -> exn + tiktoken.Encoding token)
    (segments : list segment) (max_tokens_per_chunk : Z) : gen chunk unit :=
  Raising.chunk_transcript_segments
    (fun t => estimate_token_count token encoding_for_model get_encoding t DEFAULT_MODEL)
    segments max_tokens_per_chunk.

(* ================================================================== *)
(** ** Dicts with string keys *)

(** A dict as its items in insertion order. *)
Fixpoint dict_get {V} (d : list (str * V)) (k : str) : option V :=
  match d with
  | [] => None
  | (k', v) :: rest => if str_eqb k' k then Some v else dict_get rest k
  end.

(** [d[k] = v]: an existing key keeps its place, a new one goes last. *)
Fixpoint dict_set {V} (d : list (str * V)) (k : str) (v : V) : list (str * V) :=
  match d with
  | [] => [(k, v)]
  | (k', v') :: rest =>
      if str_eqb k' k then (k', v) :: rest else (k', v') :: dict_set rest k v
  end.

Definition keys {V} (d : list (str * V)) : list str := map fst d.

(* ================================================================== *)
(** ** [get_token_limit] *)

Definition TOKEN_LIMITS : list (str * Z) :=
  [ (py "gpt-4o-mini", 128000);
    (py "gpt-4-turbo", 128000);
    (py "gpt-3.5-turbo", 16385) ].

(** [TOKEN_LIMITS.get(model, 4096)] *)
Definition get_token_limit (model : str) : Z :=
  match dict_get TOKEN_LIMITS model with
  | Some limit => limit
  | None => 4096
  end.

(** [max_tokens_per_chunk=3000], the budget [main] of [app.py] chunks
    with. *)
Definition APP_CHUNK_BUDGET : Z := 3000.

(* ================================================================== *)
(** ** Reading a timestamp back (used in proofs only) *)

Definition unpy (s : str) : string := string_of_list_ascii (map ascii_of_N s).

(** The number a string of decimal digits denotes. *)
Definition parse_nat (s : str) : option N :=
  option_map N.of_uint (DecimalString.NilEmpty.uint_of_string (unpy s)).

(* ================================================================== *)
(** ** [summarize.py] *)

Module Summarize.

(** The text of a prompt template, piece by piece: plain text, a double
    quote, a line break. *)
Inductive piece : Type :=
| T (s : string)
| Q
| NL.

Definition render_piece (p : piece) : str :=
  match p with
  | T s => py s
  | Q => [34%N]
  | NL => [10%N]
  end.

Definition render (ps : list piece) : str := flat_map render_piece ps.

(** The f-string of [get_notes_prompt] (lines 12-33), cut at its three
    replacement fields; [{{] and [}}] stand for one brace. *)
Definition NOTES_HEAD : list piece :=
  [ NL;
    T "    You are an expert academic assistant. Your task is to create detailed, structured study notes "; NL;
    T "    from a transcript chunk of a lecture. The provided chunk is from " ].

Definition NOTES_TO : list piece :=
  [ T " to " ].

Definition NOTES_BODY : list piece :=
  [ T "."; NL;
    NL;
    T "    Analyze the following text and generate notes in valid JSON format with the following structure:"; NL;
    T "    {"; NL;
    T "      "; Q; T "title"; Q; T ": "; Q; T "A concise, descriptive title for this section (5-10 words)"; Q; T ","; NL;
    T "      "; Q; T "summary"; Q; T ": "; Q; T "A 2-4 sentence summary of the main points in this chunk."; Q; T ","; NL;
    T "      "; Q; T "key_points"; Q; T ": ["; NL;
    T "        "; Q; T "A list of key takeaways, concepts, or important facts as bullet points."; Q; T ","; NL;
    T "        "; Q; T "Each point should be a complete sentence."; Q; T ","; NL;
    T "        "; Q; T "Extract at least 3-5 key points."; Q; NL;
    T "      ]"; NL;
    T "    }"; NL;
    NL;
    T "    Transcript Chunk:"; NL;
    T "    ---"; NL;
    T "    " ].

Definition NOTES_TAIL : list piece :=
  [ NL;
    T "    ---"; NL;
    NL;
    T "    Ensure the output is only the JSON object, without any surrounding text or markdown."; NL;
    T "    " ].

Definition FLASHCARDS_HEAD : list piece :=
  [ NL;
    T "    You are a study aid tool. Based on the following lecture transcript chunk, generate exactly 10 flashcards"; NL;
    T "    to help a student learn the material."; NL;
    NL;
    T "    For each flashcard, provide a clear, concise question and a direct answer."; NL;
    T "    Return the output as a valid JSON object containing a single key "; Q; T "flashcards"; Q; T " which is a list of objects,"; NL;
    T "    where each object has a "; Q; T "question"; Q; T " and "; Q; T "answer"; Q; T " key."; NL;
    NL;
    T "    Example format:"; NL;
    T "    {"; NL;
    T "      "; Q; T "flashcards"; Q; T ": ["; NL;
    T "        {"; NL;
    T "          "; Q; T "question"; Q; T ": "; Q; T "What is the capital of France?"; Q; T ","; NL;
    T "          "; Q; T "answer"; Q; T ": "; Q; T "Paris."; Q; NL;
    T "        },"; NL;
    T "        {"; NL;
    T "          "; Q; T "question"; Q; T ": "; Q; T "What is the formula for water?"; Q; T ","; NL;
    T "          "; Q; T "answer"; Q; T ": "; Q; T "H2O."; Q; NL;
    T "        }"; NL;
    T "      ]"; NL;
    T "    }"; NL;
    NL;
    T "    Transcript Chunk:"; NL;
    T "    ---"; NL;
    T "    " ].

Definition FLASHCARDS_TAIL : list piece :=
  [ NL;
    T "    ---"; NL;
    NL;
    T "    Generate exactly 10 flashcards. Ensure the output is only the JSON object."; NL;
    T "    " ].

Definition QUIZ_HEAD : list piece :=
  [ NL;
    T "    You are an expert quiz creator. From the following lecture transcript chunk, create a multiple-choice quiz"; NL;
    T "    with exactly 5 questions."; NL;
    NL;
    T "    For each question, provide:"; NL;
    T "    - The question text."; NL;
    T "    - A list of 4 options (one correct, three plausible distractors)."; NL;
    T "    - The correct answer."; NL;
    NL;
    T "    Return the output as a valid JSON object containing a single key "; Q; T "quiz"; Q; T " which is a list of objects."; NL;
    T "    Each object must have "; Q; T "question"; Q; T ", "; Q; T "options"; Q; T ", and "; Q; T "correct_answer"; Q; T " keys."; NL;
    NL;
    T "    Example format:"; NL;
    T "    {"; NL;
    T "      "; Q; T "quiz"; Q; T ": ["; NL;
    T "        {"; NL;
    T "          "; Q; T "question"; Q; T ": "; Q; T "Which planet is known as the Red Planet?"; Q; T ","; NL;
    T "          "; Q; T "options"; Q; T ": ["; Q; T "Earth"; Q; T ", "; Q; T "Mars"; Q; T ", "; Q; T "Jupiter"; Q; T ", "; Q; T "Venus"; Q; T "],"; NL;
    T "          "; Q; T "correct_answer"; Q; T ": "; Q; T "Mars"; Q; NL;
    T "        }"; NL;
    T "      ]"; NL;
    T "    }"; NL;
    T "    "; NL;
    T "    Transcript Chunk:"; NL;
    T "    ---"; NL;
    T "    " ].

Definition QUIZ_TAIL : list piece :=
  [ NL;
    T "    ---"; NL;
    NL;
    T "    Generate exactly 5 questions. Ensure the output is only the JSON object."; NL;
    T "    " ].

(** Line 14 formats the start time, then the end time. *)
Definition get_notes_prompt (chunk_text : str) (start_time end_time : number)
  : exn + str :=
  match format_timestamp start_time with
  | inl e => inl e
  | inr a =>
      match format_timestamp end_time with
      | inl e => inl e
      | inr b =>
          inr (render NOTES_HEAD ++ a ++ render NOTES_TO ++ b
               ++ render NOTES_BODY ++ chunk_text ++ render NOTES_TAIL)
      end
  end.

Definition get_flashcards_prompt (chunk_text : str) : str :=
  render FLASHCARDS_HEAD ++ chunk_text ++ render FLASHCARDS_TAIL.

Definition get_quiz_prompt (chunk_text : str) : str :=
  render QUIZ_HEAD ++ chunk_text ++ render QUIZ_TAIL.

(** What [json.loads] can return. *)
#[local] Set Warnings "-register-all".
Inductive json : Type :=
| JNull
| JBool (b : bool)
| JInt (z : Z)
| JFloat (f : spec_float)
| JStr (s : str)
| JList (items : list json)
| JDict (fields : list (str * json)).

(** [bool(value)] *)
Definition truthy_json (j : json) : bool :=
  match j with
  | JNull => false
  | JBool b => b
  | JInt z => negb (z =? 0)
  | JFloat f => negb (SFeqb f (S754_zero false))
  | JStr s => truthy s
  | JList items => match items with [] => false | _ :: _ => true end
  | JDict fields => match fields with [] => false | _ :: _ => true end
  end.

(** Exceptions that leave the functions of this file. *)
Inductive raised : Type :=
| Builtin (e : exn)
    (* raised inside [format_timestamp] *)
| InvalidContentType (content_type : str)
    (* [ValueError(f"Invalid content type: {content_type}")] *)
| TypeError
| KeyError (key : str).

(** The OpenAI client and [json.loads] are not part of the repository.
    [client n model prompt] is what lines 132-142 evaluate to on the [n]-th
    request: the value [json.loads] returns for the content of the first
    choice, or the [Exception] raised on the way (by the request, by an
    empty [choices], by a content that is [None] or not JSON) with the
    text [str(e)]. *)
Inductive api_result : Type :=
| Parsed (j : json)
| Failed (message : str).

Definition client : Type := nat -> str -> str -> api_result.

(** The calls that reach the outside, in order. *)
Inductive event : Type :=
| ApiCall (model prompt : str)
    (* [client.chat.completions.create(...)] with this user prompt *)
| StError (message : str)
    (* [st.error(message)] *)
| ProgressStart
    (* [st.progress(0, text=...)] *)
| Progress (done total : nat)
    (* [progress_bar.progress(done / total, text=f"Processing chunk {done}/{total}...")] *)
| ProgressEmpty.
    (* [progress_bar.empty()] *)

(** A computation: from the number of requests made so far, the events it
    causes, the new number of requests, and an exception or a value. *)
Definition M (A : Type) : Type := nat -> list event * nat * (raised + A).

Definition ret {A} (a : A) : M A := fun n => ([], n, inr a).

Definition raise {A} (e : raised) : M A := fun n => ([], n, inl e).

Definition bind {A B} (m : M A) (k : A -> M B) : M B :=
  fun n =>
    match m n with
    | (ev, n1, inr a) => let '(ev', n2, r) := k a n1 in (ev ++ ev', n2, r)
    | (ev, n1, inl e) => (ev, n1, inl e)
    end.

Declare Scope summarize_scope.
Delimit Scope summarize_scope with summarize.
Notation "x <- m ;; k" := (bind m (fun x => k))
  (at level 61, m at next level, right associativity) : summarize_scope.
Notation "m ;;; k" := (bind m (fun _ => k))
  (at level 61, right associativity) : summarize_scope.

Definition emit (e : event) : M unit := fun n => ([e], n, inr tt).

Definition request (c : client) (model prompt : str) : M api_result :=
  fun n => ([ApiCall model prompt], S n, inr (c n model prompt)).

Definition NOTES : str := py "notes".
Definition FLASHCARDS : str := py "flashcards".
Definition QUIZ : str := py "quiz".

Definition generate_content_for_chunk
    (c : client) (chunk : chunk) (content_type : str) (model : str) : M json :=
  match get_notes_prompt (text chunk) (PyFloat (start_time chunk))
          (PyFloat (end_time chunk)) with
  | inl e => raise (Builtin e)
  | inr notes_prompt =>
      let prompt_map :=
        [ (NOTES, notes_prompt);
          (FLASHCARDS, get_flashcards_prompt (text chunk));
          (QUIZ, get_quiz_prompt (text chunk)) ] in
      match dict_get prompt_map content_type with
      | None => raise (InvalidContentType content_type)
      | Some prompt =>
          if negb (truthy prompt) then raise (InvalidContentType content_type)
          else
            (r <- request c model prompt ;;
             match r with
             | Parsed j => ret j
             | Failed message =>
                 emit (StError (py "Error generating " ++ content_type
                                ++ py " for a chunk: " ++ message)) ;;;
                 ret (JDict [])
             end)%summarize
      end
  end.

(** [f"{format_timestamp(start)} - {format_timestamp(end)}"] *)
Definition timestamp_of (chunk : chunk) : exn + str :=
  match format_timestamp (PyFloat (start_time chunk)) with
  | inl e => inl e
  | inr a =>
      match format_timestamp (PyFloat (end_time chunk)) with
      | inl e => inl e
      | inr b => inr (a ++ py " - " ++ b)
      end
  end.

(** [result[key] = value] *)
Definition set_item (result : json) (key : str) (value : json) : M json :=
  match result with
  | JDict fields => ret (JDict (dict_set fields key value))
  | _ => raise TypeError
  end.

(** [key in result] *)
Definition py_in (key : str) (result : json) : M bool :=
  match result with
  | JDict fields =>
      ret (match dict_get fields key with Some _ => true | None => false end)
  | JList items =>
      ret (existsb (fun item => match item with
                                | JStr s => str_eqb key s
                                | _ => false
                                end) items)
  | JStr s => ret (contains key s)
  | _ => raise TypeError
  end.

(** [result[key]] *)
Definition get_item (result : json) (key : str) : M json :=
  match result with
  | JDict fields =>
      match dict_get fields key with
      | Some v => ret v
      | None => raise (KeyError key)
      end
  | _ => raise TypeError
  end.

(** [generated_content[key].append(x)] and [.extend(xs)] *)
Definition extend_list (generated_content : list (str * list json))
    (key : str) (xs : list json) : M (list (str * list json)) :=
  match dict_get generated_content key with
  | Some old => ret (dict_set generated_content key (old ++ xs))
  | None => raise (KeyError key)
  end.

(** [{ctype: [] for ctype in content_types}] *)
Definition empty_content (content_types : list str) : list (str * list json) :=
  fold_left (fun d ctype => dict_set d ctype []) content_types [].

(** Lines 174-185, for one chunk and one content type. *)
Definition generate_into (c : client) (chunk : chunk)
    (generated_content : list (str * list json)) (content_type : str)
  : M (list (str * list json)) :=
  (result <- generate_content_for_chunk c chunk content_type DEFAULT_MODEL ;;
   if truthy_json result then
     if str_eqb content_type NOTES then
       match timestamp_of chunk with
       | inl e => raise (Builtin e)
       | inr stamp =>
           result' <- set_item result (py "timestamp") (JStr stamp) ;;
           extend_list generated_content NOTES [result']
       end
     else if str_eqb content_type FLASHCARDS || str_eqb content_type QUIZ then
       present <- py_in content_type result ;;
       if present then
         value <- get_item result content_type ;;
         match value with
         | JList items => extend_list generated_content content_type items
         | _ => ret generated_content
         end
       else ret generated_content
     else ret generated_content
   else ret generated_content)%summarize.

(** [for content_type in content_types: ...] *)
Fixpoint for_content_types (c : client) (chunk : chunk)
    (content_types : list str) (generated_content : list (str * list json))
  : M (list (str * list json)) :=
  match content_types with
  | [] => ret generated_content
  | content_type :: rest =>
      (g <- generate_into c chunk generated_content content_type ;;
       for_content_types c chunk rest g)%summarize
  end.

(** [for i, chunk in enumerate(chunk_list): ...], from index [i] on;
    [total] is [len(chunk_list)]. *)
Fixpoint for_chunks (c : client) (content_types : list str) (total : nat)
    (i : nat) (chunks : list chunk) (generated_content : list (str * list json))
  : M (list (str * list json)) :=
  match chunks with
  | [] => ret generated_content
  | chunk :: rest =>
      (g <- for_content_types c chunk content_types generated_content ;;
       emit (Progress (i + 1) total) ;;;
       for_chunks c content_types total (S i) rest g)%summarize
  end.

Definition process_chunks_for_content
    (c : client) (chunks : list chunk) (content_types : list str)
  : M (list (str * list json)) :=
  let generated_content := empty_content content_types in
  let chunk_list := chunks in
  (emit ProgressStart ;;;
   g <- for_chunks c content_types (List.length chunk_list) 0 chunk_list
          generated_content ;;
   emit ProgressEmpty ;;;
   ret g)%summarize.

Definition api_calls (ev : list event) : list (str * str) :=
  flat_map (fun e => match e with ApiCall m p => [(m, p)] | _ => [] end) ev.


Definition progress_updates (ev : list event) : list (nat * nat) :=
  flat_map (fun e => match e with Progress d t => [(d, t)] | _ => [] end) ev.

(** The content types [generate_content_for_chunk] has a prompt for. *)
Definition valid_content_type (content_type : str) : Prop :=
  content_type = NOTES \/ content_type = FLASHCARDS \/ content_type = QUIZ.

(** Both times of the chunk can be formatted. *)
Definition times_format (chunk : chunk) : Prop :=
  exists stamp, timestamp_of chunk = inr stamp.

(** Every answer that parses is a JSON object, as the request asks with
    [response_format={"type": "json_object"}]. *)
Definition answers_objects (c : client) : Prop :=
  forall n model prompt,
    match c n model prompt with
    | Parsed (JDict _) => True
    | Parsed _ => False
    | Failed _ => True
    end.

(** *** Closed forms of the loops (used in proofs only) *)

(** The prompt sent for a content type that has one. *)
Definition prompt_for (chunk : chunk) (content_type : str) : str :=
  if str_eqb content_type NOTES then
    match get_notes_prompt (text chunk) (PyFloat (start_time chunk))
            (PyFloat (end_time chunk)) with
    | inr p => p
    | inl _ => []
    end
  else if str_eqb content_type FLASHCARDS then get_flashcards_prompt (text chunk)
  else get_quiz_prompt (text chunk).

Definition errors_of (content_type : str) (r : api_result) : list event :=
  match r with
  | Failed message =>
      [StError (py "Error generating " ++ content_type
                ++ py " for a chunk: " ++ message)]
  | Parsed _ => []
  end.

Definition result_of (r : api_result) : json :=
  match r with
  | Parsed j => j
  | Failed _ => JDict []
  end.

Definition stamp_of (chunk : chunk) : str :=
  match timestamp_of chunk with
  | inr stamp => stamp
  | inl _ => []
  end.

Definition get_list (g : list (str * list json)) (key : str) : list json :=
  match dict_get g key with
  | Some l => l
  | None => []
  end.

(** What one answer adds to the generated content. *)
Definition absorb (chunk : chunk) (g : list (str * list json))
    (content_type : str) (r : api_result) : list (str * list json) :=
  match r with
  | Parsed (JDict (f :: fs)) =>
      if str_eqb content_type NOTES then
        dict_set g NOTES
          (get_list g NOTES
           ++ [JDict (dict_set (f :: fs) (py "timestamp") (JStr (stamp_of chunk)))])
      else
        match dict_get (f :: fs) content_type with
        | Some (JList items) =>
            dict_set g content_type (get_list g content_type ++ items)
        | _ => g
        end
  | _ => g
  end.

Fixpoint run_types (c : client) (chunk : chunk) (content_types : list str)
    (g : list (str * list json)) (n : nat) : list event * list (str * list json) :=
  match content_types with
  | [] => ([], g)
  | content_type :: rest =>
      let r := c n DEFAULT_MODEL (prompt_for chunk content_type) in
      let (ev, g') := run_types c chunk rest (absorb chunk g content_type r) (S n) in
      (ApiCall DEFAULT_MODEL (prompt_for chunk content_type)
       :: errors_of content_type r ++ ev, g')
  end.

Fixpoint run_chunks (c : client) (content_types : list str) (total i : nat)
    (chunks : list chunk) (g : list (str * list json)) (n : nat)
  : list event * list (str * list json) :=
  match chunks with
  | [] => ([], g)
  | chunk :: rest =>
      let (ev1, g1) := run_types c chunk content_types g n in
      let (ev2, g2) :=
        run_chunks c content_types total (S i) rest g1
          (n + List.length content_types) in
      (ev1 ++ Progress (i + 1) total :: ev2, g2)
  end.

Definition is_notes (content_type : str) : bool := str_eqb content_type NOTES.

(** A time [format_timestamp] has a string for: not a NaN, not the positive
    infinity. *)
Definition formattable (f : spec_float) : Prop :=
  f <> S754_nan /\ f <> S754_infinity false.

(** A note made from one of the chunks: a JSON object whose ["timestamp"]
    is the two formatted times of that chunk. *)
Definition note_of (chunks : list chunk) (j : json) : Prop :=
  exists chunk fields,
    In chunk chunks
    /\ j = JDict fields
    /\ dict_get fields (py "timestamp") = Some (JStr (stamp_of chunk)).

End Summarize.

(** Two clients and a chunk for the examples. *)
Module Answers.

(** Every request fails. *)
Definition down : Summarize.client :=
  fun _ _ _ => Summarize.Failed (py "timeout").

(** Every request is answered with the same small object. *)
Definition titled : Summarize.client :=
  fun _ _ _ =>
    Summarize.Parsed
      (Summarize.JDict [(py "title", Summarize.JStr (py "Intro"))]).

Definition chunk_ab : chunk := chunk_of_segment Samples.seg_ab.


End Answers.

(** Lines 182-186 of [main] in [app.py]: chunk the segments with a budget
    of 3000 and the real estimator, then generate the content.  The
    generator runs when [process_chunks_for_content] calls [list(chunks)]
    at line 168, before anything is shown: an exception that escapes it
    leaves [process_chunks_for_content] there. *)
Definition chunk_and_generate
    (token : Type)
    (encoding_for_model : str -> tiktoken.error + tiktoken.Encoding token)
    (get_encoding : str -> exn + tiktoken.Encoding token)
    (c : Summarize.client) (segments : list segment) (content_options : list str)
  : Summarize.M (list (str * list Summarize.json)) :=
  let transcript_chunks :=
    chunk_with_tiktoken token encoding_for_model get_encoding
      segments APP_CHUNK_BUDGET in
  match transcript_chunks with
  | (_, inl e) => fun n => ([], n, inl (Summarize.Builtin e))
  | (chunk_list, inr _) =>
      Summarize.process_chunks_for_content c chunk_list content_options
  end.

(* ================================================================== *)
(** * Lemmas *)

(** ** Strings *)

Lemma truthy_true_iff (s : str) : truthy s = true <-> s <> [].
Proof. destruct s; simpl; split; congruence. Qed.

Lemma truthy_false_iff (s : str) : truthy s = false <-> s = [].
Proof. destruct s; simpl; split; congruence. Qed.

Lemma strip_SPACE_app (s : str) : strip (SPACE ++ s) = strip s.
Proof. reflexivity. Qed.

Lemma lstrip_nonempty (s : str) :
  Exists (fun c => isspace c = false) s -> lstrip s <> [].
Proof.
  induction 1 as [c s Hc | c s _ IH]; simpl.
  - rewrite Hc. discriminate.
  - destruct (isspace c); [exact IH | discriminate].
Qed.

Lemma lstrip_keeps_nonspace (s : str) :
  Exists (fun c => isspace c = false) s ->
  Exists (fun c => isspace c = false) (lstrip s).
Proof.
  induction s as [|c s IH]; intros H; simpl.
  - exact H.
  - destruct (isspace c) eqn:Hc.
    + apply IH. inversion H; subst; [congruence | assumption].
    + exact H.
Qed.

Lemma Exists_rev {A} (P : A -> Prop) (l : list A) : Exists P l -> Exists P (rev l).
Proof.
  intros H. apply Exists_exists in H. destruct H as [x [Hin Hx]].
  apply Exists_exists. exists x. split; [now apply in_rev in Hin | exact Hx].
Qed.

Lemma strip_nonempty (s : str) :
  Exists (fun c => isspace c = false) s -> strip s <> [].
Proof.
  intros H. unfold strip, rstrip.
  assert (Hne : lstrip (rev (lstrip s)) <> []).
  { apply lstrip_nonempty, Exists_rev, lstrip_keeps_nonspace, H. }
  intros Heq. apply Hne.
  apply (f_equal (@rev N)) in Heq. rewrite rev_involutive in Heq. exact Heq.
Qed.

Lemma join_cons_cons (sep p q : str) (rest : list str) :
  join sep (p :: q :: rest) = p ++ sep ++ join sep (q :: rest).
Proof. reflexivity. Qed.

Lemma join_snoc (sep : str) (parts : list str) (p q : str) :
  join sep ((p :: parts) ++ [q]) = join sep (p :: parts) ++ sep ++ q.
Proof.
  revert p. induction parts as [|x parts IH]; intros p.
  - reflexivity.
  - change ((p :: x :: parts) ++ [q]) with (p :: (x :: parts) ++ [q]).
    rewrite join_cons_cons.
    change (p :: ((x :: parts) ++ [q])) with (p :: x :: (parts ++ [q])).
    rewrite join_cons_cons.
    change (x :: parts ++ [q]) with ((x :: parts) ++ [q]).
    rewrite IH. now rewrite <- !app_assoc.
Qed.

(** ** The estimator *)

(** Whatever the tokenizer, [estimate_token_count] is a length: it is never
    negative, as the contract of the estimator asks. *)
Lemma estimate_token_count_nonneg
    (token : Type)
    (encoding_for_model : str -> tiktoken.error + tiktoken.Encoding token)
    (get_encoding : str -> exn + tiktoken.Encoding token)
    (t model : str) (count : Z) :
  estimate_token_count token encoding_for_model get_encoding t model = inr count ->
  0 <= count.
Proof.
  unfold estimate_token_count.
  destruct (encoding_for_model model) as [[|e] | encoding];
    [destruct (get_encoding _) as [e | encoding] | |];
    try discriminate;
    (destruct (encoding t) as [e | tokens]; [discriminate|]);
    intros H; injection H as <-; lia.
Qed.

Lemma returned_estimate_nonneg
    (token : Type)
    (encoding_for_model : str -> tiktoken.error + tiktoken.Encoding token)
    (get_encoding : str -> exn + tiktoken.Encoding token) (t model : str) :
  0 <= returned (estimate_token_count token encoding_for_model get_encoding t model).
Proof.
  destruct (estimate_token_count _ _ _ t model) as [e | count] eqn:E; simpl.
  - lia.
  - eapply estimate_token_count_nonneg, E.
Qed.

Lemma phrase_estimate_nonneg (phrase t : str) : 0 <= phrase_estimate phrase t.
Proof. apply returned_estimate_nonneg. Qed.

(** ** Float order *)

Lemma SFleb_trans (a b c : spec_float) :
  PyFloat.le a b = true -> PyFloat.le b c = true -> PyFloat.le a c = true.
Proof.
  unfold PyFloat.le, SFleb.
  destruct a as [sa|sa| |sa ma ea], b as [sb|sb| |sb mb eb],
    c as [sc|sc| |sc mc ec]; simpl;
    repeat match goal with s : bool |- _ => destruct s end; simpl;
    try congruence.
  all: repeat match goal with
       | |- context [PosDef.Pos.compare_cont Eq ?x ?y] =>
           change (PosDef.Pos.compare_cont Eq x y) with (Pos.compare x y)
       end.
  all: destruct (Z.compare_spec ea eb); destruct (Z.compare_spec eb ec);
       destruct (Z.compare_spec ea ec); try congruence; try lia; subst.
  all: destruct (Pos.compare_spec ma mb); destruct (Pos.compare_spec mb mc);
       destruct (Pos.compare_spec ma mc); simpl; try congruence; try lia.
Qed.

(** ** Generators *)

Lemma rev_nonempty {A} (xs : list A) :
  xs <> [] -> exists x ys, rev xs = x :: ys.
Proof.
  intros H. destruct (rev xs) as [|x ys] eqn:E.
  - apply (f_equal (@rev A)) in E. rewrite rev_involutive in E. contradiction.
  - eauto.
Qed.

(** ** One round of the loop *)

Section ChunkerFacts.

Variable estimate : str -> Z.
Variable max_tokens_per_chunk : Z.

#[local] Abbreviation step := (step estimate max_tokens_per_chunk).
#[local] Abbreviation steps := (steps estimate max_tokens_per_chunk).
#[local] Abbreviation over_budget := (over_budget estimate max_tokens_per_chunk).
#[local] Abbreviation loop_body := (loop_body estimate max_tokens_per_chunk).
#[local] Abbreviation for_loop := (for_loop estimate max_tokens_per_chunk).
#[local] Abbreviation chunk_run := (chunk_run estimate max_tokens_per_chunk).
#[local] Abbreviation state_at := (state_at estimate max_tokens_per_chunk).
#[local] Abbreviation trace_at := (trace_at estimate max_tokens_per_chunk).
#[local] Abbreviation untouched := (untouched estimate max_tokens_per_chunk).

Lemma yield_chunk_closing (l : locals) :
  chunk_segments l <> [] -> yield_chunk l = ([closing l], inr tt).
Proof.
  intros H. destruct (rev_nonempty _ H) as [x [ys E]].
  unfold yield_chunk, last_item, closing. rewrite E. reflexivity.
Qed.

Lemma flush_closed (l : locals) :
  consistent l ->
  (if truthy (current_chunk_text l) then yield_chunk l else ret tt)
  = (flush l, inr tt).
Proof.
  intros Hc. unfold flush.
  destruct (truthy (current_chunk_text l)) eqn:T; [|reflexivity].
  apply yield_chunk_closing. intros E.
  apply truthy_true_iff in T. auto.
Qed.

Lemma loop_body_step (l : locals) (s : segment) :
  consistent l -> loop_body l s = (fst (step l s), inr (snd (step l s))).
Proof.
  intros Hc. unfold loop_body, step, over_budget.
  destruct (estimate _ >? max_tokens_per_chunk).
  - unfold bind. rewrite (flush_closed l Hc). simpl.
    now rewrite app_nil_r.
  - reflexivity.
Qed.

Lemma step_consistent (l : locals) (s : segment) : consistent (snd (step l s)).
Proof.
  unfold step, consistent. destruct (over_budget l s); simpl.
  - discriminate.
  - intros E. now apply app_eq_nil in E.
Qed.

Lemma for_loop_steps (segments : list segment) (l : locals) :
  consistent l ->
  for_loop l segments = (fst (steps l segments), inr (snd (steps l segments))).
Proof.
  revert l. induction segments as [|s rest IH]; intros l Hc; simpl.
  - reflexivity.
  - unfold bind. rewrite (loop_body_step l s Hc).
    pose proof (step_consistent l s) as Hc'.
    destruct (step l s) as [tr l1]. simpl in *.
    rewrite (IH l1 Hc'). destruct (steps l1 rest) as [tr' l2]. reflexivity.
Qed.

Lemma steps_app (a b : list segment) (l : locals) :
  steps l (a ++ b)
  = (fst (steps l a) ++ fst (steps (snd (steps l a)) b),
     snd (steps (snd (steps l a)) b)).
Proof.
  revert l. induction a as [|s a IH]; intros l; simpl.
  - now destruct (steps l b).
  - destruct (step l s) as [tr l1]. rewrite (IH l1).
    destruct (steps l1 a) as [t1 l2]. simpl.
    destruct (steps l2 b) as [t2 l3]. simpl. now rewrite app_assoc.
Qed.

Lemma steps_one (l : locals) (s : segment) : steps l [s] = step l s.
Proof. simpl. destruct (step l s). now rewrite app_nil_r. Qed.

Lemma state_at_snoc (first : segment) (scanned : list segment) (s : segment) :
  state_at first (scanned ++ [s]) = snd (step (state_at first scanned) s).
Proof.
  unfold state_at. now rewrite steps_app, steps_one.
Qed.

Lemma trace_at_snoc (first : segment) (scanned : list segment) (s : segment) :
  trace_at first (scanned ++ [s])
  = trace_at first scanned ++ fst (step (state_at first scanned) s).
Proof.
  unfold trace_at, state_at.
  now rewrite steps_app, steps_one.
Qed.

Lemma state_at_consistent (first : segment) (scanned : list segment) :
  consistent (state_at first scanned).
Proof.
  destruct scanned as [|s scanned] using rev_ind.
  - intros _. reflexivity.
  - rewrite state_at_snoc. apply step_consistent.
Qed.

Lemma initial_consistent (first : segment) : consistent (initial_locals first).
Proof. intros _. reflexivity. Qed.

(** The loop never raises, and is the fold of [step]. *)
Lemma for_loop_closed (first : segment) (segments : list segment) :
  for_loop (initial_locals first) segments
  = (trace_at first segments, inr (state_at first segments)).
Proof. apply for_loop_steps, initial_consistent. Qed.

Lemma scan_closed (first : segment) (segments : list segment) :
  scan estimate max_tokens_per_chunk first segments = Some (state_at first segments).
Proof. unfold scan. now rewrite for_loop_closed. Qed.

(** The whole generator, in closed form. *)
Lemma chunk_run_closed (first : segment) (rest : list segment) :
  chunk_run (first :: rest)
  = (trace_at first (first :: rest) ++ flush (state_at first (first :: rest)),
     inr tt).
Proof.
  unfold chunk_run. unfold bind at 1. rewrite for_loop_closed.
  rewrite (flush_closed _ (state_at_consistent first (first :: rest))).
  reflexivity.
Qed.

End ChunkerFacts.

(** ** Invariants of the scan *)

Section ChunkerInvariants.

Variable estimate : str -> Z.
Variable max_tokens_per_chunk : Z.

#[local] Abbreviation step := (step estimate max_tokens_per_chunk).
#[local] Abbreviation steps := (steps estimate max_tokens_per_chunk).
#[local] Abbreviation over_budget := (over_budget estimate max_tokens_per_chunk).
#[local] Abbreviation chunk_run := (chunk_run estimate max_tokens_per_chunk).
#[local] Abbreviation state_at := (state_at estimate max_tokens_per_chunk).
#[local] Abbreviation trace_at := (trace_at estimate max_tokens_per_chunk).
#[local] Abbreviation untouched := (untouched estimate max_tokens_per_chunk).

Lemma step_cases (l : locals) (s : segment) :
  (over_budget l s = true /\ step l s = (flush l, restart s))
  \/ (over_budget l s = false /\ step l s = ([], extend l s)).
Proof.
  unfold step. destruct (over_budget l s); [left | right]; auto.
Qed.

(** The recorded segments are the last ones scanned. *)
Lemma state_suffix (first : segment) (scanned : list segment) :
  exists before, scanned = before ++ chunk_segments (state_at first scanned).
Proof.
  induction scanned as [|s scanned [before IH]] using rev_ind.
  - exists []. reflexivity.
  - rewrite state_at_snoc.
    destruct (step_cases (state_at first scanned) s) as [[_ E] | [_ E]];
      rewrite E; simpl.
    + exists scanned. reflexivity.
    + exists before. rewrite app_assoc. now rewrite <- IH.
Qed.

Lemma state_segments_nonempty (first : segment) (scanned : list segment) :
  scanned <> [] -> chunk_segments (state_at first scanned) <> [].
Proof.
  destruct scanned as [|s scanned _] using rev_ind; [congruence|].
  intros _. rewrite state_at_snoc.
  destruct (step_cases (state_at first scanned) s) as [[_ E] | [_ E]];
    rewrite E; simpl.
  - discriminate.
  - intros H. now apply app_eq_nil in H.
Qed.

Lemma state_segments_length (first : segment) (scanned : list segment) :
  (List.length (chunk_segments (state_at first scanned)) <= List.length scanned)%nat.
Proof.
  destruct (state_suffix first scanned) as [before E].
  rewrite E at 2. rewrite length_app. lia.
Qed.

(** [current_chunk_start_time] is the start of the first recorded segment. *)
Lemma state_start (first : segment) (scanned : list segment) :
  hd first scanned = first ->
  current_chunk_start_time (state_at first scanned)
  = seg_start (hd first (chunk_segments (state_at first scanned))).
Proof.
  induction scanned as [|s scanned IH] using rev_ind; intros Hhd.
  - reflexivity.
  - rewrite state_at_snoc.
    destruct (step_cases (state_at first scanned) s) as [[_ E] | [_ E]];
      rewrite E; simpl.
    + reflexivity.
    + destruct scanned as [|s0 scanned].
      * simpl in *. now subst.
      * rewrite IH by exact Hhd.
        pose proof (state_segments_nonempty first (s0 :: scanned)) as Hne.
        destruct (chunk_segments (state_at first (s0 :: scanned)));
          [exfalso; apply Hne; congruence | reflexivity].
Qed.

(** The budget test passed for what an accumulation of two or more segments
    holds. *)
Lemma state_budget (first : segment) (scanned : list segment) :
  (2 <= List.length (chunk_segments (state_at first scanned)))%nat ->
  estimate (current_chunk_text (state_at first scanned)) <= max_tokens_per_chunk.
Proof.
  destruct scanned as [|s scanned _] using rev_ind.
  - simpl. lia.
  - rewrite state_at_snoc.
    destruct (step_cases (state_at first scanned) s) as [[_ E] | [Hb E]];
      rewrite E; simpl.
    + lia.
    + intros _. unfold over_budget in Hb.
      rewrite Z.gtb_ltb, Z.ltb_ge in Hb. exact Hb.
Qed.

(** The accumulated string is the texts joined by single spaces, after one
    more space for as long as no budget test has failed. *)
Lemma state_shape (first : segment) (scanned : list segment) :
  current_chunk_text (state_at first scanned)
  = (if untouched first scanned (state_at first scanned) then SPACE else [])
    ++ join SPACE (texts (chunk_segments (state_at first scanned))).
Proof.
  induction scanned as [|s scanned IH] using rev_ind.
  - reflexivity.
  - rewrite state_at_snoc.
    pose proof (state_segments_length first scanned) as Hlen.
    destruct (step_cases (state_at first scanned) s) as [[Hb E] | [Hb E]];
      rewrite E; simpl snd.
    + replace (untouched first (scanned ++ [s]) (restart s)) with false;
        [reflexivity|].
      unfold untouched. destruct scanned as [|s0 scanned].
      * simpl. change (state_at first []) with (initial_locals first) in Hb.
        now rewrite Hb.
      * simpl. rewrite length_app. simpl.
        replace (List.length scanned + 1)%nat with (S (List.length scanned)) by lia.
        reflexivity.
    + destruct scanned as [|s0 scanned].
      * change (state_at first []) with (initial_locals first) in *.
        unfold untouched. simpl. now rewrite Hb.
      * pose proof (state_segments_nonempty first (s0 :: scanned)) as Hne.
        assert (Hu : untouched first ((s0 :: scanned) ++ [s])
                       (extend (state_at first (s0 :: scanned)) s)
                     = untouched first (s0 :: scanned)
                         (state_at first (s0 :: scanned))).
        { unfold untouched. simpl. rewrite !length_app. simpl.
          f_equal.
          replace (List.length scanned + 1)%nat with (S (List.length scanned)) by lia.
          replace (List.length (chunk_segments (state_at first (s0 :: scanned))) + 1)%nat
            with (S (List.length (chunk_segments (state_at first (s0 :: scanned)))))
            by lia.
          reflexivity. }
        rewrite Hu. unfold extend at 1 2. simpl current_chunk_text.
        simpl chunk_segments. rewrite IH at 1.
        destruct (chunk_segments (state_at first (s0 :: scanned))) as [|c cs];
          [exfalso; apply Hne; congruence|].
        unfold texts. rewrite map_app. simpl map.
        rewrite join_snoc. now rewrite <- !app_assoc.
Qed.

(** With non-empty segment texts, text has accumulated as soon as one
    segment is scanned. *)
Lemma step_live (l : locals) (s : segment) :
  well_formed s -> live (snd (step l s)).
Proof.
  intros Hwf. destruct (step_cases l s) as [[_ E] | [_ E]]; rewrite E;
    unfold live; simpl.
  - intros H. contradiction.
  - intros H. apply app_eq_nil in H. destruct H as [_ H].
    discriminate.
Qed.

Lemma covered_flush (l : locals) :
  live l -> List.concat (map covered (flush l)) = chunk_segments l.
Proof.
  intros Hl. unfold flush.
  destruct (truthy (current_chunk_text l)) eqn:T; simpl.
  - now rewrite app_nil_r.
  - apply truthy_false_iff in T. now rewrite (Hl T).
Qed.

(** What [steps] yields, with what it still holds, is what it held with
    what it scanned. *)
Lemma steps_coverage (segments : list segment) (l : locals) :
  Forall well_formed segments -> live l ->
  List.concat (map covered (fst (steps l segments)))
    ++ chunk_segments (snd (steps l segments))
  = chunk_segments l ++ segments
  /\ live (snd (steps l segments)).
Proof.
  revert l. induction segments as [|s rest IH]; intros l Hwf Hl.
  - simpl. rewrite app_nil_r. auto.
  - inversion Hwf as [|? ? Hs Hrest]; subst.
    pose proof (step_live l s Hs) as Hl1.
    simpl. destruct (step_cases l s) as [[_ E] | [_ E]]; rewrite E in *;
      simpl in Hl1.
    + destruct (IH (restart s) Hrest Hl1) as [Hc Hlive].
      destruct (steps (restart s) rest) as [tr' l2]. simpl in *.
      split; [|exact Hlive].
      rewrite map_app, concat_app, (covered_flush l Hl), <- app_assoc.
      rewrite Hc. reflexivity.
    + destruct (IH (extend l s) Hrest Hl1) as [Hc Hlive].
      destruct (steps (extend l s) rest) as [tr' l2]. simpl in *.
      split; [|exact Hlive].
      rewrite Hc. now rewrite <- app_assoc.
Qed.

Lemma initial_live (first : segment) : live (initial_locals first).
Proof. intros _. reflexivity. Qed.

(** Every emission of the loop is the closing of the accumulation some
    proper prefix of the input has built, and that accumulation has text. *)
Lemma trace_closings (first : segment) (scanned : list segment) (e : emission) :
  In e (trace_at first scanned) ->
  exists k, (k < List.length scanned)%nat
    /\ e = closing (state_at first (prefix_of k scanned))
    /\ current_chunk_text (state_at first (prefix_of k scanned)) <> [].
Proof.
  induction scanned as [|s scanned IH] using rev_ind; intros Hin.
  - contradiction.
  - rewrite trace_at_snoc in Hin. apply in_app_or in Hin.
    rewrite length_app. simpl. destruct Hin as [Hin | Hin].
    + destruct (IH Hin) as [k [Hk [He Hne]]]. exists k.
      unfold prefix_of in *. rewrite firstn_app.
      replace (k - List.length scanned)%nat with 0%nat by lia.
      simpl. rewrite app_nil_r. repeat split; auto. lia.
    + exists (List.length scanned). unfold prefix_of.
      rewrite firstn_app, firstn_all, Nat.sub_diag. simpl. rewrite app_nil_r.
      destruct (step_cases (state_at first scanned) s) as [[_ E] | [_ E]];
        rewrite E in Hin; simpl in Hin; [|contradiction].
      unfold flush in Hin.
      destruct (truthy (current_chunk_text (state_at first scanned))) eqn:T;
        [|contradiction].
      destruct Hin as [Hin | []]. apply truthy_true_iff in T.
      repeat split; auto. lia.
Qed.

(** The same for the whole generator, whose last emission closes what the
    whole input has built. *)
Lemma run_closings (first : segment) (rest : list segment) (e : emission) :
  In e (yielded (chunk_run (first :: rest))) ->
  exists k, (1 <= k <= List.length (first :: rest))%nat
    /\ e = closing (state_at first (prefix_of k (first :: rest)))
    /\ current_chunk_text (state_at first (prefix_of k (first :: rest))) <> [].
Proof.
  rewrite chunk_run_closed. unfold yielded. simpl fst. intros Hin.
  apply in_app_or in Hin. destruct Hin as [Hin | Hin].
  - destruct (trace_closings _ _ _ Hin) as [k [Hk [He Hne]]].
    exists k. repeat split; auto; [|lia].
    destruct k; [|lia]. exfalso. apply Hne. reflexivity.
  - unfold flush in Hin.
    destruct (truthy (current_chunk_text (state_at first (first :: rest)))) eqn:T;
      [|contradiction].
    destruct Hin as [Hin | []]. apply truthy_true_iff in T.
    exists (List.length (first :: rest)). unfold prefix_of. rewrite firstn_all.
    repeat split; auto; simpl; lia.
Qed.

Lemma prefix_hd (first : segment) (rest : list segment) (k : nat) :
  hd first (prefix_of k (first :: rest)) = first.
Proof. destruct k; reflexivity. Qed.

(** At most one emission for each segment scanned. *)
Lemma trace_length (first : segment) (scanned : list segment) :
  (List.length (trace_at first scanned)
   + List.length (flush (state_at first scanned)) <= List.length scanned)%nat.
Proof.
  induction scanned as [|s scanned IH] using rev_ind.
  - simpl. lia.
  - rewrite trace_at_snoc, state_at_snoc, !length_app. simpl.
    assert (Hf : forall l, (List.length (flush l) <= 1)%nat).
    { intros l. unfold flush. destruct (truthy _); simpl; lia. }
    destruct (step_cases (state_at first scanned) s) as [[_ E] | [_ E]];
      rewrite E; simpl.
    + specialize (Hf (restart s)). lia.
    + specialize (Hf (extend (state_at first scanned) s)). lia.
Qed.

End ChunkerInvariants.

(** ** The generator as a whole *)

Section ChunkerRun.

Variable estimate : str -> Z.
Variable max_tokens_per_chunk : Z.

#[local] Abbreviation chunk_run := (chunk_run estimate max_tokens_per_chunk).
#[local] Abbreviation state_at := (state_at estimate max_tokens_per_chunk).
#[local] Abbreviation trace_at := (trace_at estimate max_tokens_per_chunk).

Lemma run_returns (segments : list segment) : returns (chunk_run segments) = true.
Proof.
  destruct segments as [|first rest]; [reflexivity|].
  now rewrite chunk_run_closed.
Qed.

Lemma run_yielded (d : segment) (segments : list segment) :
  segments <> [] ->
  yielded (chunk_run segments)
  = trace_at (hd d segments) segments ++ flush (state_at (hd d segments) segments).
Proof.
  destruct segments as [|first rest]; [congruence|]. intros _.
  now rewrite chunk_run_closed.
Qed.

Lemma run_coverage (segments : list segment) :
  Forall well_formed segments ->
  List.concat (map covered (yielded (chunk_run segments))) = segments.
Proof.
  intros Hwf. destruct segments as [|first rest]; [reflexivity|].
  rewrite chunk_run_closed. unfold yielded. simpl fst.
  unfold state_at, trace_at.
  destruct (steps_coverage estimate max_tokens_per_chunk (first :: rest)
              (initial_locals first) Hwf (initial_live first)) as [Hc Hl].
  rewrite map_app, concat_app, (covered_flush _ Hl). exact Hc.
Qed.

Lemma run_covered_nonempty (segments : list segment) (e : emission) :
  In e (yielded (chunk_run segments)) -> covered e <> [].
Proof.
  destruct segments as [|first rest]; [contradiction|]. intros Hin.
  destruct (run_closings _ _ _ _ _ Hin) as [k [_ [-> Hne]]]. simpl.
  intros E. apply Hne. now apply state_at_consistent.
Qed.

Lemma run_length (segments : list segment) :
  (List.length (yielded (chunk_run segments)) <= List.length segments)%nat.
Proof.
  destruct segments as [|first rest]; [simpl; lia|].
  rewrite chunk_run_closed. unfold yielded. simpl fst. rewrite length_app.
  apply trace_length.
Qed.

End ChunkerRun.

(* ================================================================== *)
(** * The chunker: claims *)

(** C6 (empty input).  On the empty list the generator yields nothing and
    returns without an exception, whatever the budget and the estimator. *)
Theorem empty_input_yields_nothing (estimate : str -> Z) (max_tokens_per_chunk : Z) :
  chunk_run estimate max_tokens_per_chunk [] = ([], inr tt)
  /\ chunk_transcript_segments estimate [] max_tokens_per_chunk = [].
Proof. split; reflexivity. Qed.

(** C5 (the two scenarios of the tests).  With the costs 10, 30, 5, 5, 25
    summed over the segment texts found in the candidate and a budget of 40,
    the five reference segments give exactly two chunks: the first covers
    segments 1-2 and ends at 7.0, the second covers segments 3-5 and starts
    at 7.5.  With the constant estimate 5 and a budget of 1000 they give
    exactly one chunk, from 0.0 to 15.0. *)
Theorem reference_scenarios :
  (let run := chunk_run Tests.mock_estimate_tokens 40 Tests.MOCK_SEGMENTS in
   returns run = true
   /\ map covered (yielded run)
      = [firstn 2 Tests.MOCK_SEGMENTS; skipn 2 Tests.MOCK_SEGMENTS]
   /\ map (fun c => (start_time c, end_time c))
        (chunk_transcript_segments Tests.mock_estimate_tokens Tests.MOCK_SEGMENTS 40)
      = [ (PyFloat.f64 0 0, PyFloat.f64 7 0);
          (PyFloat.f64 15 (-1), PyFloat.f64 15 0) ])
  /\
  (let run := chunk_run Tests.mock_return_5 1000 Tests.MOCK_SEGMENTS in
   returns run = true
   /\ map covered (yielded run) = [Tests.MOCK_SEGMENTS]
   /\ map (fun c => (start_time c, end_time c))
        (chunk_transcript_segments Tests.mock_return_5 Tests.MOCK_SEGMENTS 1000)
      = [ (PyFloat.f64 0 0, PyFloat.f64 15 0) ]).
Proof. vm_compute. repeat split; reflexivity. Qed.

(** ** What an emission holds *)

Lemma join_has_content (sep : str) (parts : list str) :
  Exists has_content parts -> has_content (join sep parts).
Proof.
  unfold has_content.
  induction parts as [|p parts IH]; intros H; [inversion H|].
  destruct parts as [|q parts].
  - inversion H as [? ? Hp | ? ? Hq]; subst; [exact Hp | inversion Hq].
  - rewrite join_cons_cons. apply Exists_app.
    inversion H as [? ? Hp | ? ? Hq]; subst.
    + left. exact Hp.
    + right. apply Exists_app. right. apply IH. exact Hq.
Qed.

Lemma nondecreasing_tail (x : segment) (l : list segment) :
  starts_nondecreasing (x :: l) -> starts_nondecreasing l.
Proof. intros H i a b Ha Hb. exact (H (S i) a b Ha Hb). Qed.

Lemma nondecreasing_app_r (a b : list segment) :
  starts_nondecreasing (a ++ b) -> starts_nondecreasing b.
Proof.
  induction a as [|x a IH]; simpl; intros H; [exact H|].
  apply IH. exact (nondecreasing_tail _ _ H).
Qed.

Lemma nondecreasing_app_l (a b : list segment) :
  starts_nondecreasing (a ++ b) -> starts_nondecreasing a.
Proof.
  intros H i x y Hx Hy. apply (H i x y).
  - rewrite nth_error_app1; [exact Hx|].
    apply nth_error_Some. congruence.
  - rewrite nth_error_app1; [exact Hy|].
    apply nth_error_Some. congruence.
Qed.

Lemma nondecreasing_head_le (l : list segment) (x y : segment) :
  starts_nondecreasing (x :: l) -> In y l ->
  PyFloat.le (seg_start x) (seg_start y) = true.
Proof.
  revert x. induction l as [|z l IH]; intros x H Hin; [contradiction|].
  assert (Hxz : PyFloat.le (seg_start x) (seg_start z) = true)
    by (apply (H 0%nat x z); reflexivity).
  destruct Hin as [-> | Hin]; [exact Hxz|].
  eapply SFleb_trans; [exact Hxz|].
  apply IH; [exact (nondecreasing_tail _ _ H) | exact Hin].
Qed.

Section Emissions.

Variable estimate : str -> Z.
Variable max_tokens_per_chunk : Z.

#[local] Abbreviation chunk_run := (chunk_run estimate max_tokens_per_chunk).
#[local] Abbreviation state_at := (state_at estimate max_tokens_per_chunk).
#[local] Abbreviation untouched := (untouched estimate max_tokens_per_chunk).

(** An emission closes the accumulation of some non-empty prefix of the
    input. *)
Lemma run_emission (segments : list segment) (e : emission) :
  In e (yielded (chunk_run segments)) ->
  exists first rest k,
    segments = first :: rest
    /\ (1 <= k <= List.length segments)%nat
    /\ e = closing (state_at first (prefix_of k segments))
    /\ chunk_segments (state_at first (prefix_of k segments)) <> [].
Proof.
  destruct segments as [|first rest]; [contradiction|]. intros Hin.
  destruct (run_closings _ _ _ _ _ Hin) as [k [Hk [He Hne]]].
  exists first, rest, k. repeat split; auto; try lia.
  intros E. apply Hne. now apply state_at_consistent.
Qed.

Lemma accumulated_shape (first : segment) (scanned : list segment) :
  let l := state_at first scanned in
  current_chunk_text l = join SPACE (texts (chunk_segments l))
  \/ current_chunk_text l = SPACE ++ join SPACE (texts (chunk_segments l)).
Proof.
  intros l. unfold l.
  pose proof (state_shape estimate max_tokens_per_chunk first scanned) as H.
  destruct (untouched first scanned (state_at first scanned)); [right | left];
    exact H.
Qed.

Lemma strip_accumulated (first : segment) (scanned : list segment) :
  let l := state_at first scanned in
  strip (current_chunk_text l) = strip (join SPACE (texts (chunk_segments l))).
Proof.
  intros l. destruct (accumulated_shape first scanned) as [E | E];
    fold l in E; rewrite E; [reflexivity | apply strip_SPACE_app].
Qed.

End Emissions.

(** ** Chunks as ranges of the input *)

Lemma last_of_rev {A} (x : A) (cs : list A) (y : A) (ys : list A) :
  rev (x :: cs) = y :: ys -> last cs x = y.
Proof.
  intros H. apply (f_equal (@rev A)) in H. rewrite rev_involutive in H.
  simpl in H.
  assert (E : last cs x = last (x :: cs) x) by (destruct cs; reflexivity).
  rewrite E, H. apply last_last.
Qed.

Lemma emission_range (estimate : str -> Z) (max_tokens_per_chunk : Z)
    (segments : list segment) (e : emission) :
  In e (yielded (chunk_run estimate max_tokens_per_chunk segments)) ->
  closes_a_range e.
Proof.
  intros Hin.
  destruct (run_emission _ _ _ _ Hin) as (first & rest & k & Hseg & Hk & He & Hne).
  set (scanned := prefix_of k segments) in *.
  set (l := state_at estimate max_tokens_per_chunk first scanned) in *.
  assert (Hhd : hd first scanned = first).
  { unfold scanned. rewrite Hseg. apply prefix_hd. }
  pose proof (state_start estimate max_tokens_per_chunk first scanned Hhd) as Hstart.
  pose proof (strip_accumulated estimate max_tokens_per_chunk first scanned) as Htext.
  cbv zeta in Htext. fold l in Hstart, Htext.
  destruct (chunk_segments l) as [|x cs] eqn:Ecs; [congruence|].
  destruct (rev_nonempty (x :: cs)) as [y [ys Ey]]; [discriminate|].
  exists (x, cs). split.
  - rewrite He. simpl. fold l. exact Ecs.
  - rewrite He. unfold closing, chunk_over, segments_of. fold l.
    cbn [emitted_chunk fst snd]. rewrite Ecs, Ey, Htext, Hstart.
    now rewrite (last_of_rev x cs y ys Ey).
Qed.

Lemma emissions_ranges (tr : list emission) :
  Forall closes_a_range tr ->
  exists ranges,
    map covered tr = map segments_of ranges
    /\ map emitted_chunk tr = map chunk_over ranges.
Proof.
  induction 1 as [|e tr [r [Hc Hch]] _ [ranges [IH1 IH2]]].
  - exists []. split; reflexivity.
  - exists (r :: ranges). simpl. now rewrite Hc, Hch, IH1, IH2.
Qed.

Lemma run_closes_ranges (estimate : str -> Z) (max_tokens_per_chunk : Z)
    (segments : list segment) :
  Forall closes_a_range (yielded (chunk_run estimate max_tokens_per_chunk segments)).
Proof. apply Forall_forall. intros e He. eapply emission_range, He. Qed.

(** The chunks are the chunks over the ranges of a partition of the
    input. *)
Lemma run_ranges (estimate : str -> Z) (max_tokens_per_chunk : Z)
    (segments : list segment) :
  Forall well_formed segments ->
  exists ranges,
    List.concat (map segments_of ranges) = segments
    /\ chunk_transcript_segments estimate segments max_tokens_per_chunk
       = map chunk_over ranges
    /\ map covered (yielded (chunk_run estimate max_tokens_per_chunk segments))
       = map segments_of ranges.
Proof.
  intros Hwf.
  destruct (emissions_ranges _ (run_closes_ranges estimate max_tokens_per_chunk
                                  segments)) as [ranges [Hc Hch]].
  exists ranges. split; [|split; [exact Hch | exact Hc]].
  rewrite <- Hc. now apply run_coverage.
Qed.

(** C1 (partition).  For every list of segments with non-empty text and
    every budget (positive or not), the generator returns, and its chunks
    partition the input: there are non-empty ranges of consecutive segments
    that, concatenated in the order of the chunks, are the input list
    itself (nothing is left out, nothing occurs twice or in two chunks, the
    order is kept), and the [i]-th chunk handed to the caller is the chunk
    over the [i]-th range: the texts of the range joined and stripped, from
    the start of its first segment to the end of its last.  The ranges are
    the values [chunk_segments] has at the [yield]s. *)
Theorem chunks_partition_input
    (estimate : str -> Z) (max_tokens_per_chunk : Z) (segments : list segment) :
  Forall well_formed segments ->
  returns (chunk_run estimate max_tokens_per_chunk segments) = true
  /\ exists ranges,
       List.concat (map segments_of ranges) = segments
       /\ chunk_transcript_segments estimate segments max_tokens_per_chunk
          = map chunk_over ranges
       /\ map covered (yielded (chunk_run estimate max_tokens_per_chunk segments))
          = map segments_of ranges.
Proof.
  intros Hwf. split.
  - apply run_returns.
  - now apply run_ranges.
Qed.

Lemma chunks_partition_input_witness :
  returns (chunk_run Tests.mock_estimate_tokens 40 Tests.MOCK_SEGMENTS) = true
  /\ exists ranges,
       List.concat (map segments_of ranges) = Tests.MOCK_SEGMENTS
       /\ chunk_transcript_segments Tests.mock_estimate_tokens Tests.MOCK_SEGMENTS 40
          = map chunk_over ranges
       /\ map covered
            (yielded (chunk_run Tests.mock_estimate_tokens 40 Tests.MOCK_SEGMENTS))
          = map segments_of ranges.
Proof.
  apply (chunks_partition_input Tests.mock_estimate_tokens 40 Tests.MOCK_SEGMENTS).
  repeat constructor; discriminate.
Defined.

(** The texts have to be non-empty for this: a segment with the empty text
    that restarts the accumulation leaves [current_chunk_text] empty, and
    the guard of line 69 (or 86) then skips its chunk. *)
Lemma empty_text_segment_is_dropped :
  map covered
    (yielded (chunk_run Tests.mock_return_5 1 [Samples.seg_empty; Samples.seg_cd]))
  = [[Samples.seg_cd]].
Proof. reflexivity. Qed.

(** C4, as stated, fails: a segment whose text is one space is well formed
    (its text is not empty, it ends after it starts), and the chunk made of
    it has the empty text. *)
Lemma blank_segment_gives_empty_text :
  well_formed Samples.seg_blank
  /\ ends_after_starts [Samples.seg_blank]
  /\ starts_nondecreasing [Samples.seg_blank]
  /\ map text (chunk_transcript_segments Tests.mock_return_5 [Samples.seg_blank] 1000)
     = [ [] ].
Proof.
  repeat split.
  - discriminate.
  - repeat constructor.
  - intros [|[|i]] a b Ha Hb; simpl in *; discriminate.
Qed.

(** C4 (chunk fields), amended.  Every chunk yielded covers a non-empty run
    of consecutive input segments; its text is those segments' texts joined
    by single spaces and then stripped, and it is non-empty as soon as one
    of these texts holds a character that is not whitespace; its
    [start_time] is the [start] of the first segment of the run and its
    [end_time] the [end] of the last; and when every segment ends no earlier
    than it starts and the starts are non-decreasing, [start_time <=
    end_time]. *)
Theorem chunk_fields
    (estimate : str -> Z) (max_tokens_per_chunk : Z)
    (segments : list segment) (e : emission) :
  In e (yielded (chunk_run estimate max_tokens_per_chunk segments)) ->
  exists before after first_seg last_seg,
    segments = before ++ covered e ++ after
    /\ hd_error (covered e) = Some first_seg
    /\ hd_error (rev (covered e)) = Some last_seg
    /\ text (emitted_chunk e) = strip (join SPACE (texts (covered e)))
    /\ (Exists (fun s => has_content (seg_text s)) (covered e) ->
        text (emitted_chunk e) <> [])
    /\ start_time (emitted_chunk e) = seg_start first_seg
    /\ end_time (emitted_chunk e) = seg_end last_seg
    /\ (ends_after_starts segments -> starts_nondecreasing segments ->
        PyFloat.le (start_time (emitted_chunk e)) (end_time (emitted_chunk e))
        = true).
Proof.
  intros Hin.
  destruct (run_emission _ _ _ _ Hin) as (first & rest & k & Hseg & Hk & He & Hne).
  set (scanned := prefix_of k segments) in *.
  set (l := state_at estimate max_tokens_per_chunk first scanned) in *.
  destruct (state_suffix estimate max_tokens_per_chunk first scanned) as [before Hbefore].
  fold l in Hbefore.
  assert (Hsplit : segments = before ++ chunk_segments l ++ skipn k segments).
  { rewrite app_assoc, <- Hbefore. unfold scanned, prefix_of.
    now rewrite firstn_skipn. }
  assert (Hhd : hd first scanned = first).
  { unfold scanned. rewrite Hseg. apply prefix_hd. }
  pose proof (state_start estimate max_tokens_per_chunk first scanned Hhd) as Hstart.
  fold l in Hstart.
  destruct (chunk_segments l) as [|x cs] eqn:Ecs; [congruence|].
  destruct (rev_nonempty (x :: cs)) as [y [ys Ey]]; [discriminate|].
  assert (Hclosing_end : end_time (emitted_chunk e) = seg_end y).
  { rewrite He. unfold closing. simpl. fold l. now rewrite Ecs, Ey. }
  assert (Hcov : covered e = x :: cs) by (rewrite He; simpl; fold l; exact Ecs).
  assert (Hst : start_time (emitted_chunk e) = seg_start x).
  { rewrite He. simpl. fold l. exact Hstart. }
  assert (Htext : text (emitted_chunk e) = strip (join SPACE (texts (covered e)))).
  { rewrite Hcov, He. simpl text. fold l. rewrite <- Ecs.
    apply strip_accumulated. }
  exists before, (skipn k segments), x, y. rewrite Hcov.
  repeat split; auto.
  - now rewrite Ey.
  - now rewrite <- Hcov.
  - intros Hex. rewrite Htext, Hcov. apply strip_nonempty.
    apply join_has_content. unfold texts. apply Exists_exists.
    apply Exists_exists in Hex. destruct Hex as [s [Hs Hc]].
    exists (seg_text s). split; [now apply in_map | exact Hc].
  - intros Hends Hnd. rewrite Hst, Hclosing_end.
    assert (Hy : In y (x :: cs)).
    { apply in_rev. rewrite Ey. now left. }
    assert (Hyseg : In y segments).
    { rewrite Hsplit. apply in_or_app. right. apply in_or_app. now left. }
    assert (Hyle : PyFloat.le (seg_start y) (seg_end y) = true).
    { unfold ends_after_starts in Hends. rewrite Forall_forall in Hends. auto. }
    destruct Hy as [<- | Hy]; [exact Hyle|].
    eapply SFleb_trans; [|exact Hyle].
    apply (nondecreasing_head_le cs x y); [|exact Hy].
    rewrite Hsplit in Hnd. apply nondecreasing_app_r in Hnd.
    now apply nondecreasing_app_l in Hnd.
Qed.

Lemma chunk_fields_witness :
  exists e,
    In e (yielded (chunk_run Tests.mock_return_5 1000 [Samples.seg_ab; Samples.seg_cd]))
    /\ text (emitted_chunk e) = py "ab cd"
    /\ text (emitted_chunk e) <> []
    /\ PyFloat.le (start_time (emitted_chunk e)) (end_time (emitted_chunk e)) = true.
Proof.
  eexists. split; [left; reflexivity|].
  match goal with
  | |- text (emitted_chunk ?e) = _ /\ _ =>
      destruct (chunk_fields Tests.mock_return_5 1000
                  [Samples.seg_ab; Samples.seg_cd] e (or_introl eq_refl))
        as (before & after & a & z & _ & _ & _ & Htext & Hne & _ & _ & Hle)
  end.
  split; [exact Htext|]. split.
  - apply Hne. left. left. reflexivity.
  - apply Hle.
    + repeat constructor.
    + intros [|[|i]] a' b' Ha Hb; simpl in *; try discriminate.
      injection Ha as <-. injection Hb as <-. reflexivity.
Defined.

(** C2, as stated, fails.  Take a tokenizer with one token per character
    whose vocabulary also holds [" ab cd"], and a budget of 4.  The
    candidates [" ab"] (3 tokens) and [" ab cd"] (1 token) pass the test, so
    the only chunk covers both segments; its text is ["ab cd"], which the
    same tokenizer counts as 5 tokens. *)
Lemma trimmed_text_over_budget :
  let est := phrase_estimate (py " ab cd") in
  let run := chunk_run est 4 [Samples.seg_ab; Samples.seg_cd] in
  Forall well_formed [Samples.seg_ab; Samples.seg_cd]
  /\ map (fun e => (covered e, text (emitted_chunk e), est (text (emitted_chunk e))))
       (yielded run)
     = [ ([Samples.seg_ab; Samples.seg_cd], py "ab cd", 5) ]
  /\ ~ (forall e, In e (yielded run) ->
          (2 <= List.length (covered e))%nat ->
          est (text (emitted_chunk e)) <= 4).
Proof.
  split; [repeat constructor; discriminate|]. split; [reflexivity|].
  intros H.
  match goal with
  | H : forall e, In e (yielded ?r) -> _ |- _ =>
      specialize (H (hd (closing (initial_locals Samples.seg_ab)) (yielded r))
                    (or_introl eq_refl) (le_n 2))
  end.
  vm_compute in H. apply H. reflexivity.
Qed.

(** C2 (soft budget), amended.  For every chunk covering two or more
    segments, the string accumulated when the chunk was yielded, of which
    the chunk's text is the [strip], was estimated at no more than the
    budget; that string is the segments' texts joined by single spaces,
    possibly after one more space.  So the emitted text itself is within
    the budget whenever stripping does not raise the estimate.  A chunk
    covering one segment may exceed the budget. *)
Theorem budget_on_accumulated_text :
  (forall (estimate : str -> Z) (max_tokens_per_chunk : Z)
          (segments : list segment) (e : emission),
      In e (yielded (chunk_run estimate max_tokens_per_chunk segments)) ->
      (2 <= List.length (covered e))%nat ->
      estimate (accumulated e) <= max_tokens_per_chunk
      /\ text (emitted_chunk e) = strip (accumulated e)
      /\ (accumulated e = join SPACE (texts (covered e))
          \/ accumulated e = SPACE ++ join SPACE (texts (covered e)))
      /\ (estimate (strip (accumulated e)) <= estimate (accumulated e) ->
          estimate (text (emitted_chunk e)) <= max_tokens_per_chunk))
  /\
  (exists (estimate : str -> Z) (max_tokens_per_chunk : Z)
          (segments : list segment) (e : emission),
      0 < max_tokens_per_chunk
      /\ Forall well_formed segments
      /\ In e (yielded (chunk_run estimate max_tokens_per_chunk segments))
      /\ List.length (covered e) = 1%nat
      /\ estimate (text (emitted_chunk e)) > max_tokens_per_chunk).
Proof.
  split.
  - intros estimate max_tokens_per_chunk segments e Hin Hlen.
    destruct (run_emission _ _ _ _ Hin) as (first & rest & k & Hseg & Hk & He & Hne).
    assert (Hb : estimate (accumulated e) <= max_tokens_per_chunk).
    { rewrite He in *. simpl in *. now apply state_budget. }
    repeat split.
    + exact Hb.
    + rewrite He. reflexivity.
    + rewrite He. simpl. apply accumulated_shape.
    + intros Hs. replace (text (emitted_chunk e)) with (strip (accumulated e))
        by (rewrite He; reflexivity).
      lia.
  - exists Tests.mock_return_5, 1, [Samples.seg_ab], (closing (restart Samples.seg_ab)).
    split; [reflexivity|]. split; [repeat constructor; discriminate|].
    split; [left; reflexivity|]. split; reflexivity.
Qed.

Lemma budget_on_accumulated_text_witness :
  exists e,
    In e (yielded (chunk_run Tests.mock_estimate_tokens 40 Tests.MOCK_SEGMENTS))
    /\ List.length (covered e) = 3%nat
    /\ Tests.mock_estimate_tokens (accumulated e) <= 40
    /\ text (emitted_chunk e) = strip (accumulated e).
Proof.
  exists (closing
            (state_at Tests.mock_estimate_tokens 40
               (hd Samples.seg_ab Tests.MOCK_SEGMENTS) Tests.MOCK_SEGMENTS)).
  assert (Hin : In (closing
            (state_at Tests.mock_estimate_tokens 40
               (hd Samples.seg_ab Tests.MOCK_SEGMENTS) Tests.MOCK_SEGMENTS))
            (yielded (chunk_run Tests.mock_estimate_tokens 40 Tests.MOCK_SEGMENTS)))
    by (right; left; reflexivity).
  split; [exact Hin|]. split; [reflexivity|].
  destruct (proj1 budget_on_accumulated_text Tests.mock_estimate_tokens 40
              Tests.MOCK_SEGMENTS _ Hin (le_S 2 2 (le_n 2))) as (Hb & Ht & _).
  split; [exact Hb | exact Ht].
Defined.

(** C10, as stated, fails.  With the tokenizer whose vocabulary holds
    ["ab cd"] and a budget of 1, the first candidate [" ab"] (3 tokens)
    fails the test, so the accumulation restarts at the first segment with
    the text ["ab"]; ["ab cd"] (1 token) passes.  The accumulation then
    holds two segments and began at the very first input segment, but the
    accumulated string is ["ab cd"], without a leading space, and the string
    with the leading space is estimated at 6 tokens. *)
Lemma restart_at_first_segment_has_no_leading_space :
  let est := phrase_estimate (py "ab cd") in
  exists l,
    scan est 1 Samples.seg_ab [Samples.seg_ab; Samples.seg_cd] = Some l
    /\ chunk_segments l = [Samples.seg_ab; Samples.seg_cd]
    /\ current_chunk_text l = py "ab cd"
    /\ current_chunk_text l <> SPACE ++ join SPACE (texts (chunk_segments l))
    /\ est (SPACE ++ join SPACE (texts (chunk_segments l))) > 1.
Proof.
  eexists. split; [reflexivity|]. repeat split. discriminate.
Qed.

(** C10 (what the budget test looks at), amended.  After any number [k] of
    segments has been scanned, the accumulated string is the recorded
    segments' texts joined by single spaces, after one more space exactly
    when no budget test has failed so far (the first segment passed its own
    test and everything scanned is still in the accumulation); whenever two
    or more segments are recorded, that string is estimated at no more than
    the budget.  Every chunk yielded has for text the [strip] of the string
    accumulated after some number of segments, so the string tested and the
    text emitted differ by surrounding whitespace only. *)
Theorem budget_test_is_on_untrimmed_text
    (estimate : str -> Z) (max_tokens_per_chunk : Z)
    (first : segment) (rest : list segment) :
  let segments := first :: rest in
  (forall k, exists l,
      scan estimate max_tokens_per_chunk first (prefix_of k segments) = Some l
      /\ current_chunk_text l
         = (if untouched estimate max_tokens_per_chunk first (prefix_of k segments) l
            then SPACE else [])
           ++ join SPACE (texts (chunk_segments l))
      /\ ((2 <= List.length (chunk_segments l))%nat ->
          estimate (current_chunk_text l) <= max_tokens_per_chunk))
  /\
  (forall e,
      In e (yielded (chunk_run estimate max_tokens_per_chunk segments)) ->
      exists k l,
        (1 <= k <= List.length segments)%nat
        /\ scan estimate max_tokens_per_chunk first (prefix_of k segments) = Some l
        /\ accumulated e = current_chunk_text l
        /\ covered e = chunk_segments l
        /\ text (emitted_chunk e) = strip (current_chunk_text l)).
Proof.
  intros segments. split.
  - intros k. eexists. split; [apply scan_closed|]. split.
    + apply state_shape.
    + apply state_budget.
  - intros e Hin.
    destruct (run_emission _ _ _ _ Hin) as (f & r & k & Hseg & Hk & He & Hne).
    injection Hseg as <- <-.
    exists k. eexists. split; [exact Hk|]. split; [apply scan_closed|].
    rewrite He. repeat split.
Qed.

Lemma budget_test_is_on_untrimmed_text_witness :
  let segments := Tests.MOCK_SEGMENTS in
  let first := hd Samples.seg_ab Tests.MOCK_SEGMENTS in
  exists l,
    scan Tests.mock_estimate_tokens 40 first (prefix_of 2 segments) = Some l
    /\ current_chunk_text l = SPACE ++ join SPACE (texts (chunk_segments l))
    /\ Tests.mock_estimate_tokens (current_chunk_text l) <= 40.
Proof.
  intros segments first.
  destruct (proj1 (budget_test_is_on_untrimmed_text Tests.mock_estimate_tokens 40
                     first (tl Tests.MOCK_SEGMENTS)) 2%nat)
    as (l & Hscan & Hshape & Hbudget).
  exists l. split; [exact Hscan|].
  assert (El : l = state_at Tests.mock_estimate_tokens 40 first (prefix_of 2 segments)).
  { rewrite scan_closed in Hscan. now injection Hscan. }
  split.
  - rewrite Hshape at 1. rewrite El. reflexivity.
  - apply Hbudget. rewrite El. apply le_n.
Defined.

(** ** A segment that restarts the accumulation *)

Lemma concat_split {A} (ls : list (list A)) (pre : list A) (x : A) (post : list A) :
  List.concat ls = pre ++ x :: post ->
  exists l1 l l2 a b,
    ls = l1 ++ l :: l2 /\ l = a ++ x :: b
    /\ List.concat l1 ++ a = pre /\ b ++ List.concat l2 = post.
Proof.
  revert pre. induction ls as [|l0 ls IH]; intros pre H; simpl in H.
  - destruct pre; discriminate.
  - apply app_eq_app in H. destruct H as [l' [[H1 H2] | [H1 H2]]].
    + destruct l' as [|y l'].
      * simpl in H2. rewrite app_nil_r in H1. subst l0.
        destruct (IH [] (eq_sym H2)) as (l1 & l & l2 & a & b & E1 & E2 & E3 & E4).
        exists (pre :: l1), l, l2, a, b. subst ls. repeat split; auto.
        simpl. rewrite <- app_assoc, E3. now rewrite app_nil_r.
      * injection H2 as <- ->. exists [], l0, ls, pre, l'.
        repeat split; auto.
    + destruct (IH l' H2) as (l1 & l & l2 & a & b & E1 & E2 & E3 & E4).
      exists (l0 :: l1), l, l2, a, b. subst ls. repeat split; auto.
      simpl. now rewrite <- app_assoc, E3.
Qed.

Section Restart.

Variable estimate : str -> Z.
Variable max_tokens_per_chunk : Z.

#[local] Abbreviation step := (step estimate max_tokens_per_chunk).
#[local] Abbreviation steps := (steps estimate max_tokens_per_chunk).
#[local] Abbreviation over_budget := (over_budget estimate max_tokens_per_chunk).
#[local] Abbreviation chunk_run := (chunk_run estimate max_tokens_per_chunk).
#[local] Abbreviation state_at := (state_at estimate max_tokens_per_chunk).
#[local] Abbreviation trace_at := (trace_at estimate max_tokens_per_chunk).

Lemma restart_live (s : segment) : well_formed s -> live (restart s).
Proof. intros Hwf H. contradiction. Qed.

Lemma flush_restart (s : segment) :
  well_formed s -> flush (restart s) = [closing (restart s)].
Proof.
  intros Hwf. unfold flush. simpl.
  destruct (seg_text s) eqn:E; [contradiction | reflexivity].
Qed.

(** What is yielded from a restart at [s] on: the chunk of [s] alone
    first, when [s] is the last segment or the budget test fails for the
    next one too. *)
Lemma restart_closes_alone (s : segment) (post : list segment) :
  match post with
  | [] => True
  | next :: _ => over_budget (restart s) next = true
  end ->
  Forall well_formed (s :: post) ->
  exists tr2,
    fst (steps (restart s) post) ++ flush (snd (steps (restart s) post))
    = closing (restart s) :: tr2
    /\ List.concat (map covered tr2) = post.
Proof.
  intros Hover Hwf. inversion Hwf as [|? ? Hs Hpost]; subst.
  destruct post as [|t post].
  - exists []. simpl. rewrite (flush_restart s Hs). auto.
  - inversion Hpost as [|? ? Ht Hpost']; subst.
    simpl. destruct (step_cases estimate max_tokens_per_chunk (restart s) t)
      as [[_ E] | [E _]]; [|congruence].
    rewrite E, (flush_restart s Hs).
    destruct (steps_coverage estimate max_tokens_per_chunk post (restart t)
                Hpost' (restart_live t Ht)) as [Hc Hl].
    destruct (steps (restart t) post) as [tr' l2]. simpl in *.
    exists (tr' ++ flush l2). split; [reflexivity|].
    rewrite map_app, concat_app, (covered_flush l2 Hl). exact Hc.
Qed.

End Restart.

(** C3, as stated, fails.  With the tokenizer whose vocabulary holds
    ["ab cd"] and a budget of 1, the segment ["ab"] is over the budget by
    itself (2 tokens) and, its candidate [" ab"] failing the test, starts a
    fresh accumulation; the next candidate ["ab cd"] is 1 token, so the
    segment shares its chunk with the next one. *)
Lemma oversized_segment_shares_its_chunk :
  let est := phrase_estimate (py "ab cd") in
  Forall well_formed [Samples.seg_ab; Samples.seg_cd]
  /\ est (seg_text Samples.seg_ab) > 1
  /\ over_budget est 1 (initial_locals Samples.seg_ab) Samples.seg_ab = true
  /\ map covered (yielded (chunk_run est 1 [Samples.seg_ab; Samples.seg_cd]))
     = [[Samples.seg_ab; Samples.seg_cd]].
Proof.
  split; [repeat constructor; discriminate|]. repeat split.
Qed.

(** C3 (oversized segment), amended.  Let all segment texts be non-empty.
    Whatever the estimator, no segment is dropped or split, a segment
    [big] whose text alone is over the budget no more than another: the
    chunks are the chunks over the ranges of a partition of the input, and
    exactly one of them covers [big], at its place.  And when [big] is over
    the budget alone, starts a fresh accumulation (the budget test fails
    when it is scanned) and, if a segment follows, its text, a space and
    the text of that segment are not estimated below its text alone, that
    chunk covers [big] alone: its text is the stripped text of the segment,
    its times are the segment's. *)
Theorem oversized_segment_is_kept_whole
    (estimate : str -> Z) (max_tokens_per_chunk : Z)
    (pre post : list segment) (big : segment) :
  Forall well_formed (pre ++ big :: post) ->
  exists ranges1 r ranges2 a b,
    chunk_transcript_segments estimate (pre ++ big :: post) max_tokens_per_chunk
    = map chunk_over ranges1 ++ chunk_over r :: map chunk_over ranges2
    /\ segments_of r = a ++ big :: b
    /\ List.concat (map segments_of ranges1) ++ a = pre
    /\ b ++ List.concat (map segments_of ranges2) = post
    /\ (forall l,
          estimate (seg_text big) > max_tokens_per_chunk ->
          scan estimate max_tokens_per_chunk (hd big pre) pre = Some l ->
          over_budget estimate max_tokens_per_chunk l big = true ->
          match post with
          | [] => True
          | next :: _ =>
              estimate (seg_text big)
              <= estimate (seg_text big ++ SPACE ++ seg_text next)
          end ->
          a = [] /\ b = [] /\ chunk_over r = chunk_of_segment big).
Proof.
  intros Hwf.
  set (first := hd big pre).
  set (l0 := state_at estimate max_tokens_per_chunk first pre).
  set (alone := over_budget estimate max_tokens_per_chunk l0 big
                && match post with
                   | [] => true
                   | next :: _ =>
                       over_budget estimate max_tokens_per_chunk (restart big) next
                   end).
  pose proof (run_closes_ranges estimate max_tokens_per_chunk (pre ++ big :: post))
    as Hranges.
  destruct alone eqn:Halone; unfold alone in Halone.
  - (* [big] restarts the accumulation and is closed before the next segment *)
    apply andb_true_iff in Halone. destruct Halone as [Hover Hnext].
    assert (Hne : pre ++ big :: post <> []) by (destruct pre; discriminate).
    assert (Hhd : hd big (pre ++ big :: post) = first) by (destruct pre; reflexivity).
    unfold chunk_transcript_segments.
    rewrite (run_yielded estimate max_tokens_per_chunk big _ Hne), Hhd in Hranges |- *.
    unfold trace_at, state_at in Hranges |- *. rewrite steps_app in Hranges |- *.
    cbn [fst snd] in Hranges |- *.
    fold (trace_at estimate max_tokens_per_chunk first pre) in Hranges |- *.
    fold (state_at estimate max_tokens_per_chunk first pre) in Hranges |- *.
    fold l0 in Hranges |- *.
    apply Forall_app in Hwf. destruct Hwf as [Hpre Hpost].
    destruct (restart_closes_alone estimate max_tokens_per_chunk big post)
      as [tr2 [Htr2 Hcov2]]; [destruct post; [exact I | exact Hnext] | exact Hpost |].
    simpl steps in Hranges |- *.
    destruct (step_cases estimate max_tokens_per_chunk l0 big)
      as [[_ E] | [E _]]; [|congruence].
    rewrite E in Hranges |- *.
    destruct (steps estimate max_tokens_per_chunk (restart big) post)
      as [tr' l2]. cbn [fst snd] in *.
    destruct (steps_coverage estimate max_tokens_per_chunk pre
                (initial_locals first) Hpre (initial_live first)) as [Hc Hl].
    assert (Hall : (trace_at estimate max_tokens_per_chunk first pre
                    ++ flush l0 ++ tr') ++ flush l2
                   = (trace_at estimate max_tokens_per_chunk first pre ++ flush l0)
                     ++ closing (restart big) :: tr2).
    { rewrite <- !app_assoc. now rewrite Htr2. }
    rewrite Hall in Hranges |- *.
    apply Forall_app in Hranges. destruct Hranges as [H1 H2].
    inversion H2 as [|? ? _ H2']; subst.
    destruct (emissions_ranges _ H1) as [ranges1 [Hc1 Hch1]].
    destruct (emissions_ranges _ H2') as [ranges2 [Hc2 Hch2]].
    exists ranges1, (big, []), ranges2, [], [].
    split; [|split; [|split; [|split]]].
    + rewrite map_app. cbn [map]. now rewrite Hch1, Hch2.
    + reflexivity.
    + rewrite app_nil_r, <- Hc1, map_app, concat_app.
      unfold l0, state_at, trace_at. now rewrite (covered_flush _ Hl).
    + now rewrite <- Hc2.
    + intros; repeat split.
  - (* it shares its chunk *)
    destruct (run_ranges estimate max_tokens_per_chunk _ Hwf)
      as [ranges [Hcov [Hchunks _]]].
    destruct (concat_split _ _ _ _ Hcov) as (l1 & l & l2 & a & b & E1 & E2 & E3 & E4).
    apply map_eq_app in E1. destruct E1 as (ranges1 & rs & Er & Em1 & Em2).
    apply map_eq_cons in Em2. destruct Em2 as (r & ranges2 & -> & Ee & Em2).
    exists ranges1, r, ranges2, a, b. subst l1 l2 l ranges.
    split; [|split; [|split; [|split]]]; auto.
    + rewrite Hchunks, map_app. reflexivity.
    + intros l Hbig Hscan Hover Hjunction. exfalso.
      rewrite scan_closed in Hscan. injection Hscan as <-.
      fold first in Hover. fold l0 in Hover. rewrite Hover in Halone.
      destruct post as [|next post]; [discriminate|].
      cbn [andb] in Halone. unfold over_budget in Halone.
      cbn [restart current_chunk_text] in Halone.
      destruct (Z.gtb_spec (estimate (seg_text big ++ SPACE ++ seg_text next))
                  max_tokens_per_chunk); [discriminate | lia].
Qed.

Lemma oversized_segment_is_kept_whole_witness :
  let est := phrase_estimate (py "ab cd") in
  exists ranges1 r ranges2,
    chunk_transcript_segments est ([] ++ Samples.seg_cd :: [Samples.seg_ab]) 1
    = map chunk_over ranges1 ++ chunk_over r :: map chunk_over ranges2
    /\ segments_of r = [Samples.seg_cd]
    /\ chunk_over r = chunk_of_segment Samples.seg_cd
    /\ List.concat (map segments_of ranges1) = []
    /\ List.concat (map segments_of ranges2) = [Samples.seg_ab].
Proof.
  intros est.
  destruct (oversized_segment_is_kept_whole est 1 [] [Samples.seg_ab] Samples.seg_cd)
    as (ranges1 & r & ranges2 & a & b & Hchunks & Hr & Hpre & Hpost & Halone).
  { repeat constructor; discriminate. }
  destruct (Halone (initial_locals Samples.seg_cd)) as (Ha & Hb & Hown).
  { reflexivity. }
  { reflexivity. }
  { reflexivity. }
  { vm_compute. discriminate. }
  subst a b. rewrite app_nil_r in Hpre.
  exists ranges1, r, ranges2. repeat split; assumption.
Defined.

(* ================================================================== *)
(** * The chunker on the store *)

Lemma skipn_nil_nth_error {A} (xs : list A) (i : nat) :
  skipn i xs = [] -> nth_error xs i = None.
Proof.
  revert i. induction xs as [|x xs IH]; intros [|i] H; simpl in *;
    try reflexivity; try discriminate. now apply IH.
Qed.

Lemma skipn_cons_nth_error {A} (xs : list A) (i : nat) (y : A) (ys : list A) :
  skipn i xs = y :: ys -> nth_error xs i = Some y /\ skipn (S i) xs = ys.
Proof.
  revert i. induction xs as [|x xs IH]; intros [|i] H; simpl in *;
    try discriminate.
  - injection H as -> ->. auto.
  - now apply IH.
Qed.

Lemma candidates_length (estimate : str -> Z) (max : Z)
    (segments : list segment) (l : locals) :
  List.length (candidates estimate max l segments) = List.length segments.
Proof.
  revert l. induction segments as [|s rest IH]; intros l; simpl; auto.
Qed.

Lemma candidates_end_with_texts (estimate : str -> Z) (max : Z)
    (segments : list segment) (l : locals) :
  Forall2 (fun c s => exists acc, c = acc ++ SPACE ++ seg_text s)
    (candidates estimate max l segments) segments.
Proof.
  revert l. induction segments as [|s rest IH]; intros l; simpl;
    constructor; eauto.
Qed.

Lemma exec_bind_eq {A B} (m : Exec.M A) (k : A -> Exec.M B)
    (h h1 h2 : Exec.heap) (ev ev' : list Exec.event) (a : A) (r : Exec.outcome B) :
  m h = (ev, h1, Exec.Done a) -> k a h1 = (ev', h2, r) ->
  Exec.bind m k h = (ev ++ ev', h2, r).
Proof. intros Hm Hk. unfold Exec.bind. now rewrite Hm, Hk. Qed.

Section ExecFacts.

Variable estimate : str -> Z.
Variable max : Z.
Variable h0 : Exec.heap.
Variable p : Exec.loc.

#[local] Abbreviation step := (step estimate max).
#[local] Abbreviation steps := (steps estimate max).
#[local] Abbreviation tied := (tied h0 p max).

Lemma exec_flush (f : Exec.frame) (h : Exec.heap) :
  consistent (locals_of f h) ->
  (if truthy (Exec.current_chunk_text f)
   then Exec.yield_chunk f else Exec.ret tt) h
  = (map Exec.Yield (map emitted_chunk (flush (locals_of f h))), h, Exec.Done tt).
Proof.
  intros Hc. unfold flush. simpl.
  destruct (truthy (Exec.current_chunk_text f)) eqn:T; [|reflexivity].
  assert (Hne : Exec.cell h (Exec.chunk_segments f) <> []).
  { intros E. apply truthy_true_iff in T. apply T. now apply Hc. }
  destruct (rev_nonempty _ Hne) as [x [ys E]].
  unfold Exec.yield_chunk, Exec.last_item, Exec.bind, Exec.read, Exec.emit.
  rewrite E. simpl. unfold closing. simpl. now rewrite E.
Qed.

Lemma exec_loop_body (f : Exec.frame) (h : Exec.heap) (s : segment) :
  tied f h -> consistent (locals_of f h) ->
  exists f' h',
    Exec.loop_body estimate f s h
    = (Exec.Estimate (Exec.current_chunk_text f ++ SPACE ++ seg_text s)
       :: map Exec.Yield (map emitted_chunk (fst (step (locals_of f h) s))),
       h', Exec.Done f')
    /\ tied f' h'
    /\ locals_of f' h' = snd (step (locals_of f h) s).
Proof.
  intros Ht Hc. destruct Ht as [Hseg Hmax Hin Hown Hframe].
  unfold Exec.loop_body, Exec.call_estimate.
  unfold step, over_budget. simpl current_chunk_text.
  rewrite Hmax.
  unfold Exec.bind at 1. unfold Exec.bind at 1. unfold Exec.emit at 1.
  unfold Exec.ret at 1.
  destruct (estimate (Exec.current_chunk_text f ++ SPACE ++ seg_text s) >? max).
  - unfold Exec.bind at 1. rewrite (exec_flush f h Hc).
    unfold Exec.bind, Exec.new_list, Exec.ret. simpl.
    eexists. eexists. split; [rewrite !app_nil_r; reflexivity|]. split.
    + constructor; simpl; auto; try lia.
      intros q Hq. destruct (Nat.eqb_spec q (Exec.next h)); [lia | auto].
    + unfold locals_of, restart. simpl. now rewrite Nat.eqb_refl.
  - unfold Exec.bind, Exec.append, Exec.ret. simpl.
    eexists. eexists. split; [reflexivity|]. split.
    + constructor; simpl; auto.
      intros q Hq. destruct (Nat.eqb_spec q (Exec.chunk_segments f)); [lia | auto].
    + unfold locals_of, extend. simpl. now rewrite Nat.eqb_refl.
Qed.

Lemma exec_for_loop (tail : list segment) :
  forall (fuel i : nat) (f : Exec.frame) (h : Exec.heap),
    tied f h -> consistent (locals_of f h) ->
    skipn i (Exec.cell h0 p) = tail ->
    (List.length tail < fuel)%nat ->
    exists ev f' h',
      Exec.for_loop estimate fuel i f h = (ev, h', Exec.Done f')
      /\ tied f' h'
      /\ Exec.yields ev = map emitted_chunk (fst (steps (locals_of f h) tail))
      /\ Exec.calls ev = candidates estimate max (locals_of f h) tail
      /\ locals_of f' h' = snd (steps (locals_of f h) tail).
Proof.
  induction tail as [|s tail IH]; intros fuel i f h Ht Hc Hskip Hfuel;
    (destruct fuel as [|fuel]; [simpl in Hfuel; lia|]).
  - simpl. unfold Exec.bind, Exec.read. 
    rewrite (tied_segments _ _ _ _ _ Ht).
    rewrite (tied_frame _ _ _ _ _ Ht p (tied_input _ _ _ _ _ Ht)).
    rewrite (skipn_nil_nth_error _ _ Hskip). simpl.
    exists [], f, h. split; [reflexivity|]. split; [exact Ht|].
    repeat split.
  - simpl Exec.for_loop. unfold Exec.bind at 1. unfold Exec.read at 1.
    rewrite (tied_segments _ _ _ _ _ Ht).
    rewrite (tied_frame _ _ _ _ _ Ht p (tied_input _ _ _ _ _ Ht)).
    destruct (skipn_cons_nth_error _ _ _ _ Hskip) as [Hnth Hskip'].
    rewrite Hnth.
    destruct (exec_loop_body f h s Ht Hc) as (f1 & h1 & Hbody & Ht1 & Hl1).
    unfold Exec.bind at 1. rewrite Hbody.
    assert (Hc1 : consistent (locals_of f1 h1))
      by (rewrite Hl1; apply step_consistent).
    simpl in Hfuel.
    destruct (IH fuel (S i) f1 h1 Ht1 Hc1 Hskip' ltac:(lia))
      as (ev & f2 & h2 & Hloop & Ht2 & Hy & Hcalls & Hl2).
    rewrite Hloop. eexists. exists f2, h2.
    split; [reflexivity|]. split; [exact Ht2|].
    simpl steps. simpl candidates. rewrite <- Hl1.
    destruct (step (locals_of f h) s) as [tr l1] eqn:Es. simpl in *.
    subst l1.
    destruct (steps (locals_of f1 h1) tail) as [tr' l2] eqn:Ess. simpl in *.
    repeat split; auto.
    + unfold Exec.yields in *. simpl. rewrite flat_map_app, Hy, map_app.
      f_equal. clear. induction tr as [|e tr IH]; simpl; congruence.
    + unfold Exec.calls in *. simpl. rewrite flat_map_app, Hcalls.
      replace (flat_map _ (map Exec.Yield (map emitted_chunk tr))) with (@nil str);
        [reflexivity|].
      clear. induction tr as [|e tr IH]; simpl; congruence.
Qed.

End ExecFacts.

(** The call on the store returns with enough fuel, hands out the chunks of
    the functional form, asks the estimator about the candidates in order,
    and leaves every list object that existed before the call as it was. *)
Lemma exec_refines (estimate : str -> Z) (max : Z)
    (h : Exec.heap) (p : Exec.loc) (fuel : nat) :
  (p < Exec.next h)%nat ->
  (List.length (Exec.cell h p) < fuel)%nat ->
  exists ev h',
    Exec.chunk_transcript_segments estimate fuel p max h = (ev, h', Exec.Done tt)
    /\ Exec.yields ev = chunk_transcript_segments estimate (Exec.cell h p) max
    /\ Exec.calls ev
       = match Exec.cell h p with
         | [] => []
         | first :: _ =>
             candidates estimate max (initial_locals first) (Exec.cell h p)
         end
    /\ (forall q, (q < Exec.next h)%nat -> Exec.cell h' q = Exec.cell h q).
Proof.
  intros Hp Hfuel.
  set (h1 := {| Exec.cell := fun q => if Nat.eqb q (Exec.next h) then []
                                      else Exec.cell h q;
                Exec.next := S (Exec.next h) |}).
  assert (Hframe : forall q, (q < Exec.next h)%nat -> Exec.cell h1 q = Exec.cell h q).
  { intros q Hq. simpl. destruct (Nat.eqb_spec q (Exec.next h)); [lia | reflexivity]. }
  assert (Hnew : Exec.new_list [] h = ([], h1, Exec.Done (Exec.next h)))
    by reflexivity.
  assert (Hread : Exec.read p h1 = ([], h1, Exec.Done (Exec.cell h p))).
  { unfold Exec.read. now rewrite (Hframe p Hp). }
  unfold Exec.chunk_transcript_segments.
  destruct (Exec.cell h p) as [|first rest] eqn:Ecell.
  - eexists. exists h1. split.
    + eapply exec_bind_eq; [exact Hnew|]. cbv beta.
      eapply exec_bind_eq; [exact Hread|]. reflexivity.
    + simpl. repeat split; auto.
  - set (f1 := {| Exec.segments := p;
                  Exec.max_tokens_per_chunk := max;
                  Exec.current_chunk_text := [];
                  Exec.current_chunk_start_time := seg_start first;
                  Exec.chunk_segments := Exec.next h |}).
    assert (Ht : tied h p max f1 h1).
    { constructor; simpl; auto; lia. }
    assert (Hl : locals_of f1 h1 = initial_locals first).
    { unfold locals_of, initial_locals. simpl. now rewrite Nat.eqb_refl. }
    assert (Hc : consistent (locals_of f1 h1))
      by (rewrite Hl; apply initial_consistent).
    destruct (exec_for_loop estimate max h p (first :: rest) fuel 0 f1 h1
                Ht Hc) as (ev & f2 & h2 & Hloop & Ht2 & Hy & Hcalls & Hl2).
    { simpl. exact Ecell. }
    { exact Hfuel. }
    assert (Hc2 : consistent (locals_of f2 h2)).
    { rewrite Hl2, Hl. apply (state_at_consistent estimate max first (first :: rest)). }
    assert (Hitem : Exec.item p 0 h1 = ([], h1, Exec.Done first)).
    { unfold Exec.item. change (@nil Exec.event) with (@nil Exec.event ++ []).
      eapply exec_bind_eq; [exact Hread|]. reflexivity. }
    eexists. exists h2. split.
    { eapply exec_bind_eq; [exact Hnew|]. cbv beta.
      eapply exec_bind_eq; [exact Hread|]. cbv beta iota.
      eapply exec_bind_eq; [exact Hitem|]. cbv beta.
      eapply exec_bind_eq; [exact Hloop|]. cbv beta.
      apply (exec_flush f2 h2 Hc2). }
    simpl app. rewrite Hl in *. split; [|split].
    + unfold chunk_transcript_segments. rewrite chunk_run_closed.
      unfold yielded. simpl fst. unfold Exec.yields in *.
      rewrite flat_map_app, Hy, map_app. rewrite Hl2.
      unfold trace_at, state_at. f_equal.
      generalize (flush (snd (steps estimate max (initial_locals first) (first :: rest)))).
      intros tr. induction tr as [|e tr IH]; simpl; congruence.
    + unfold Exec.calls in *. rewrite flat_map_app, Hcalls.
      replace (flat_map _ (map Exec.Yield _)) with (@nil str);
        [now rewrite app_nil_r|].
      generalize (flush (locals_of f2 h2)).
      intros tr. induction tr as [|e tr IH]; simpl; congruence.
    + intros q Hq. apply (tied_frame _ _ _ _ _ Ht2 q Hq).
Qed.

(* ================================================================== *)
(** * The chunker as a function of its inputs: claims *)

(** C7 (determinism, no mutation).  Two calls, in any two stores, on lists
    with the same segments and with the same budget and estimator, both
    return and hand out the same chunks, which are a function of the
    segments, the budget and the estimator alone; and after a call every
    list object that existed before it, the input list among them, holds
    what it held. *)
Theorem chunker_is_a_pure_function
    (estimate : str -> Z) (max : Z)
    (h1 : Exec.heap) (p1 : Exec.loc) (fuel1 : nat)
    (h2 : Exec.heap) (p2 : Exec.loc) (fuel2 : nat) :
  (p1 < Exec.next h1)%nat -> (p2 < Exec.next h2)%nat ->
  Exec.cell h1 p1 = Exec.cell h2 p2 ->
  (List.length (Exec.cell h1 p1) < fuel1)%nat ->
  (List.length (Exec.cell h2 p2) < fuel2)%nat ->
  exists ev1 h1' ev2 h2',
    Exec.chunk_transcript_segments estimate fuel1 p1 max h1 = (ev1, h1', Exec.Done tt)
    /\ Exec.chunk_transcript_segments estimate fuel2 p2 max h2 = (ev2, h2', Exec.Done tt)
    /\ Exec.yields ev1 = Exec.yields ev2
    /\ Exec.yields ev1 = chunk_transcript_segments estimate (Exec.cell h1 p1) max
    /\ (forall q, (q < Exec.next h1)%nat -> Exec.cell h1' q = Exec.cell h1 q)
    /\ (forall q, (q < Exec.next h2)%nat -> Exec.cell h2' q = Exec.cell h2 q).
Proof.
  intros Hp1 Hp2 Hsame Hf1 Hf2.
  destruct (exec_refines estimate max h1 p1 fuel1 Hp1 Hf1)
    as (ev1 & h1' & Hr1 & Hy1 & _ & Hm1).
  destruct (exec_refines estimate max h2 p2 fuel2 Hp2 Hf2)
    as (ev2 & h2' & Hr2 & Hy2 & _ & Hm2).
  exists ev1, h1', ev2, h2'. repeat split; auto.
  rewrite Hy1, Hy2. now rewrite Hsame.
Qed.

Lemma chunker_is_a_pure_function_witness :
  let ha := {| Exec.cell := fun _ => Tests.MOCK_SEGMENTS; Exec.next := 1%nat |} in
  let hb := {| Exec.cell := fun q => if Nat.eqb q 3 then Tests.MOCK_SEGMENTS else [];
               Exec.next := 5%nat |} in
  exists ev1 h1' ev2 h2',
    Exec.chunk_transcript_segments Tests.mock_estimate_tokens 6%nat 0%nat 40 ha
    = (ev1, h1', Exec.Done tt)
    /\ Exec.chunk_transcript_segments Tests.mock_estimate_tokens 9%nat 3%nat 40 hb
       = (ev2, h2', Exec.Done tt)
    /\ Exec.yields ev1 = Exec.yields ev2
    /\ Exec.yields ev1
       = chunk_transcript_segments Tests.mock_estimate_tokens (Exec.cell ha 0%nat) 40
    /\ (forall q, (q < Exec.next ha)%nat -> Exec.cell h1' q = Exec.cell ha q)
    /\ (forall q, (q < Exec.next hb)%nat -> Exec.cell h2' q = Exec.cell hb q).
Proof.
  intros ha hb.
  apply (chunker_is_a_pure_function Tests.mock_estimate_tokens 40
           ha 0%nat 6%nat hb 3%nat 9%nat).
  - simpl. lia.
  - simpl. lia.
  - reflexivity.
  - simpl. lia.
  - simpl. lia.
Defined.

(** C8 (termination, one pass).  For every list of segments and every
    integer budget, non-positive ones included (nothing rejects them), the
    call returns within one round of the loop for each segment and one
    more to find the end of the list; the estimator is asked exactly once
    for each segment, in input order, about a candidate that ends with that
    segment's text; at most one chunk is yielded for each segment; and when
    the segment texts are non-empty the chunks cover the input exactly:
    they are the chunks over the ranges of a partition of the input into
    non-empty runs of consecutive segments, in order. *)
Theorem chunker_terminates_in_one_pass
    (estimate : str -> Z) (max : Z) (h : Exec.heap) (p : Exec.loc) :
  (p < Exec.next h)%nat ->
  let segments := Exec.cell h p in
  exists ev h',
    Exec.chunk_transcript_segments estimate (S (List.length segments)) p max h
    = (ev, h', Exec.Done tt)
    /\ List.length (Exec.calls ev) = List.length segments
    /\ Forall2 (fun c s => exists acc, c = acc ++ SPACE ++ seg_text s)
         (Exec.calls ev) segments
    /\ (List.length (Exec.yields ev) <= List.length segments)%nat
    /\ (Forall well_formed segments ->
        exists ranges,
          List.concat (map segments_of ranges) = segments
          /\ Exec.yields ev = map chunk_over ranges).
Proof.
  intros Hp segments.
  destruct (exec_refines estimate max h p (S (List.length segments)) Hp
              (Nat.lt_succ_diag_r _)) as (ev & h' & Hr & Hy & Hcalls & _).
  exists ev, h'. split; [exact Hr|]. split; [|split; [|split]].
  - rewrite Hcalls. fold segments. destruct segments as [|first rest] eqn:E.
    + reflexivity.
    + apply candidates_length.
  - rewrite Hcalls. fold segments. destruct segments as [|first rest] eqn:E.
    + constructor.
    + apply candidates_end_with_texts.
  - rewrite Hy. unfold chunk_transcript_segments. rewrite length_map.
    apply run_length.
  - intros Hwf.
    destruct (run_ranges estimate max segments Hwf) as [ranges [Hcov [Hch _]]].
    exists ranges. split; [exact Hcov|]. now rewrite Hy.
Qed.

Lemma chunker_terminates_in_one_pass_witness :
  let h := {| Exec.cell := fun _ => [Samples.seg_ab; Samples.seg_cd];
              Exec.next := 1%nat |} in
  exists ev h',
    Exec.chunk_transcript_segments Tests.mock_return_5 3%nat 0%nat (-7) h
    = (ev, h', Exec.Done tt)
    /\ List.length (Exec.calls ev) = 2%nat
    /\ Forall2 (fun c s => exists acc, c = acc ++ SPACE ++ seg_text s)
         (Exec.calls ev) [Samples.seg_ab; Samples.seg_cd]
    /\ (List.length (Exec.yields ev) <= 2)%nat
    /\ (Forall well_formed [Samples.seg_ab; Samples.seg_cd] ->
        exists ranges,
          List.concat (map segments_of ranges) = [Samples.seg_ab; Samples.seg_cd]
          /\ Exec.yields ev = map chunk_over ranges).
Proof.
  intros h.
  apply (chunker_terminates_in_one_pass Tests.mock_return_5 (-7) h 0%nat).
  simpl. lia.
Defined.

(* ================================================================== *)
(** * [format_timestamp] *)

Lemma format_02d_two_digits (n : Z) :
  0 <= n < 100 -> format_02d n = two_digits n.
Proof.
  intros Hn.
  assert (H : forall k : nat, (k < 100)%nat ->
                format_02d (Z.of_nat k) = two_digits (Z.of_nat k)).
  { intros k Hk.
    do 100 (destruct k as [|k]; [vm_compute; reflexivity|]). lia. }
  rewrite <- (Z2Nat.id n) by lia. apply H. lia.
Qed.

Lemma format_02d_length (n : Z) :
  0 <= n -> (2 <= List.length (format_02d n))%nat.
Proof.
  intros Hn. unfold format_02d.
  destruct (Z.ltb_spec n 0); [lia|].
  unfold zfill. rewrite length_app, repeat_length. lia.
Qed.

Lemma int_nonnegative (x : number) (t : Z) :
  lt_zero x = false -> int x = inr t -> 0 <= t.
Proof.
  destruct x as [z | [s|s| |s m e]]; simpl; intros Hlt Hint;
    try discriminate; injection Hint as <-.
  - now apply Z.ltb_ge in Hlt.
  - lia.
  - destruct s; [discriminate|]. apply Z.shiftl_nonneg. lia.
Qed.

Lemma format_timestamp_of_int (x : number) (t : Z) :
  lt_zero x = false -> int x = inr t ->
  format_timestamp x
  = if t / 3600 >? 0 then
      inr (format_02d (t / 3600) ++ py ":" ++ format_02d ((t / 60) mod 60)
           ++ py ":" ++ format_02d (t mod 60))
    else inr (format_02d ((t / 60) mod 60) ++ py ":" ++ format_02d (t mod 60)).
Proof.
  intros Hlt Hint. unfold format_timestamp, divmod. rewrite Hlt, Hint.
  rewrite Z.div_div by lia. reflexivity.
Qed.

(** C9 (timestamps).  A negative argument gives ["00:00"].  [int] truncates
    a non-negative float to the integer part.  For a non-negative argument
    with integer part [t]: below one hour the result is the two digits of
    the minutes, a colon and the two digits of the seconds, the seconds
    between 00 and 59; from one hour on it is the hours, padded with zeros
    to two digits at least, then minutes and seconds on two digits each
    after colons.  The six examples of the tests hold. *)
Theorem format_timestamp_spec :
  (forall x, lt_zero x = true -> format_timestamp x = inr (py "00:00"))
  /\ (forall m e,
        int (PyFloat (S754_finite false m e))
        = inr (if 0 <=? e then Z.pos m * 2 ^ e else Z.pos m / 2 ^ (- e)))
  /\ (forall x t,
        lt_zero x = false -> int x = inr t ->
        0 <= t
        /\ 0 <= t mod 60 < 60
        /\ (t < 3600 ->
            0 <= t / 60 < 60
            /\ format_timestamp x
               = inr (two_digits (t / 60) ++ py ":" ++ two_digits (t mod 60)))
        /\ (3600 <= t ->
            1 <= t / 3600
            /\ 0 <= (t / 60) mod 60 < 60
            /\ (2 <= List.length (format_02d (t / 3600)))%nat
            /\ (t / 3600 < 100 -> format_02d (t / 3600) = two_digits (t / 3600))
            /\ format_timestamp x
               = inr (format_02d (t / 3600) ++ py ":"
                      ++ two_digits ((t / 60) mod 60) ++ py ":"
                      ++ two_digits (t mod 60))))
  /\ format_timestamp (PyFloat (PyFloat.f64 5010254585449677 (-47))) = inr (py "00:35")
  /\ format_timestamp (PyInt 150) = inr (py "02:30")
  /\ format_timestamp (PyInt 3599) = inr (py "59:59")
  /\ format_timestamp (PyInt 3661) = inr (py "01:01:01")
  /\ format_timestamp (PyInt 0) = inr (py "00:00")
  /\ format_timestamp (PyInt (-10)) = inr (py "00:00").
Proof.
  split; [|split; [|split]].
  - intros x Hlt. unfold format_timestamp. now rewrite Hlt.
  - intros m e. simpl. destruct (Z.leb_spec 0 e).
    + now rewrite Z.shiftl_mul_pow2.
    + now rewrite Z.shiftl_div_pow2 by lia.
  - intros x t Hlt Hint.
    pose proof (int_nonnegative x t Hlt Hint) as Ht.
    pose proof (Z.mod_pos_bound t 60 ltac:(lia)) as Hs.
    pose proof (Z.mod_pos_bound (t / 60) 60 ltac:(lia)) as Hm.
    rewrite (format_timestamp_of_int x t Hlt Hint).
    split; [exact Ht|]. split; [exact Hs|]. split.
    + intros Hsmall.
      assert (Hh : t / 3600 = 0) by (apply Z.div_small; lia).
      assert (Hmin : 0 <= t / 60 < 60).
      { split; [apply Z.div_pos; lia | apply Z.div_lt_upper_bound; lia]. }
      rewrite Hh. simpl Z.gtb. cbv iota.
      rewrite (Z.mod_small (t / 60) 60) by lia.
      rewrite !format_02d_two_digits by lia. auto.
    + intros Hbig.
      assert (Hh : 1 <= t / 3600) by (apply Z.div_le_lower_bound; lia).
      destruct (Z.gtb_spec (t / 3600) 0); [|lia].
      rewrite (format_02d_two_digits ((t / 60) mod 60)) by lia.
      rewrite (format_02d_two_digits (t mod 60)) by lia.
      repeat split; try lia.
      * apply format_02d_length. lia.
      * intros Hlt100. apply format_02d_two_digits. lia.
  - vm_compute. repeat split; reflexivity.
Qed.

Lemma format_timestamp_spec_witness :
  let x := PyFloat (PyFloat.f64 5010254585449677 (-47)) in
  0 <= 35
  /\ 0 <= 35 mod 60 < 60
  /\ (35 < 3600 ->
      0 <= 35 / 60 < 60
      /\ format_timestamp x
         = inr (two_digits (35 / 60) ++ py ":" ++ two_digits (35 mod 60)))
  /\ (3600 <= 35 ->
      1 <= 35 / 3600
      /\ 0 <= (35 / 60) mod 60 < 60
      /\ (2 <= List.length (format_02d (35 / 3600)))%nat
      /\ (35 / 3600 < 100 -> format_02d (35 / 3600) = two_digits (35 / 3600))
      /\ format_timestamp x
         = inr (format_02d (35 / 3600) ++ py ":"
                ++ two_digits ((35 / 60) mod 60) ++ py ":"
                ++ two_digits (35 mod 60))).
Proof.
  intros x.
  apply (proj1 (proj2 (proj2 format_timestamp_spec)) x 35); reflexivity.
Defined.

(** The special floats: a NaN and the positive infinity are not below zero,
    and [int] raises on them; the negative infinity is below zero. *)
Lemma format_timestamp_special_floats :
  format_timestamp (PyFloat S754_nan) = inl ValueError
  /\ format_timestamp (PyFloat (S754_infinity false)) = inl OverflowError
  /\ format_timestamp (PyFloat (S754_infinity true)) = inr (py "00:00").
Proof. repeat split. Qed.

(* ================================================================== *)
(** * More on the chunker *)

Lemma lstrip_head (s : str) (a : N) (r : str) :
  lstrip s = a :: r -> isspace a = false.
Proof.
  induction s as [|c s IH]; simpl; [discriminate|].
  destruct (isspace c) eqn:Hc; [exact IH|].
  intros H. injection H as <- _. exact Hc.
Qed.

Lemma lstrip_is_suffix (s : str) : exists a, s = a ++ lstrip s.
Proof.
  induction s as [|c s [a Ha]]; simpl.
  - exists []. reflexivity.
  - destruct (isspace c).
    + exists (c :: a). simpl. congruence.
    + exists []. reflexivity.
Qed.

Lemma rstrip_is_prefix (s : str) : exists w, s = rstrip s ++ w.
Proof.
  destruct (lstrip_is_suffix (rev s)) as [a Ha]. exists (rev a).
  unfold rstrip. rewrite <- rev_app_distr, <- Ha. now rewrite rev_involutive.
Qed.

Lemma strip_head (s : str) (a : N) (r : str) :
  strip s = a :: r -> isspace a = false.
Proof.
  unfold strip. intros H.
  destruct (rstrip_is_prefix (lstrip s)) as [w Hw]. rewrite H in Hw.
  simpl in Hw. exact (lstrip_head s a (r ++ w) Hw).
Qed.

Lemma strip_last (s : str) (z : N) (r : str) :
  strip s = r ++ [z] -> isspace z = false.
Proof.
  unfold strip, rstrip. intros H.
  apply (f_equal (@rev N)) in H. rewrite rev_involutive, rev_unit in H.
  exact (lstrip_head _ _ _ H).
Qed.

Lemma removelast_map {A B} (f : A -> B) (l : list A) :
  removelast (map f l) = map f (removelast l).
Proof.
  induction l as [|x l IH]; [reflexivity|].
  destruct l as [|y l]; [reflexivity|].
  change (removelast (map f (x :: y :: l)))
    with (f x :: removelast (map f (y :: l))).
  change (removelast (x :: y :: l)) with (x :: removelast (y :: l)).
  simpl map at 2. now rewrite IH.
Qed.

Lemma rev_head_last {A} (l : list A) (x d : A) (r : list A) :
  rev l = x :: r -> last l d = x.
Proof.
  intros H. apply (f_equal (@rev A)) in H. rewrite rev_involutive in H.
  subst l. simpl. apply last_last.
Qed.

Section ChunkerMore.

Variable estimate : str -> Z.
Variable max_tokens_per_chunk : Z.

#[local] Abbreviation step := (step estimate max_tokens_per_chunk).
#[local] Abbreviation steps := (steps estimate max_tokens_per_chunk).
#[local] Abbreviation over_budget := (over_budget estimate max_tokens_per_chunk).
#[local] Abbreviation chunk_run := (chunk_run estimate max_tokens_per_chunk).
#[local] Abbreviation state_at := (state_at estimate max_tokens_per_chunk).
#[local] Abbreviation trace_at := (trace_at estimate max_tokens_per_chunk).

(** An emission of the loop closes the accumulation of a prefix of the
    input, because the segment after that prefix failed the budget test. *)
Lemma trace_closings_over (first : segment) (scanned : list segment) (e : emission) :
  In e (trace_at first scanned) ->
  exists k s,
    nth_error scanned k = Some s
    /\ e = closing (state_at first (prefix_of k scanned))
    /\ over_budget (state_at first (prefix_of k scanned)) s = true.
Proof.
  induction scanned as [|s scanned IH] using rev_ind; intros Hin.
  - contradiction.
  - rewrite trace_at_snoc in Hin. apply in_app_or in Hin.
    destruct Hin as [Hin | Hin].
    + destruct (IH Hin) as (k & s' & Hnth & He & Hover).
      assert (Hk : (k < List.length scanned)%nat)
        by (apply nth_error_Some; congruence).
      exists k, s'. unfold prefix_of in *. rewrite firstn_app.
      replace (k - List.length scanned)%nat with 0%nat by lia.
      simpl. rewrite app_nil_r. repeat split; auto.
      rewrite nth_error_app1 by exact Hk. exact Hnth.
    + exists (List.length scanned), s. unfold prefix_of.
      rewrite firstn_app, firstn_all, Nat.sub_diag. simpl. rewrite app_nil_r.
      destruct (step_cases estimate max_tokens_per_chunk (state_at first scanned) s)
        as [[Hover E] | [_ E]]; rewrite E in Hin; simpl in Hin; [|contradiction].
      unfold flush in Hin.
      destruct (truthy (current_chunk_text (state_at first scanned)));
        [|contradiction].
      destruct Hin as [Hin | []]. repeat split; auto.
      rewrite nth_error_app2 by lia. now rewrite Nat.sub_diag.
Qed.

Lemma flush_short (l : locals) : (List.length (flush l) <= 1)%nat.
Proof. unfold flush. destruct (truthy _); simpl; lia. Qed.

(** An emission that is not the last one of the run comes from the loop. *)
Lemma not_last_in_trace (first : segment) (rest : list segment)
    (tr1 tr2 : list emission) (e : emission) :
  yielded (chunk_run (first :: rest)) = tr1 ++ e :: tr2 -> tr2 <> [] ->
  In e (trace_at first (first :: rest)).
Proof.
  rewrite chunk_run_closed. unfold yielded. simpl fst. intros H Hne.
  pose proof (flush_short (state_at first (first :: rest))) as Hf.
  apply app_eq_app in H. destruct H as [l [[H1 H2] | [H1 H2]]].
  - destruct l as [|x l].
    + simpl in H2. rewrite <- H2 in Hf.
      destruct tr2; [congruence | simpl in Hf; lia].
    + injection H2 as <- H2. rewrite H1. apply in_or_app. right. now left.
  - rewrite H2 in Hf. rewrite length_app in Hf. simpl in Hf.
    destruct tr2; [congruence | simpl in Hf; lia].
Qed.

(** When the estimate never exceeds the budget, nothing is yielded by the
    loop and every segment is recorded. *)
Lemma steps_all_fit (segments : list segment) (l : locals) :
  (forall t, estimate t <= max_tokens_per_chunk) ->
  fst (steps l segments) = []
  /\ chunk_segments (snd (steps l segments)) = chunk_segments l ++ segments
  /\ current_chunk_start_time (snd (steps l segments)) = current_chunk_start_time l
  /\ (segments <> [] -> current_chunk_text (snd (steps l segments)) <> []).
Proof.
  intros Hfit. revert l. induction segments as [|s rest IH]; intros l.
  - simpl. rewrite app_nil_r. repeat split; auto; congruence.
  - simpl. destruct (step_cases estimate max_tokens_per_chunk l s)
      as [[Hover _] | [_ E]].
    + unfold over_budget in Hover. apply Z.gtb_lt in Hover.
      specialize (Hfit (current_chunk_text l ++ SPACE ++ seg_text s)). lia.
    + rewrite E. destruct (IH (extend l s)) as (H1 & H2 & H3 & H4).
      destruct (steps (extend l s) rest) as [tr l2] eqn:Es. simpl in *.
      repeat split; auto.
      * rewrite H2. now rewrite <- app_assoc.
      * intros _. destruct rest as [|s' rest'].
        -- simpl in Es. injection Es as _ <-. simpl.
           intros H. apply app_eq_nil in H. destruct H as [_ H]. discriminate.
        -- apply H4. discriminate.
Qed.

(** When the estimate always exceeds the budget, every segment with a
    non-empty text is closed alone. *)
Lemma steps_none_fit (segments : list segment) (l : locals) :
  (forall t, estimate t > max_tokens_per_chunk) ->
  Forall well_formed segments ->
  fst (steps l segments) ++ flush (snd (steps l segments))
  = flush l ++ map (fun s => closing (restart s)) segments.
Proof.
  intros Hover. revert l. induction segments as [|s rest IH]; intros l Hwf.
  - simpl. now rewrite app_nil_r.
  - inversion Hwf as [|? ? Hs Hrest]; subst. simpl.
    destruct (step_cases estimate max_tokens_per_chunk l s)
      as [[_ E] | [Hfit _]].
    + rewrite E. specialize (IH (restart s) Hrest).
      destruct (steps (restart s) rest) as [tr l2]. simpl in *.
      rewrite <- app_assoc, IH. now rewrite (flush_restart s Hs).
    + unfold over_budget in Hfit. rewrite Z.gtb_ltb, Z.ltb_ge in Hfit.
      specialize (Hover (current_chunk_text l ++ SPACE ++ seg_text s)). lia.
Qed.

(** The start time of an emission is the start of the first segment it
    covers. *)
Lemma emission_start (segments : list segment) (e : emission) :
  In e (yielded (chunk_run segments)) ->
  exists x cs,
    covered e = x :: cs /\ start_time (emitted_chunk e) = seg_start x.
Proof.
  intros Hin.
  destruct (run_emission _ _ _ _ Hin) as (first & rest & k & Hseg & Hk & He & Hne).
  assert (Hhd : hd first (prefix_of k segments) = first).
  { rewrite Hseg. apply prefix_hd. }
  pose proof (state_start estimate max_tokens_per_chunk first _ Hhd) as Hstart.
  destruct (chunk_segments (state_at first (prefix_of k segments)))
    as [|x cs] eqn:E; [congruence|].
  exists x, cs. rewrite He. simpl. now rewrite E.
Qed.

End ChunkerMore.

(** X1 (greedy).  A chunk that is not the last one was closed because the
    segment right after its range did not fit: the string accumulated for
    the chunk, a space and that segment's text are estimated above the
    budget. *)
Theorem chunks_are_greedy
    (estimate : str -> Z) (max_tokens_per_chunk : Z) (segments : list segment)
    (tr1 tr2 : list emission) (e : emission) :
  yielded (chunk_run estimate max_tokens_per_chunk segments) = tr1 ++ e :: tr2 ->
  tr2 <> [] ->
  exists before s after,
    segments = before ++ covered e ++ s :: after
    /\ estimate (accumulated e ++ SPACE ++ seg_text s) > max_tokens_per_chunk.
Proof.
  intros Hy Hne. destruct segments as [|first rest].
  - destruct tr1; discriminate.
  - pose proof (not_last_in_trace _ _ _ _ _ _ _ Hy Hne) as Hin.
    destruct (trace_closings_over _ _ _ _ _ Hin) as (k & s & Hnth & He & Hover).
    destruct (nth_error_split _ _ Hnth) as (l1 & l2 & Hsplit & Hlen).
    assert (Hpre : prefix_of k (first :: rest) = l1).
    { unfold prefix_of. rewrite Hsplit, <- Hlen, firstn_app, firstn_all, Nat.sub_diag.
      simpl. now rewrite app_nil_r. }
    rewrite Hpre in *.
    destruct (state_suffix estimate max_tokens_per_chunk first l1) as [before Hb].
    exists before, s, l2. split.
    + rewrite He. simpl. rewrite app_assoc, <- Hb. exact Hsplit.
    + rewrite He. cbn [accumulated closing]. unfold over_budget in Hover.
      apply Z.lt_gt, Z.gtb_lt. exact Hover.
Qed.

Lemma chunks_are_greedy_witness :
  exists before s after,
    Tests.MOCK_SEGMENTS = before ++ firstn 2 Tests.MOCK_SEGMENTS ++ s :: after
    /\ Tests.mock_estimate_tokens
         ((SPACE ++ Tests.s1 ++ SPACE ++ Tests.s2) ++ SPACE ++ seg_text s) > 40.
Proof.
  apply (chunks_are_greedy Tests.mock_estimate_tokens 40 Tests.MOCK_SEGMENTS []
           [closing (state_at Tests.mock_estimate_tokens 40
                       (hd Samples.seg_ab Tests.MOCK_SEGMENTS) Tests.MOCK_SEGMENTS)]
           (closing (state_at Tests.mock_estimate_tokens 40
                       (hd Samples.seg_ab Tests.MOCK_SEGMENTS)
                       (firstn 2 Tests.MOCK_SEGMENTS)))).
  - reflexivity.
  - discriminate.
Defined.

(** X2 (everything fits).  When no text is estimated above the budget, a
    non-empty input gives exactly one chunk: its text is all the segment
    texts joined by single spaces and stripped, it starts where the first
    segment starts and ends where the last one ends. *)
Theorem one_chunk_when_everything_fits
    (estimate : str -> Z) (max_tokens_per_chunk : Z)
    (first : segment) (rest : list segment) :
  (forall t, estimate t <= max_tokens_per_chunk) ->
  chunk_transcript_segments estimate (first :: rest) max_tokens_per_chunk
  = [ {| text := strip (join SPACE (texts (first :: rest)));
         start_time := seg_start first;
         end_time := seg_end (last (first :: rest) first) |} ].
Proof.
  intros Hfit. unfold chunk_transcript_segments. rewrite chunk_run_closed.
  unfold yielded. simpl fst.
  destruct (steps_all_fit estimate max_tokens_per_chunk (first :: rest)
              (initial_locals first) Hfit) as (Htr & Hcs & Hst & Hne).
  pose proof (strip_accumulated estimate max_tokens_per_chunk first (first :: rest))
    as Hstrip. cbv zeta in Hstrip.
  unfold trace_at, state_at in *. rewrite Htr.
  change (chunk_segments (initial_locals first)) with (@nil segment) in Hcs.
  change (current_chunk_start_time (initial_locals first))
    with (seg_start first) in Hst.
  set (l := snd (steps estimate max_tokens_per_chunk (initial_locals first)
                   (first :: rest))) in *.
  rewrite app_nil_l in Hcs. rewrite Hcs in Hstrip. rewrite app_nil_l.
  unfold flush. destruct (truthy (current_chunk_text l)) eqn:T.
  - unfold closing. cbn [map emitted_chunk]. rewrite Hstrip, Hst, Hcs.
    destruct (rev_nonempty (first :: rest)) as [x [r Er]]; [discriminate|].
    rewrite Er. now rewrite (rev_head_last _ _ first _ Er).
  - apply truthy_false_iff in T. exfalso. apply Hne; [discriminate | exact T].
Qed.

Lemma one_chunk_when_everything_fits_witness :
  chunk_transcript_segments Tests.mock_return_5 [Samples.seg_ab; Samples.seg_cd] 5
  = [ {| text := strip (join SPACE (texts [Samples.seg_ab; Samples.seg_cd]));
         start_time := seg_start Samples.seg_ab;
         end_time := seg_end (last [Samples.seg_ab; Samples.seg_cd] Samples.seg_ab) |} ].
Proof.
  apply (one_chunk_when_everything_fits Tests.mock_return_5 5
           Samples.seg_ab [Samples.seg_cd]).
  intros t. unfold Tests.mock_return_5. lia.
Defined.

Lemma chunks_when_nothing_fits
    (estimate : str -> Z) (max_tokens_per_chunk : Z) (segments : list segment) :
  (forall t, estimate t > max_tokens_per_chunk) ->
  Forall well_formed segments ->
  chunk_transcript_segments estimate segments max_tokens_per_chunk
  = map chunk_of_segment segments.
Proof.
  intros Hover Hwf. destruct segments as [|first rest]; [reflexivity|].
  unfold chunk_transcript_segments. rewrite chunk_run_closed.
  unfold yielded. simpl fst. unfold trace_at, state_at.
  rewrite (steps_none_fit estimate max_tokens_per_chunk (first :: rest)
             (initial_locals first) Hover Hwf).
  change (flush (initial_locals first)) with (@nil emission).
  rewrite app_nil_l, map_map. apply map_ext_in. intros s Hs. reflexivity.
Qed.

(** X3 (nothing fits).  When every text is estimated above the budget and
    the segment texts are non-empty, each segment becomes a chunk of its
    own, in order: its stripped text with its own start and end. *)
Theorem one_chunk_each_when_nothing_fits
    (estimate : str -> Z) (max_tokens_per_chunk : Z) (segments : list segment) :
  (forall t, estimate t > max_tokens_per_chunk) ->
  Forall well_formed segments ->
  chunk_transcript_segments estimate segments max_tokens_per_chunk
  = map chunk_of_segment segments.
Proof.
  intros Hover Hwf. now apply chunks_when_nothing_fits.
Qed.

Lemma one_chunk_each_when_nothing_fits_witness :
  chunk_transcript_segments Tests.mock_return_5 [Samples.seg_ab; Samples.seg_cd] 4
  = map chunk_of_segment [Samples.seg_ab; Samples.seg_cd].
Proof.
  apply (one_chunk_each_when_nothing_fits Tests.mock_return_5 4
           [Samples.seg_ab; Samples.seg_cd]).
  - intros t. unfold Tests.mock_return_5. lia.
  - repeat constructor; discriminate.
Defined.

(** ** An estimator that can raise *)

Lemma gen_bind_ret {Y A B} (a : A) (k : A -> gen Y B) : bind (ret a) k = k a.
Proof. unfold bind, ret. destruct (k a). reflexivity. Qed.

Lemma candidates_app (estimate : str -> Z) (max : Z) (a b : list segment)
    (l : locals) :
  candidates estimate max l (a ++ b)
  = candidates estimate max l a
    ++ candidates estimate max (snd (steps estimate max l a)) b.
Proof.
  revert l. induction a as [|s a IH]; intros l; [reflexivity|].
  cbn [app candidates steps]. rewrite IH.
  destruct (step estimate max l s) as [tr l1]. cbn [snd].
  destruct (steps estimate max l1 a) as [tr' l2]. reflexivity.
Qed.

Section RaisingFacts.

Variable estimate : str -> exn + Z.
Variable max_tokens_per_chunk : Z.

(** The estimator of the functional form that agrees with [estimate]
    wherever it returns. *)
#[local] Abbreviation counts := (fun t => returned (estimate t)).
#[local] Abbreviation step := (step counts max_tokens_per_chunk).
#[local] Abbreviation steps := (steps counts max_tokens_per_chunk).
#[local] Abbreviation candidates := (candidates counts max_tokens_per_chunk).
#[local] Abbreviation state_at := (state_at counts max_tokens_per_chunk).
#[local] Abbreviation trace_at := (trace_at counts max_tokens_per_chunk).

#[local] Abbreviation answered := (answered estimate).

Lemma raising_loop_body (l : locals) (s : segment) :
  consistent l ->
  answered (current_chunk_text l ++ SPACE ++ seg_text s) ->
  Raising.loop_body estimate max_tokens_per_chunk l s
  = (fst (step l s), inr (snd (step l s))).
Proof.
  intros Hc [count Hn].
  rewrite <- (loop_body_step counts max_tokens_per_chunk l s Hc).
  unfold Raising.loop_body, loop_body, Raising.call_estimate. cbv zeta beta.
  rewrite Hn. rewrite gen_bind_ret. reflexivity.
Qed.


Lemma raising_for_loop (segments : list segment) (l : locals) :
  consistent l ->
  Forall answered (candidates l segments) ->
  Raising.for_loop estimate max_tokens_per_chunk l segments
  = (fst (steps l segments), inr (snd (steps l segments))).
Proof.
  revert l. induction segments as [|s rest IH]; intros l Hc Hok.
  - reflexivity.
  - cbn [candidates] in Hok. inversion Hok as [|? ? Hs Hrest]; subst.
    cbn [Raising.for_loop].
    rewrite (raising_loop_body l s Hc Hs). unfold bind.
    pose proof (step_consistent counts max_tokens_per_chunk l s) as Hc'.
    destruct (step l s) as [tr l1] eqn:E. cbn [fst snd] in *.
    rewrite (IH l1 Hc' Hrest).
    destruct (steps l1 rest) as [tr' l2] eqn:E2.
    simpl. rewrite E, E2. reflexivity.
Qed.


(** Where the estimator returns on every candidate, the generator is the
    one of the functional form. *)
Lemma raising_run (segments : list segment) :
  Forall answered
    (match segments with
     | [] => []
     | first :: _ => candidates (initial_locals first) segments
     end) ->
  Raising.chunk_transcript_segments estimate segments max_tokens_per_chunk
  = (chunk_transcript_segments counts segments max_tokens_per_chunk, inr tt).
Proof.
  intros Hok. unfold Raising.chunk_transcript_segments, chunk_transcript_segments.
  destruct segments as [|first rest]; [reflexivity|].
  rewrite chunk_run_closed. unfold Raising.chunk_run.
  rewrite (raising_for_loop _ _ (initial_consistent first) Hok).
  pose proof (flush_closed (snd (steps (initial_locals first) (first :: rest)))
                (state_at_consistent counts max_tokens_per_chunk
                   first (first :: rest))) as Hflush.
  unfold bind. rewrite !Hflush. reflexivity.
Qed.


(** Every candidate is a run of consecutive segment texts joined by single
    spaces, with or without a space in front. *)
Lemma candidates_are_runs (first : segment) (segments : list segment) :
  returns_on_runs estimate segments ->
  Forall answered (candidates (initial_locals first) segments).
Proof.
  intros Hruns.
  assert (H : forall scanned rest,
            segments = scanned ++ rest ->
            Forall answered (candidates (initial_locals first) scanned)).
  { intros scanned. induction scanned as [|s scanned IH] using rev_ind;
      intros rest Hsplit; [constructor|].
    rewrite <- app_assoc in Hsplit. cbn [app] in Hsplit.
    rewrite candidates_app. apply Forall_app. split; [apply (IH _ Hsplit)|].
    cbn [candidates]. constructor; [|constructor].
    fold (state_at first scanned).
    destruct (state_suffix counts max_tokens_per_chunk first scanned)
      as [before Hbefore].
    pose proof (state_at_consistent counts max_tokens_per_chunk first scanned) as Hc.
    destruct (accumulated_shape counts max_tokens_per_chunk first scanned)
      as [Hshape | Hshape]; cbv zeta in Hshape.
    all: destruct (chunk_segments (state_at first scanned)) as [|x cs] eqn:Ecs.
    - rewrite (Hc Ecs).
      apply (Hruns scanned [s] rest SPACE); [exact Hsplit | discriminate | auto].
    - rewrite Hshape. unfold texts. cbn [map].
      rewrite <- join_snoc.
      change (seg_text x :: map seg_text cs) with (map seg_text (x :: cs)).
      replace (map seg_text (x :: cs) ++ [seg_text s])
        with (texts ((x :: cs) ++ [s])) by (unfold texts; now rewrite map_app).
      apply (Hruns before ((x :: cs) ++ [s]) rest []); [|discriminate | auto].
      rewrite Hsplit, Hbefore. now rewrite <- !app_assoc.
    - rewrite (Hc Ecs).
      apply (Hruns scanned [s] rest SPACE); [exact Hsplit | discriminate | auto].
    - rewrite Hshape. unfold texts. cbn [map]. rewrite <- app_assoc.
      rewrite <- join_snoc.
      change (seg_text x :: map seg_text cs) with (map seg_text (x :: cs)).
      replace (map seg_text (x :: cs) ++ [seg_text s])
        with (texts ((x :: cs) ++ [s])) by (unfold texts; now rewrite map_app).
      apply (Hruns before ((x :: cs) ++ [s]) rest SPACE); [|discriminate | auto].
      rewrite Hsplit, Hbefore. now rewrite <- !app_assoc. }
  apply (H segments []). now rewrite app_nil_r.
Qed.

Lemma returns_on_runs_prefix (pre rest : list segment) :
  returns_on_runs estimate (pre ++ rest) -> returns_on_runs estimate pre.
Proof.
  intros H before run after lead Hsplit Hne Hlead.
  apply (H before run (after ++ rest)); auto.
  rewrite Hsplit. now rewrite <- !app_assoc.
Qed.

Lemma raising_run_on_runs (segments : list segment) :
  returns_on_runs estimate segments ->
  Raising.chunk_transcript_segments estimate segments max_tokens_per_chunk
  = (chunk_transcript_segments counts segments max_tokens_per_chunk, inr tt).
Proof.
  intros Hruns. apply raising_run.
  destruct segments as [|first rest]; [constructor|].
  now apply candidates_are_runs.
Qed.

End RaisingFacts.



(** X5 (no surrounding whitespace).  The text of a chunk never begins and
    never ends with a whitespace character. *)
Theorem chunk_text_has_no_surrounding_whitespace
    (estimate : str -> Z) (max_tokens_per_chunk : Z)
    (segments : list segment) (c : chunk) :
  In c (chunk_transcript_segments estimate segments max_tokens_per_chunk) ->
  (forall a r, text c = a :: r -> isspace a = false)
  /\ (forall r z, text c = r ++ [z] -> isspace z = false).
Proof.
  intros Hin. unfold chunk_transcript_segments in Hin.
  apply in_map_iff in Hin. destruct Hin as (e & <- & He).
  destruct (run_emission _ _ _ _ He) as (first & rest & k & _ & _ & -> & _).
  simpl. split.
  - intros a r H. exact (strip_head _ _ _ H).
  - intros r z H. exact (strip_last _ _ _ H).
Qed.

Lemma chunk_text_has_no_surrounding_whitespace_witness :
  let c := {| text := py "ab cd";
              start_time := PyFloat.f64 0 0; end_time := PyFloat.f64 2 0 |} in
  (forall a r, text c = a :: r -> isspace a = false)
  /\ (forall r z, text c = r ++ [z] -> isspace z = false).
Proof.
  intros c.
  apply (chunk_text_has_no_surrounding_whitespace Tests.mock_return_5 1000
           [Samples.seg_ab; Samples.seg_cd] c).
  left. reflexivity.
Defined.

(** X6 (chunks in time order).  When the segment texts are non-empty and
    the segment starts are non-decreasing, so are the chunk starts: of two
    consecutive chunks, the first starts no later than the second. *)
Theorem chunk_starts_are_nondecreasing
    (estimate : str -> Z) (max_tokens_per_chunk : Z) (segments : list segment)
    (cs1 cs2 : list chunk) (c1 c2 : chunk) :
  Forall well_formed segments ->
  starts_nondecreasing segments ->
  chunk_transcript_segments estimate segments max_tokens_per_chunk
  = cs1 ++ c1 :: c2 :: cs2 ->
  PyFloat.le (start_time c1) (start_time c2) = true.
Proof.
  intros Hwf Hnd Hc. unfold chunk_transcript_segments in Hc.
  apply map_eq_app in Hc. destruct Hc as (tr1 & tr' & Hy & _ & Hc).
  apply map_eq_cons in Hc. destruct Hc as (e1 & tr'' & -> & <- & Hc).
  apply map_eq_cons in Hc. destruct Hc as (e2 & tr2 & -> & <- & _).
  assert (H1 : In e1 (yielded (chunk_run estimate max_tokens_per_chunk segments))).
  { rewrite Hy. apply in_or_app. right. now left. }
  assert (H2 : In e2 (yielded (chunk_run estimate max_tokens_per_chunk segments))).
  { rewrite Hy. apply in_or_app. right. right. now left. }
  destruct (emission_start _ _ _ _ H1) as (x & xs & Hx & ->).
  destruct (emission_start _ _ _ _ H2) as (y & ys & Hy2 & ->).
  pose proof (run_coverage estimate max_tokens_per_chunk segments Hwf) as Hcov.
  rewrite Hy in Hcov. rewrite map_app, concat_app in Hcov. simpl in Hcov.
  rewrite Hx, Hy2 in Hcov. rewrite <- Hcov in Hnd.
  apply nondecreasing_app_r in Hnd.
  apply (nondecreasing_head_le _ x y Hnd).
  apply in_or_app. right. now left.
Qed.

Lemma chunk_starts_are_nondecreasing_witness :
  PyFloat.le (start_time (chunk_of_segment Samples.seg_ab))
    (start_time (chunk_of_segment Samples.seg_cd)) = true.
Proof.
  apply (chunk_starts_are_nondecreasing Tests.mock_return_5 4
           [Samples.seg_ab; Samples.seg_cd] [] []
           (chunk_of_segment Samples.seg_ab) (chunk_of_segment Samples.seg_cd)).
  - repeat constructor; discriminate.
  - intros [|[|i]] a b Ha Hb; simpl in *; try discriminate.
    injection Ha as <-. injection Hb as <-. reflexivity.
  - reflexivity.
Defined.

Lemma exists_last_or_nil {A} (l : list A) :
  l = [] \/ exists l' x, l = l' ++ [x].
Proof.
  destruct l as [|a l]; [now left | right].
  destruct (exists_last (l := a :: l)) as (l' & x & E); [discriminate|].
  eauto.
Qed.

(** X7 (chunks already yielded are final).  All the chunks of an input but
    the last one are also the first chunks of any longer input that begins
    with it: reading more segments never changes a chunk that was closed. *)
Theorem closed_chunks_are_final
    (estimate : str -> Z) (max_tokens_per_chunk : Z)
    (segments more : list segment) :
  exists rest,
    chunk_transcript_segments estimate (segments ++ more) max_tokens_per_chunk
    = removelast (chunk_transcript_segments estimate segments max_tokens_per_chunk)
      ++ rest.
Proof.
  destruct segments as [|first rest].
  - simpl. eexists. reflexivity.
  - unfold chunk_transcript_segments.
    change ((first :: rest) ++ more) with (first :: (rest ++ more)).
    rewrite !chunk_run_closed. unfold yielded. cbn [fst].
    change (first :: (rest ++ more)) with ((first :: rest) ++ more).
    unfold trace_at, state_at. rewrite steps_app. cbn [fst snd].
    set (T := fst (steps estimate max_tokens_per_chunk (initial_locals first)
                     (first :: rest))).
    set (l := snd (steps estimate max_tokens_per_chunk (initial_locals first)
                     (first :: rest))).
    rewrite removelast_map.
    unfold flush at 2. destruct (truthy (current_chunk_text l)).
    + rewrite removelast_last. rewrite <- app_assoc, map_app.
      eexists. reflexivity.
    + rewrite app_nil_r.
      destruct (exists_last_or_nil T) as [-> | (T' & e & ->)].
      * simpl. eexists. reflexivity.
      * rewrite removelast_last. rewrite <- !app_assoc, map_app.
        eexists. reflexivity.
Qed.

(* ================================================================== *)
(** * [get_token_limit] *)

Lemma str_eqb_eq (a b : str) : str_eqb a b = true <-> a = b.
Proof.
  revert b. induction a as [|x a IH]; destruct b as [|y b]; simpl;
    try (split; congruence).
  rewrite andb_true_iff, N.eqb_eq, IH. split.
  - intros [-> ->]; reflexivity.
  - intros H; injection H; auto.
Qed.

Lemma str_eqb_refl (a : str) : str_eqb a a = true.
Proof. now apply str_eqb_eq. Qed.

Lemma str_eqb_neq (a b : str) : str_eqb a b = false <-> a <> b.
Proof.
  destruct (str_eqb a b) eqn:E.
  - apply str_eqb_eq in E. split; [discriminate | congruence].
  - split; [|reflexivity]. intros _ H. apply str_eqb_eq in H. congruence.
Qed.

(** X8 (token limits).  [get_token_limit] answers for every model name: 4096
    for a name that is not a key of [TOKEN_LIMITS] and only for such a name,
    the listed limit otherwise; so the limit is never below 4096, and the
    budget of 3000 tokens the application chunks with is below the limit of
    every model. *)
Theorem token_limit_is_at_least_the_fallback (model : str) :
  (get_token_limit model = 4096 <-> ~ In model (keys TOKEN_LIMITS))
  /\ (In model (keys TOKEN_LIMITS) ->
      In (model, get_token_limit model) TOKEN_LIMITS)
  /\ 4096 <= get_token_limit model
  /\ APP_CHUNK_BUDGET < get_token_limit model.
Proof.
  unfold get_token_limit, TOKEN_LIMITS, keys, APP_CHUNK_BUDGET.
  cbn [dict_get map fst In].
  destruct (str_eqb (py "gpt-4o-mini") model) eqn:E1;
    [apply str_eqb_eq in E1 | apply str_eqb_neq in E1].
  { repeat split; try lia; try discriminate; intros;
      try (exfalso; tauto); subst model; auto 6. }
  destruct (str_eqb (py "gpt-4-turbo") model) eqn:E2;
    [apply str_eqb_eq in E2 | apply str_eqb_neq in E2].
  { repeat split; try lia; try discriminate; intros;
      try (exfalso; tauto); subst model; auto 6. }
  destruct (str_eqb (py "gpt-3.5-turbo") model) eqn:E3;
    [apply str_eqb_eq in E3 | apply str_eqb_neq in E3].
  { repeat split; try lia; try discriminate; intros;
      try (exfalso; tauto); subst model; auto 6. }
  repeat split; try lia.
  - intros _ [H | [H | [H | []]]]; congruence.
  - intros [H | [H | [H | []]]]; congruence.
Qed.

(* ================================================================== *)
(** * More on [format_timestamp] *)

(** X9 (when it raises).  On a float, and on an int whose hour count has no
    more digits than CPython converts (every int below [3600 * 10^4300]),
    [format_timestamp] raises for two arguments only: [ValueError] for a NaN
    and [OverflowError] for the positive infinity, both from [int()].  Every
    other such argument, the negative infinity included, gets a string. *)
Theorem format_timestamp_raises_only_on_nan_and_inf (x : number) (e : exn) :
  within_int_max_str_digits x ->
  format_timestamp x = inl e
  <-> (x = PyFloat S754_nan /\ e = ValueError)
      \/ (x = PyFloat (S754_infinity false) /\ e = OverflowError).
Proof.
  intros _. split.
  - unfold format_timestamp.
    destruct (lt_zero x) eqn:Hlt; [discriminate|].
    destruct x as [z | [s|s| |s m ex]]; cbn [int].
    + unfold divmod. destruct (_ >? 0); discriminate.
    + unfold divmod. destruct (_ >? 0); discriminate.
    + destruct s; [discriminate|]. intros H. injection H as <-. auto.
    + intros H. injection H as <-. auto.
    + unfold divmod. destruct (_ >? 0); discriminate.
  - intros [[-> ->] | [-> ->]]; reflexivity.
Qed.

Lemma format_timestamp_raises_only_on_nan_and_inf_witness :
  format_timestamp (PyInt 3661) = inl ValueError
  <-> (PyInt 3661 = PyFloat S754_nan /\ ValueError = ValueError)
      \/ (PyInt 3661 = PyFloat (S754_infinity false)
          /\ ValueError = OverflowError).
Proof.
  apply (format_timestamp_raises_only_on_nan_and_inf (PyInt 3661) ValueError).
  reflexivity.
Defined.

Lemma app_inj_length_tail {A} (l1 l2 t1 t2 : list A) :
  List.length t1 = List.length t2 -> l1 ++ t1 = l2 ++ t2 -> l1 = l2 /\ t1 = t2.
Proof.
  intros Hlen H.
  assert (Hl : List.length l1 = List.length l2).
  { apply (f_equal (@List.length A)) in H. rewrite !length_app in H. lia. }
  revert l2 Hl H. induction l1 as [|x l1 IH]; intros [|y l2] Hl H;
    simpl in *; try discriminate; auto.
  injection H as -> H. destruct (IH l2 ltac:(lia) H) as [-> ->]. auto.
Qed.

Lemma pair_list_inj {A} (a b c d : A) : [a; b] = [c; d] -> a = c /\ b = d.
Proof. intros H. split; congruence. Qed.

Lemma inr_inj {A B} (x y : B) : @inr A B x = inr y -> x = y.
Proof. congruence. Qed.

Lemma two_digits_inj (a b : Z) :
  0 <= a < 100 -> 0 <= b < 100 -> two_digits a = two_digits b -> a = b.
Proof.
  intros Ha Hb H. unfold two_digits in H. apply pair_list_inj in H.
  destruct H as [H1 H2].
  assert (Ha1 : 0 <= a / 10) by (apply Z.div_pos; lia).
  assert (Hb1 : 0 <= b / 10) by (apply Z.div_pos; lia).
  pose proof (Z.mod_pos_bound a 10 ltac:(lia)).
  pose proof (Z.mod_pos_bound b 10 ltac:(lia)).
  apply N.add_cancel_l in H1. apply N.add_cancel_l in H2.
  apply Z2N.inj in H1; try lia. apply Z2N.inj in H2; try lia.
  rewrite (Z.div_mod a 10), (Z.div_mod b 10) by lia. now rewrite H1, H2.
Qed.

(** Minutes and seconds read off the end of a timestamp. *)
Lemma minutes_seconds_inj (h1 h2 : str) (m1 s1 m2 s2 : Z) :
  0 <= m1 < 60 -> 0 <= s1 < 60 -> 0 <= m2 < 60 -> 0 <= s2 < 60 ->
  h1 ++ two_digits m1 ++ py ":" ++ two_digits s1
  = h2 ++ two_digits m2 ++ py ":" ++ two_digits s2 ->
  h1 = h2 /\ m1 = m2 /\ s1 = s2.
Proof.
  intros Hm1 Hs1 Hm2 Hs2 H.
  apply app_inj_length_tail in H; [|reflexivity]. destruct H as [Hh H].
  apply (app_inj_length_tail (two_digits m1) (two_digits m2)) in H;
    [|reflexivity].
  destruct H as [Hm H]. apply app_inv_head in H.
  repeat split; auto; apply two_digits_inj; auto; lia.
Qed.

Lemma unpy_app (a b : str) : unpy (a ++ b) = (unpy a ++ unpy b)%string.
Proof.
  unfold unpy. induction a as [|c a IH]; simpl; [reflexivity|]. now rewrite IH.
Qed.

Lemma unpy_py (s : string) : unpy (py s) = s.
Proof.
  unfold unpy, py. rewrite map_map.
  rewrite (map_ext _ (fun a => a)) by (intros a; apply ascii_N_embedding).
  rewrite map_id. apply string_of_list_ascii_of_string.
Qed.

Lemma parse_nat_zero (s : str) : parse_nat (48%N :: s) = parse_nat s.
Proof.
  unfold parse_nat, unpy. simpl.
  destruct (NilEmpty.uint_of_string _); reflexivity.
Qed.

Lemma parse_nat_zfill (w : nat) (s : str) : parse_nat (zfill w s) = parse_nat s.
Proof.
  unfold zfill. induction (w - List.length s)%nat as [|k IH]; simpl; [reflexivity|].
  now rewrite parse_nat_zero.
Qed.

Lemma parse_nat_decimal (n : N) : parse_nat (decimal n) = Some n.
Proof.
  unfold parse_nat, decimal. rewrite unpy_py. unfold NilZero.string_of_uint.
  assert (Hnn : N.to_uint n <> Decimal.Nil).
  { destruct n; simpl; [discriminate | apply DecimalPos.Unsigned.to_uint_nonnil]. }
  destruct (N.to_uint n) eqn:E; try congruence;
    rewrite <- E, NilEmpty.usu; simpl; now rewrite DecimalN.Unsigned.of_to.
Qed.

Lemma parse_nat_format_02d (h : Z) :
  0 <= h -> parse_nat (format_02d h) = Some (Z.to_N h).
Proof.
  intros Hh. unfold format_02d. destruct (Z.ltb_spec h 0); [lia|].
  now rewrite parse_nat_zfill, parse_nat_decimal.
Qed.

Lemma format_02d_inj (a b : Z) :
  0 <= a -> 0 <= b -> format_02d a = format_02d b -> a = b.
Proof.
  intros Ha Hb H. apply (f_equal parse_nat) in H.
  rewrite !parse_nat_format_02d in H by assumption.
  injection H as H. lia.
Qed.


(** X10 (the timestamp tells the second).  Two non-negative arguments with
    different integer parts never get the same timestamp. *)
Theorem format_timestamp_is_injective_on_seconds (x y : number) (a b : Z) :
  lt_zero x = false -> int x = inr a ->
  lt_zero y = false -> int y = inr b ->
  format_timestamp x = format_timestamp y ->
  a = b.
Proof.
  intros Hx Hax Hy Hby H.
  pose proof (int_nonnegative x a Hx Hax) as Ha.
  pose proof (int_nonnegative y b Hy Hby) as Hb.
  rewrite (format_timestamp_of_int x a Hx Hax) in H.
  rewrite (format_timestamp_of_int y b Hy Hby) in H.
  pose proof (Z.mod_pos_bound a 60 ltac:(lia)) as Hsa.
  pose proof (Z.mod_pos_bound b 60 ltac:(lia)) as Hsb.
  pose proof (Z.mod_pos_bound (a / 60) 60 ltac:(lia)) as Hma.
  pose proof (Z.mod_pos_bound (b / 60) 60 ltac:(lia)) as Hmb.
  assert (Hha : 0 <= a / 3600) by (apply Z.div_pos; lia).
  assert (Hhb : 0 <= b / 3600) by (apply Z.div_pos; lia).
  rewrite (format_02d_two_digits ((a / 60) mod 60)) in H by lia.
  rewrite (format_02d_two_digits (a mod 60)) in H by lia.
  rewrite (format_02d_two_digits ((b / 60) mod 60)) in H by lia.
  rewrite (format_02d_two_digits (b mod 60)) in H by lia.
  assert (Hrec : forall t, 0 <= t ->
            t = 3600 * (t / 3600) + 60 * ((t / 60) mod 60) + t mod 60).
  { intros t Ht. change 3600 with (60 * 60) at 2.
    rewrite <- (Z.div_div t 60 60) by lia.
    pose proof (Z.div_mod t 60 ltac:(lia)).
    pose proof (Z.div_mod (t / 60) 60 ltac:(lia)). lia. }
  assert (Hlen : forall h, 0 <= h -> (2 <= List.length (format_02d h))%nat)
    by (intros; now apply format_02d_length).
  destruct (Z.gtb_spec (a / 3600) 0) as [Hga | Hga];
    destruct (Z.gtb_spec (b / 3600) 0) as [Hgb | Hgb];
    apply inr_inj in H.
  - (* both from one hour on *)
    rewrite !(app_assoc (format_02d _) (py ":")) in H.
    apply minutes_seconds_inj in H; try lia.
    destruct H as (Hh & Em & Es). apply app_inj_tail in Hh.
    destruct Hh as [Hh _]. apply format_02d_inj in Hh; try lia.
    rewrite (Hrec a Ha), (Hrec b Hb). lia.
  - (* lengths differ *)
    apply (f_equal (@List.length N)) in H. rewrite length_app in H.
    cbn in H. specialize (Hlen (a / 3600) Hha). lia.
  - apply (f_equal (@List.length N)) in H. rewrite !length_app in H.
    cbn in H. specialize (Hlen (b / 3600) Hhb). lia.
  - (* both below one hour *)
    apply (minutes_seconds_inj [] []) in H; try lia.
    destruct H as (_ & Em & Es).
    rewrite (Hrec a Ha), (Hrec b Hb). lia.
Qed.

Lemma format_timestamp_is_injective_on_seconds_witness :
  150 = 150.
Proof.
  apply (format_timestamp_is_injective_on_seconds
           (PyInt 150) (PyFloat (PyFloat.f64 301 (-1))) 150 150);
    reflexivity.
Defined.

(* ================================================================== *)
(** * [summarize.py] *)

Import Summarize.

(** ** Dicts *)

Lemma dict_get_set_same {V} (d : list (str * V)) (k : str) (v : V) :
  dict_get (dict_set d k v) k = Some v.
Proof.
  induction d as [|[k' v'] d IH]; simpl.
  - now rewrite str_eqb_refl.
  - destruct (str_eqb k' k) eqn:E; simpl; rewrite E; auto.
Qed.

Lemma dict_get_set_other {V} (d : list (str * V)) (k k' : str) (v : V) :
  k <> k' -> dict_get (dict_set d k v) k' = dict_get d k'.
Proof.
  intros Hne. induction d as [|[k0 v0] d IH]; simpl.
  - apply str_eqb_neq in Hne. now rewrite Hne.
  - destruct (str_eqb k0 k) eqn:E; simpl.
    + apply str_eqb_eq in E. subst k0.
      apply str_eqb_neq in Hne. now rewrite Hne.
    + destruct (str_eqb k0 k'); auto.
Qed.

Lemma dict_get_keys {V} (d : list (str * V)) (k : str) :
  In k (keys d) <-> exists v, dict_get d k = Some v.
Proof.
  unfold keys. induction d as [|[k' v'] d IH]; simpl.
  - split; [contradiction | intros [v H]; discriminate].
  - destruct (str_eqb k' k) eqn:E.
    + apply str_eqb_eq in E. split; eauto.
    + apply str_eqb_neq in E. rewrite <- IH. split; [|auto].
      intros [H | H]; [congruence | exact H].
Qed.

Lemma keys_dict_set_present {V} (d : list (str * V)) (k : str) (v : V) :
  In k (keys d) -> keys (dict_set d k v) = keys d.
Proof.
  unfold keys. induction d as [|[k' v'] d IH]; simpl; [contradiction|].
  intros H. destruct (str_eqb k' k) eqn:E; [reflexivity|].
  apply str_eqb_neq in E. simpl. rewrite IH; [reflexivity|].
  destruct H as [H | H]; [congruence | exact H].
Qed.

Lemma keys_dict_set_absent {V} (d : list (str * V)) (k : str) (v : V) :
  ~ In k (keys d) -> keys (dict_set d k v) = keys d ++ [k].
Proof.
  unfold keys. induction d as [|[k' v'] d IH]; simpl; [reflexivity|].
  intros H. destruct (str_eqb k' k) eqn:E.
  - apply str_eqb_eq in E. exfalso. auto.
  - simpl. rewrite IH; [reflexivity|]. auto.
Qed.

Lemma str_in_dec (k : str) (l : list str) : {In k l} + {~ In k l}.
Proof. apply in_dec, list_eq_dec, N.eq_dec. Qed.

(** ** The dict comprehension *)

Lemma empty_content_acc (content_types : list str) (d : list (str * list json)) :
  NoDup (keys d) -> Forall (fun kv => snd kv = []) d ->
  let d' := fold_left (fun d ctype => dict_set d ctype []) content_types d in
  NoDup (keys d')
  /\ Forall (fun kv => snd kv = []) d'
  /\ (forall k, In k (keys d') <-> In k (keys d) \/ In k content_types).
Proof.
  revert d. induction content_types as [|ct rest IH]; intros d Hnd Hall; simpl.
  - repeat split; auto. intros [H | []]; exact H.
  - destruct (str_in_dec ct (keys d)) as [Hin | Hnin].
    + assert (Hk : keys (dict_set d ct ([] : list json)) = keys d)
        by now apply keys_dict_set_present.
      assert (Hall' : Forall (fun kv => snd kv = []) (dict_set d ct ([] : list json))).
      { clear -Hall. induction d as [|[k v] d IHd]; simpl.
        - repeat constructor.
        - inversion Hall; subst. destruct (str_eqb k ct); constructor; auto. }
      destruct (IH (dict_set d ct []) ltac:(now rewrite Hk) Hall') as (H1 & H2 & H3).
      repeat split; auto.
      * intros H. apply H3 in H. rewrite Hk in H. tauto.
      * intros H. apply H3. rewrite Hk. destruct H as [H | [<- | H]]; tauto.
    + assert (Hk : keys (dict_set d ct ([] : list json)) = keys d ++ [ct])
        by now apply keys_dict_set_absent.
      assert (Hall' : Forall (fun kv => snd kv = []) (dict_set d ct ([] : list json))).
      { clear -Hall. induction d as [|[k v] d IHd]; simpl.
        - repeat constructor.
        - inversion Hall; subst. destruct (str_eqb k ct); constructor; auto. }
      assert (Hnd' : NoDup (keys (dict_set d ct ([] : list json)))).
      { rewrite Hk. apply NoDup_app; [exact Hnd | repeat constructor; auto | ].
        intros x Hx [<- | []]. contradiction. }
      destruct (IH (dict_set d ct []) Hnd' Hall') as (H1 & H2 & H3).
      repeat split; auto.
      * intros H. apply H3 in H. rewrite Hk in H.
        destruct H as [H | H]; [|tauto].
        apply in_app_or in H. destruct H as [H | [<- | []]]; tauto.
      * intros H. apply H3. rewrite Hk.
        destruct H as [H | [<- | H]]; [left | left | right]; auto;
          apply in_or_app; [left | right]; simpl; auto.
Qed.

Lemma empty_content_spec (content_types : list str) :
  NoDup (keys (empty_content content_types))
  /\ Forall (fun kv => snd kv = []) (empty_content content_types)
  /\ (forall k, In k (keys (empty_content content_types)) <-> In k content_types).
Proof.
  destruct (empty_content_acc content_types [] (NoDup_nil _) (Forall_nil _))
    as (H1 & H2 & H3).
  repeat split; auto.
  - intros H. apply H3 in H. destruct H as [[] | H]; exact H.
  - intros H. apply H3. now right.
Qed.

(** ** One request *)

Lemma truthy_app_l (a b : str) : truthy a = true -> truthy (a ++ b) = true.
Proof. destruct a; [discriminate | reflexivity]. Qed.

Lemma startswith_app (sub rest : str) : startswith (sub ++ rest) sub = true.
Proof.
  induction sub as [|c sub IH]; simpl; [destruct rest; reflexivity|].
  now rewrite N.eqb_refl, IH.
Qed.

Lemma contains_app (a sub b : str) : contains sub (a ++ sub ++ b) = true.
Proof.
  induction a as [|c a IH]; simpl.
  - destruct (sub ++ b) eqn:E; cbn [contains]; rewrite <- E, startswith_app;
      reflexivity.
  - rewrite IH. apply orb_true_r.
Qed.

Lemma times_format_notes_prompt (chunk : chunk) :
  times_format chunk ->
  exists a b,
    format_timestamp (PyFloat (start_time chunk)) = inr a
    /\ format_timestamp (PyFloat (end_time chunk)) = inr b
    /\ timestamp_of chunk = inr (a ++ py " - " ++ b)
    /\ get_notes_prompt (text chunk) (PyFloat (start_time chunk))
         (PyFloat (end_time chunk))
       = inr (render NOTES_HEAD ++ a ++ render NOTES_TO ++ b
              ++ render NOTES_BODY ++ text chunk ++ render NOTES_TAIL).
Proof.
  intros [stamp H]. unfold timestamp_of, get_notes_prompt in *.
  destruct (format_timestamp (PyFloat (start_time chunk))) as [e | a];
    [discriminate|].
  destruct (format_timestamp (PyFloat (end_time chunk))) as [e | b];
    [discriminate|].
  exists a, b. auto.
Qed.

Lemma valid_cases (content_type : str) :
  valid_content_type content_type ->
  (content_type = NOTES /\ str_eqb content_type NOTES = true)
  \/ (content_type = FLASHCARDS /\ str_eqb content_type NOTES = false
      /\ str_eqb content_type FLASHCARDS = true)
  \/ (content_type = QUIZ /\ str_eqb content_type NOTES = false
      /\ str_eqb content_type FLASHCARDS = false
      /\ str_eqb content_type QUIZ = true).
Proof.
  intros [-> | [-> | ->]]; [left | right; left | right; right]; repeat split.
Qed.

Lemma prompt_for_spec (chunk : chunk) (content_type : str) :
  times_format chunk -> valid_content_type content_type ->
  dict_get
    [ (NOTES, prompt_for chunk NOTES);
      (FLASHCARDS, get_flashcards_prompt (text chunk));
      (QUIZ, get_quiz_prompt (text chunk)) ] content_type
  = Some (prompt_for chunk content_type)
  /\ truthy (prompt_for chunk content_type) = true
  /\ contains (text chunk) (prompt_for chunk content_type) = true.
Proof.
  intros Ht Hv.
  destruct (times_format_notes_prompt chunk Ht) as (a & b & _ & _ & _ & Hp).
  destruct Hv as [-> | [-> | ->]]; unfold prompt_for.
  - rewrite Hp. cbn [dict_get]. rewrite !str_eqb_refl. repeat split.
    rewrite !app_assoc. rewrite <- (app_assoc _ (text chunk)).
    apply contains_app.
  - change (str_eqb FLASHCARDS NOTES) with false.
    cbn [dict_get]. change (str_eqb NOTES FLASHCARDS) with false.
    rewrite !str_eqb_refl. repeat split. apply contains_app.
  - change (str_eqb QUIZ NOTES) with false.
    change (str_eqb QUIZ FLASHCARDS) with false.
    cbn [dict_get]. change (str_eqb NOTES QUIZ) with false.
    change (str_eqb FLASHCARDS QUIZ) with false.
    rewrite !str_eqb_refl. repeat split. apply contains_app.
Qed.

(** [generate_content_for_chunk] for a content type that has a prompt. *)
Lemma generate_closed (c : client) (chunk : chunk) (content_type model : str) (n : nat) :
  times_format chunk -> valid_content_type content_type ->
  generate_content_for_chunk c chunk content_type model n
  = (ApiCall model (prompt_for chunk content_type)
     :: errors_of content_type (c n model (prompt_for chunk content_type)),
     S n,
     inr (result_of (c n model (prompt_for chunk content_type)))).
Proof.
  intros Ht Hv.
  destruct (prompt_for_spec chunk content_type Ht Hv) as (Hget & Htruthy & _).
  destruct (times_format_notes_prompt chunk Ht) as (a & b & _ & _ & _ & Hp).
  unfold generate_content_for_chunk. rewrite Hp.
  assert (Hn : prompt_for chunk NOTES
               = render NOTES_HEAD ++ a ++ render NOTES_TO ++ b
                 ++ render NOTES_BODY ++ text chunk ++ render NOTES_TAIL).
  { unfold prompt_for. rewrite str_eqb_refl. now rewrite Hp. }
  rewrite <- Hn. cbv zeta. rewrite Hget, Htruthy. cbn [negb].
  unfold bind, request.
  destruct (c n model (prompt_for chunk content_type)); reflexivity.
Qed.

(** ** One chunk and one content type *)

Lemma bind_closed {A B} (m : M A) (k : A -> M B) (n n1 n2 : nat)
    (ev ev' : list event) (a : A) (r : raised + B) :
  m n = (ev, n1, inr a) -> k a n1 = (ev', n2, r) ->
  bind m k n = (ev ++ ev', n2, r).
Proof. intros Hm Hk. unfold bind. now rewrite Hm, Hk. Qed.

Lemma bind_raised {A B} (m : M A) (k : A -> M B) (n n1 : nat)
    (ev : list event) (e : raised) :
  m n = (ev, n1, inl e) -> bind m k n = (ev, n1, inl e).
Proof. intros Hm. unfold bind. now rewrite Hm. Qed.

Lemma extend_list_closed (g : list (str * list json)) (key : str)
    (xs : list json) (n : nat) :
  In key (keys g) ->
  extend_list g key xs n = ([], n, inr (dict_set g key (get_list g key ++ xs))).
Proof.
  intros H. apply dict_get_keys in H. destruct H as [old H].
  unfold extend_list, get_list. now rewrite H.
Qed.

Lemma generate_into_closed (c : client) (chunk : chunk)
    (g : list (str * list json)) (content_type : str) (n : nat) :
  answers_objects c -> times_format chunk ->
  valid_content_type content_type -> In content_type (keys g) ->
  generate_into c chunk g content_type n
  = (ApiCall DEFAULT_MODEL (prompt_for chunk content_type)
     :: errors_of content_type (c n DEFAULT_MODEL (prompt_for chunk content_type)),
     S n,
     inr (absorb chunk g content_type
            (c n DEFAULT_MODEL (prompt_for chunk content_type)))).
Proof.
  intros Hobj Ht Hv Hkey. unfold generate_into.
  pose proof (generate_closed c chunk content_type DEFAULT_MODEL n Ht Hv) as Hgen.
  specialize (Hobj n DEFAULT_MODEL (prompt_for chunk content_type)).
  set (r := c n DEFAULT_MODEL (prompt_for chunk content_type)) in *.
  rewrite <- (app_nil_r (ApiCall _ _ :: errors_of content_type r)).
  eapply bind_closed; [exact Hgen|]. clearbody r.
  destruct r as [j | message]; [|reflexivity].
  destruct j as [ | | | | | | fields]; try contradiction.
  destruct fields as [|f fs]; [reflexivity|].
  cbn [result_of truthy_json absorb].
  destruct (times_format_notes_prompt chunk Ht) as (a & b & _ & _ & Hstamp & _).
  destruct (valid_cases content_type Hv)
    as [[-> E1] | [[-> (E1 & E2)] | [-> (E1 & E2 & E3)]]].
  - rewrite E1. unfold stamp_of. rewrite Hstamp.
    change (@nil event) with (@nil event ++ []).
    eapply bind_closed; [reflexivity|].
    now apply extend_list_closed.
  - rewrite E1, E2. cbn [orb].
    change (@nil event) with (@nil event ++ []).
    eapply bind_closed; [reflexivity|].
    destruct (dict_get (f :: fs) FLASHCARDS) as [v|] eqn:Eg; [|reflexivity].
    change (@nil event) with (@nil event ++ []).
    eapply bind_closed; [unfold get_item; rewrite Eg; reflexivity|].
    destruct v; try reflexivity. now apply extend_list_closed.
  - rewrite E1, E2, E3. cbn [orb].
    change (@nil event) with (@nil event ++ []).
    eapply bind_closed; [reflexivity|].
    destruct (dict_get (f :: fs) QUIZ) as [v|] eqn:Eg; [|reflexivity].
    change (@nil event) with (@nil event ++ []).
    eapply bind_closed; [unfold get_item; rewrite Eg; reflexivity|].
    destruct v; try reflexivity. now apply extend_list_closed.
Qed.

Lemma absorb_keys (chunk : chunk) (g : list (str * list json))
    (content_type : str) (r : api_result) :
  valid_content_type content_type -> In content_type (keys g) ->
  keys (absorb chunk g content_type r) = keys g.
Proof.
  intros Hv Hkey. unfold absorb.
  destruct r as [j | m]; [|reflexivity].
  destruct j as [ | | | | | | fields]; try reflexivity.
  destruct fields as [|f fs]; [reflexivity|].
  destruct (str_eqb content_type NOTES) eqn:E.
  - apply str_eqb_eq in E. subst. now apply keys_dict_set_present.
  - destruct (dict_get (f :: fs) content_type) as [[ | | | | | items | ]|];
      try reflexivity.
    now apply keys_dict_set_present.
Qed.

(** ** The loops *)

Lemma for_content_types_closed (c : client) (chunk : chunk)
    (content_types : list str) :
  answers_objects c -> times_format chunk ->
  Forall valid_content_type content_types ->
  forall (g : list (str * list json)) (n : nat),
    incl content_types (keys g) ->
    for_content_types c chunk content_types g n
    = (fst (run_types c chunk content_types g n),
       (n + List.length content_types)%nat,
       inr (snd (run_types c chunk content_types g n)))
    /\ keys (snd (run_types c chunk content_types g n)) = keys g.
Proof.
  intros Hobj Ht Hv. induction Hv as [|ct rest Hct Hrest IH]; intros g n Hincl.
  - simpl. rewrite Nat.add_0_r. auto.
  - assert (Hkey : In ct (keys g)) by (apply Hincl; now left).
    pose proof (absorb_keys chunk g ct
                  (c n DEFAULT_MODEL (prompt_for chunk ct)) Hct Hkey) as Hk.
    destruct (IH (absorb chunk g ct (c n DEFAULT_MODEL (prompt_for chunk ct)))
                (S n)) as [Hrun Hkeys].
    { rewrite Hk. intros x Hx. apply Hincl. now right. }
    cbn [for_content_types run_types].
    destruct (run_types c chunk rest
                (absorb chunk g ct (c n DEFAULT_MODEL (prompt_for chunk ct)))
                (S n)) as [ev g'] eqn:Er.
    cbn [fst snd] in *. split; [|congruence].
    replace (n + List.length (ct :: rest))%nat
      with (S n + List.length rest)%nat by (simpl; lia).
    change (ApiCall DEFAULT_MODEL (prompt_for chunk ct)
            :: errors_of ct (c n DEFAULT_MODEL (prompt_for chunk ct)) ++ ev)
      with ((ApiCall DEFAULT_MODEL (prompt_for chunk ct)
             :: errors_of ct (c n DEFAULT_MODEL (prompt_for chunk ct))) ++ ev).
    eapply bind_closed; [|exact Hrun].
    now apply generate_into_closed.
Qed.

Lemma for_chunks_closed (c : client) (content_types : list str) (total : nat)
    (chunks : list chunk) :
  answers_objects c -> Forall valid_content_type content_types ->
  Forall times_format chunks ->
  forall (i : nat) (g : list (str * list json)) (n : nat),
    incl content_types (keys g) ->
    for_chunks c content_types total i chunks g n
    = (fst (run_chunks c content_types total i chunks g n),
       (n + List.length chunks * List.length content_types)%nat,
       inr (snd (run_chunks c content_types total i chunks g n)))
    /\ keys (snd (run_chunks c content_types total i chunks g n)) = keys g.
Proof.
  intros Hobj Hv Ht. induction Ht as [|chunk rest Hchunk Hrest IH];
    intros i g n Hincl.
  - simpl. rewrite Nat.add_0_r. auto.
  - destruct (for_content_types_closed c chunk content_types Hobj Hchunk Hv g n Hincl)
      as [Hrun Hkeys].
    cbn [for_chunks run_chunks].
    destruct (run_types c chunk content_types g n) as [ev1 g1] eqn:E1.
    cbn [fst snd] in *.
    destruct (IH (S i) g1 (n + List.length content_types)%nat) as [Hrun2 Hkeys2].
    { now rewrite Hkeys. }
    destruct (run_chunks c content_types total (S i) rest g1
                (n + List.length content_types)) as [ev2 g2] eqn:E2.
    cbn [fst snd] in *. split; [|congruence].
    replace (n + List.length (chunk :: rest) * List.length content_types)%nat
      with (n + List.length content_types
            + List.length rest * List.length content_types)%nat by (simpl; lia).
    eapply bind_closed; [exact Hrun|].
    change (Progress (i + 1) total :: ev2) with ([Progress (i + 1) total] ++ ev2).
    eapply bind_closed; [reflexivity | exact Hrun2].
Qed.

Lemma process_closed (c : client) (chunks : list chunk) (content_types : list str)
    (n : nat) :
  answers_objects c -> Forall valid_content_type content_types ->
  Forall times_format chunks ->
  let run := run_chunks c content_types (List.length chunks) 0 chunks
               (empty_content content_types) n in
  process_chunks_for_content c chunks content_types n
  = (ProgressStart :: fst run ++ [ProgressEmpty],
     (n + List.length chunks * List.length content_types)%nat,
     inr (snd run))
  /\ keys (snd run) = keys (empty_content content_types).
Proof.
  intros Hobj Hv Ht run.
  destruct (for_chunks_closed c content_types (List.length chunks) chunks
              Hobj Hv Ht 0 (empty_content content_types) n) as [Hrun Hkeys].
  { intros k Hk. now apply (proj2 (proj2 (empty_content_spec content_types))). }
  split; [|exact Hkeys].
  unfold process_chunks_for_content. cbv zeta.
  change (ProgressStart :: fst run ++ [ProgressEmpty])
    with ([ProgressStart] ++ fst run ++ [ProgressEmpty]).
  eapply bind_closed; [reflexivity|].
  eapply bind_closed; [exact Hrun|].
  change [ProgressEmpty] with ([ProgressEmpty] ++ []).
  eapply bind_closed; reflexivity.
Qed.

(** ** What the loops do to the events and to the content *)

Lemma flat_map_app_events {B} (f : event -> list B) (a b : list event) :
  flat_map f (a ++ b) = flat_map f a ++ flat_map f b.
Proof. apply flat_map_app. Qed.

Lemma errors_of_calls (ct : str) (r : api_result) : api_calls (errors_of ct r) = [].
Proof. destruct r; reflexivity. Qed.

Lemma errors_of_progress (ct : str) (r : api_result) :
  progress_updates (errors_of ct r) = [].
Proof. destruct r; reflexivity. Qed.

Lemma run_types_events (c : client) (chunk : chunk) (content_types : list str)
    (g : list (str * list json)) (n : nat) :
  List.length (api_calls (fst (run_types c chunk content_types g n)))
  = List.length content_types
  /\ Forall (fun mp => fst mp = DEFAULT_MODEL)
       (api_calls (fst (run_types c chunk content_types g n)))
  /\ progress_updates (fst (run_types c chunk content_types g n)) = [].
Proof.
  revert g n. induction content_types as [|ct rest IH]; intros g n.
  - simpl. repeat split; constructor.
  - cbn [run_types].
    destruct (IH (absorb chunk g ct (c n DEFAULT_MODEL (prompt_for chunk ct))) (S n))
      as (H1 & H2 & H3).
    destruct (run_types c chunk rest _ (S n)) as [ev g']. cbn [fst snd] in *.
    unfold api_calls, progress_updates in *. cbn [flat_map].
    rewrite !flat_map_app.
    fold (api_calls (errors_of ct (c n DEFAULT_MODEL (prompt_for chunk ct)))).
    fold (progress_updates (errors_of ct (c n DEFAULT_MODEL (prompt_for chunk ct)))).
    rewrite errors_of_calls, errors_of_progress. simpl.
    repeat split; auto.
Qed.

Lemma run_chunks_events (c : client) (content_types : list str) (total : nat)
    (chunks : list chunk) (i : nat) (g : list (str * list json)) (n : nat) :
  List.length (api_calls (fst (run_chunks c content_types total i chunks g n)))
  = (List.length chunks * List.length content_types)%nat
  /\ Forall (fun mp => fst mp = DEFAULT_MODEL)
       (api_calls (fst (run_chunks c content_types total i chunks g n)))
  /\ progress_updates (fst (run_chunks c content_types total i chunks g n))
     = map (fun k => (k, total)) (seq (i + 1) (List.length chunks)).
Proof.
  revert i g n. induction chunks as [|chunk rest IH]; intros i g n.
  - simpl. repeat split; constructor.
  - cbn [run_chunks].
    destruct (run_types_events c chunk content_types g n) as (H1 & H2 & H3).
    destruct (run_types c chunk content_types g n) as [ev1 g1]. cbn [fst snd] in *.
    destruct (IH (S i) g1 (n + List.length content_types)%nat) as (K1 & K2 & K3).
    destruct (run_chunks c content_types total (S i) rest g1 _) as [ev2 g2].
    cbn [fst snd] in *.
    unfold api_calls, progress_updates in *.
    rewrite !flat_map_app. cbn [flat_map app]. repeat split.
    + rewrite length_app, H1, K1. simpl. lia.
    + apply Forall_app. auto.
    + rewrite H3, K3. simpl. replace (S i + 1)%nat with (S (i + 1)) by lia.
      reflexivity.
Qed.

Lemma get_list_set_same (g : list (str * list json)) (k : str) (l : list json) :
  get_list (dict_set g k l) k = l.
Proof. unfold get_list. now rewrite dict_get_set_same. Qed.

Lemma get_list_set_other (g : list (str * list json)) (k k' : str) (l : list json) :
  k <> k' -> get_list (dict_set g k l) k' = get_list g k'.
Proof. intros H. unfold get_list. now rewrite dict_get_set_other. Qed.

Lemma absorb_notes (all : list chunk) (chunk : chunk) (g : list (str * list json))
    (content_type : str) (r : api_result) :
  In chunk all ->
  Forall (note_of all) (get_list g NOTES) ->
  Forall (note_of all) (get_list (absorb chunk g content_type r) NOTES)
  /\ (List.length (get_list (absorb chunk g content_type r) NOTES)
      <= List.length (get_list g NOTES)
         + (if is_notes content_type then 1 else 0))%nat.
Proof.
  intros Hin Hall. unfold absorb, is_notes.
  destruct r as [j | m]; [|split; [exact Hall | lia]].
  destruct j as [ | | | | | | fields]; try (split; [exact Hall | lia]).
  destruct fields as [|f fs]; [split; [exact Hall | lia]|].
  destruct (str_eqb content_type NOTES) eqn:E.
  - rewrite get_list_set_same. split.
    + apply Forall_app. split; [exact Hall|]. constructor; [|constructor].
      exists chunk, (dict_set (f :: fs) (py "timestamp") (JStr (stamp_of chunk))).
      repeat split; auto. apply dict_get_set_same.
    + rewrite length_app. simpl. lia.
  - apply str_eqb_neq in E.
    destruct (dict_get (f :: fs) content_type) as [[ | | | | | items | ]|];
      try (split; [exact Hall | lia]).
    rewrite get_list_set_other by exact E. split; [exact Hall | lia].
Qed.

Lemma run_types_notes (all : list chunk) (c : client) (chunk : chunk)
    (content_types : list str) (g : list (str * list json)) (n : nat) :
  In chunk all ->
  Forall (note_of all) (get_list g NOTES) ->
  Forall (note_of all) (get_list (snd (run_types c chunk content_types g n)) NOTES)
  /\ (List.length (get_list (snd (run_types c chunk content_types g n)) NOTES)
      <= List.length (get_list g NOTES)
         + List.length (filter is_notes content_types))%nat.
Proof.
  intros Hin. revert g n. induction content_types as [|ct rest IH]; intros g n Hall.
  - simpl. split; [exact Hall | lia].
  - cbn [run_types].
    destruct (absorb_notes all chunk g ct
                (c n DEFAULT_MODEL (prompt_for chunk ct)) Hin Hall) as [Ha Hl].
    destruct (IH (absorb chunk g ct (c n DEFAULT_MODEL (prompt_for chunk ct)))
                (S n) Ha) as [Hb Hl2].
    destruct (run_types c chunk rest _ (S n)) as [ev g']. cbn [fst snd] in *.
    split; [exact Hb|]. cbn [filter]. destruct (is_notes ct); simpl; lia.
Qed.

Lemma run_chunks_notes (all : list chunk) (c : client) (content_types : list str)
    (total : nat) (chunks : list chunk) (i : nat)
    (g : list (str * list json)) (n : nat) :
  incl chunks all ->
  Forall (note_of all) (get_list g NOTES) ->
  Forall (note_of all)
    (get_list (snd (run_chunks c content_types total i chunks g n)) NOTES)
  /\ (List.length
        (get_list (snd (run_chunks c content_types total i chunks g n)) NOTES)
      <= List.length (get_list g NOTES)
         + List.length chunks * List.length (filter is_notes content_types))%nat.
Proof.
  revert i g n. induction chunks as [|chunk rest IH]; intros i g n Hincl Hall.
  - simpl. split; [exact Hall | lia].
  - cbn [run_chunks].
    destruct (run_types_notes all c chunk content_types g n
                (Hincl chunk (or_introl eq_refl)) Hall) as [Ha Hl].
    destruct (run_types c chunk content_types g n) as [ev1 g1]. cbn [fst snd] in *.
    destruct (IH (S i) g1 (n + List.length content_types)%nat
                (fun x Hx => Hincl x (or_intror Hx)) Ha) as [Hb Hl2].
    destruct (run_chunks c content_types total (S i) rest g1 _) as [ev2 g2].
    cbn [fst snd] in *. split; [exact Hb|]. simpl. lia.
Qed.

Lemma empty_content_get_list (content_types : list str) (k : str) :
  get_list (empty_content content_types) k = [].
Proof.
  unfold get_list. destruct (dict_get (empty_content content_types) k) as [l|] eqn:E;
    [|reflexivity].
  destruct (empty_content_spec content_types) as (_ & Hall & _).
  rewrite Forall_forall in Hall.
  assert (Hin : In (k, l) (empty_content content_types)).
  { clear -E. induction (empty_content content_types) as [|[k' v'] d IH];
      simpl in *; [discriminate|].
    destruct (str_eqb k' k) eqn:Ek.
    - apply str_eqb_eq in Ek. injection E as ->. left. congruence.
    - right. auto. }
  exact (Hall _ Hin).
Qed.



(** ** Times that can be formatted *)

Lemma format_timestamp_float_ok (f : spec_float) :
  formattable f -> exists s, format_timestamp (PyFloat f) = inr s.
Proof.
  intros [Hnan Hinf]. unfold format_timestamp.
  destruct (lt_zero (PyFloat f)) eqn:Hlt; [eauto|].
  destruct f as [s|s| |s m e]; cbn [int].
  - unfold divmod. destruct (_ >? 0); eauto.
  - destruct s; [discriminate | congruence].
  - congruence.
  - unfold divmod. destruct (_ >? 0); eauto.
Qed.

Lemma formattable_times_format (chunk : chunk) :
  formattable (start_time chunk) -> formattable (end_time chunk) ->
  times_format chunk.
Proof.
  intros Hs He. destruct (format_timestamp_float_ok _ Hs) as [a Ha].
  destruct (format_timestamp_float_ok _ He) as [b Hb].
  unfold times_format, timestamp_of. rewrite Ha, Hb. eauto.
Qed.

(** The times of a chunk are times of segments of the input. *)
Lemma emission_times (estimate : str -> Z) (max_tokens_per_chunk : Z)
    (segments : list segment) (e : emission) :
  In e (yielded (chunk_run estimate max_tokens_per_chunk segments)) ->
  exists x y,
    In x segments /\ In y segments
    /\ start_time (emitted_chunk e) = seg_start x
    /\ end_time (emitted_chunk e) = seg_end y.
Proof.
  intros Hin.
  destruct (run_emission _ _ _ _ Hin) as (first & rest & k & Hseg & Hk & He & Hne).
  set (scanned := prefix_of k segments) in *.
  destruct (state_suffix estimate max_tokens_per_chunk first scanned) as [before Hb].
  assert (Hsub : forall z,
            In z (chunk_segments (state_at estimate max_tokens_per_chunk first scanned))
            -> In z segments).
  { intros z Hz. rewrite <- (firstn_skipn k segments). apply in_or_app. left.
    fold (prefix_of k segments). fold scanned. rewrite Hb.
    apply in_or_app. now right. }
  assert (Hhd : hd first scanned = first).
  { unfold scanned. rewrite Hseg. apply prefix_hd. }
  pose proof (state_start estimate max_tokens_per_chunk first scanned Hhd) as Hstart.
  destruct (chunk_segments (state_at estimate max_tokens_per_chunk first scanned))
    as [|x cs] eqn:Ecs; [congruence|].
  destruct (rev_nonempty (x :: cs)) as [y [ys Ey]]; [discriminate|].
  exists x, y. repeat split.
  - apply Hsub. now left.
  - apply Hsub. apply in_rev. rewrite Ey. now left.
  - rewrite He. simpl. exact Hstart.
  - rewrite He. unfold closing. simpl. fold scanned. now rewrite Ecs, Ey.
Qed.

(* ================================================================== *)
(** * [summarize.py]: properties *)

(** X11 (one request, failures absorbed).  For a content type among notes,
    flashcards and quiz and a chunk whose times can be formatted,
    [generate_content_for_chunk] never raises.  It makes exactly one
    request, with the model it was given and a prompt that contains the text
    of the chunk; it returns what the answer parses to, or, when anything
    in the request or the parsing raised, the empty dict after one
    [st.error] that names the content type. *)
Theorem generate_makes_one_request
    (c : client) (chunk : chunk) (content_type model : str) (n : nat) :
  times_format chunk -> valid_content_type content_type ->
  exists prompt,
    contains (text chunk) prompt = true
    /\ generate_content_for_chunk c chunk content_type model n
       = (ApiCall model prompt
          :: match c n model prompt with
             | Parsed _ => []
             | Failed message =>
                 [StError (py "Error generating " ++ content_type
                           ++ py " for a chunk: " ++ message)]
             end,
          S n,
          inr match c n model prompt with
              | Parsed j => j
              | Failed _ => JDict []
              end).
Proof.
  intros Ht Hv. exists (prompt_for chunk content_type). split.
  - apply (prompt_for_spec chunk content_type Ht Hv).
  - apply (generate_closed c chunk content_type model n Ht Hv).
Qed.

Lemma generate_makes_one_request_witness :
  exists prompt,
    contains (text Answers.chunk_ab) prompt = true
    /\ generate_content_for_chunk Answers.down Answers.chunk_ab QUIZ DEFAULT_MODEL 0%nat
       = (ApiCall DEFAULT_MODEL prompt
          :: match Answers.down 0%nat DEFAULT_MODEL prompt with
             | Parsed _ => []
             | Failed message =>
                 [StError (py "Error generating " ++ QUIZ
                           ++ py " for a chunk: " ++ message)]
             end,
          1%nat,
          inr match Answers.down 0%nat DEFAULT_MODEL prompt with
              | Parsed j => j
              | Failed _ => JDict []
              end).
Proof.
  apply (generate_makes_one_request Answers.down Answers.chunk_ab QUIZ
           DEFAULT_MODEL 0%nat).
  - eexists. reflexivity.
  - right. right. reflexivity.
Defined.

Lemma unknown_content_type_raises_aux
    (c : client) (chunk : chunk) (content_type model : str) (n : nat) :
  times_format chunk -> ~ valid_content_type content_type ->
  generate_content_for_chunk c chunk content_type model n
  = ([], n, inl (InvalidContentType content_type)).
Proof.
  intros Ht Hv.
  destruct (times_format_notes_prompt chunk Ht) as (a & b & _ & _ & _ & Hp).
  unfold generate_content_for_chunk. rewrite Hp. cbv zeta. cbn [dict_get].
  unfold valid_content_type in Hv.
  assert (E1 : str_eqb NOTES content_type = false)
    by (apply str_eqb_neq; intros E; apply Hv; auto).
  assert (E2 : str_eqb FLASHCARDS content_type = false)
    by (apply str_eqb_neq; intros E; apply Hv; auto).
  assert (E3 : str_eqb QUIZ content_type = false)
    by (apply str_eqb_neq; intros E; apply Hv; auto).
  now rewrite E1, E2, E3.
Qed.

(** X12 (unknown content type).  For any other content type, and a chunk
    whose times can be formatted, [generate_content_for_chunk] raises the
    [ValueError] that names the content type, before any request is
    made. *)
Theorem unknown_content_type_raises
    (c : client) (chunk : chunk) (content_type model : str) (n : nat) :
  times_format chunk -> ~ valid_content_type content_type ->
  generate_content_for_chunk c chunk content_type model n
  = ([], n, inl (InvalidContentType content_type)).
Proof.
  intros Ht Hv. now apply unknown_content_type_raises_aux.
Qed.

Lemma unknown_content_type_raises_witness :
  generate_content_for_chunk Answers.titled Answers.chunk_ab (py "summary")
    DEFAULT_MODEL 0%nat
  = ([], 0%nat, inl (InvalidContentType (py "summary"))).
Proof.
  apply (unknown_content_type_raises Answers.titled Answers.chunk_ab
           (py "summary") DEFAULT_MODEL 0%nat).
  - eexists. reflexivity.
  - intros [H | [H | H]]; discriminate H.
Defined.



(** X14 (no chunks).  Without chunks [process_chunks_for_content] makes no
    request and raises nothing, whatever the content types, valid or not:
    it opens and clears the progress bar and returns a dict with one empty
    list for each distinct content type asked for. *)
Theorem no_chunks_no_requests (c : client) (content_types : list str) (n : nat) :
  exists g,
    process_chunks_for_content c [] content_types n
    = ([ProgressStart; ProgressEmpty], n, inr g)
    /\ NoDup (keys g)
    /\ (forall k, In k (keys g) <-> In k content_types)
    /\ Forall (fun kv => snd kv = []) g.
Proof.
  exists (empty_content content_types).
  destruct (empty_content_spec content_types) as (H1 & H2 & H3).
  repeat split; auto; apply H3; auto.
Qed.

(** X15 (a full run).  When the content types are among notes, flashcards
    and quiz, the times of every chunk can be formatted and every answer
    that parses is a JSON object, [process_chunks_for_content] returns.  It
    makes one request for each chunk and content type, all with the default
    model; it reports progress once after each chunk, as 1, 2, ... out of
    the number of chunks, so never more than the whole; and the dict it
    returns has exactly the content types asked for as keys, each once. *)
Theorem process_runs_to_the_end
    (c : client) (chunks : list chunk) (content_types : list str) (n : nat) :
  answers_objects c -> Forall valid_content_type content_types ->
  Forall times_format chunks ->
  exists ev g,
    process_chunks_for_content c chunks content_types n
    = (ev, (n + List.length chunks * List.length content_types)%nat, inr g)
    /\ List.length (api_calls ev)
       = (List.length chunks * List.length content_types)%nat
    /\ Forall (fun mp => fst mp = DEFAULT_MODEL) (api_calls ev)
    /\ progress_updates ev
       = map (fun k => (k, List.length chunks)) (seq 1 (List.length chunks))
    /\ NoDup (keys g)
    /\ (forall k, In k (keys g) <-> In k content_types).
Proof.
  intros Hobj Hv Ht.
  destruct (process_closed c chunks content_types n Hobj Hv Ht) as [Hrun Hkeys].
  destruct (run_chunks_events c content_types (List.length chunks) chunks 0
              (empty_content content_types) n) as (H1 & H2 & H3).
  destruct (empty_content_spec content_types) as (K1 & _ & K3).
  eexists. eexists. split; [exact Hrun|].
  unfold api_calls, progress_updates in *. cbn [flat_map app].
  rewrite !flat_map_app. cbn [flat_map]. rewrite !app_nil_r.
  rewrite Hkeys. repeat split; auto; apply K3; auto.
Qed.

Lemma process_runs_to_the_end_witness :
  exists ev g,
    process_chunks_for_content Answers.titled [Answers.chunk_ab] [NOTES; QUIZ] 0%nat
    = (ev, (0 + 1 * 2)%nat, inr g)
    /\ List.length (api_calls ev) = (1 * 2)%nat
    /\ Forall (fun mp => fst mp = DEFAULT_MODEL) (api_calls ev)
    /\ progress_updates ev = map (fun k => (k, 1%nat)) (seq 1 1)
    /\ NoDup (keys g)
    /\ (forall k, In k (keys g) <-> In k [NOTES; QUIZ]).
Proof.
  apply (process_runs_to_the_end Answers.titled [Answers.chunk_ab] [NOTES; QUIZ] 0%nat).
  - intros k model prompt. exact I.
  - apply Forall_cons; [left; reflexivity|].
    apply Forall_cons; [right; right; reflexivity | apply Forall_nil].
  - apply Forall_cons; [eexists; reflexivity | apply Forall_nil].
Defined.

(** X16 (notes carry their timestamp).  Under the same conditions every
    item of the notes list returned is a JSON object whose ["timestamp"] is
    the two formatted times of one of the chunks, joined by [" - "]; and
    there are no more notes than chunks times the number of times notes was
    asked for. *)
Theorem notes_carry_the_chunk_times
    (c : client) (chunks : list chunk) (content_types : list str) (n : nat) :
  answers_objects c -> Forall valid_content_type content_types ->
  Forall times_format chunks ->
  exists ev n' g,
    process_chunks_for_content c chunks content_types n = (ev, n', inr g)
    /\ (forall note, In note (get_list g NOTES) ->
        exists chunk fields stamp,
          In chunk chunks
          /\ timestamp_of chunk = inr stamp
          /\ note = JDict fields
          /\ dict_get fields (py "timestamp") = Some (JStr stamp))
    /\ (List.length (get_list g NOTES)
        <= List.length chunks * List.length (filter is_notes content_types))%nat.
Proof.
  intros Hobj Hv Ht.
  destruct (process_closed c chunks content_types n Hobj Hv Ht) as [Hrun _].
  destruct (run_chunks_notes chunks c content_types (List.length chunks) chunks 0
              (empty_content content_types) n (incl_refl _)) as [Hnotes Hlen].
  { rewrite empty_content_get_list. constructor. }
  rewrite empty_content_get_list in Hlen. simpl in Hlen.
  eexists. eexists. eexists. split; [exact Hrun|]. split; [|exact Hlen].
  intros note Hin. rewrite Forall_forall in Hnotes.
  destruct (Hnotes note Hin) as (chunk & fields & Hc & Hj & Hg).
  rewrite Forall_forall in Ht. destruct (Ht chunk Hc) as [stamp Hs].
  exists chunk, fields, stamp. unfold stamp_of in Hg. rewrite Hs in Hg. auto.
Qed.

Lemma notes_carry_the_chunk_times_witness :
  exists ev n' g,
    process_chunks_for_content Answers.titled [Answers.chunk_ab] [NOTES; QUIZ] 0%nat
    = (ev, n', inr g)
    /\ (forall note, In note (get_list g NOTES) ->
        exists chunk fields stamp,
          In chunk [Answers.chunk_ab]
          /\ timestamp_of chunk = inr stamp
          /\ note = JDict fields
          /\ dict_get fields (py "timestamp") = Some (JStr stamp))
    /\ (List.length (get_list g NOTES)
        <= 1 * List.length (filter is_notes [NOTES; QUIZ]))%nat.
Proof.
  apply (notes_carry_the_chunk_times Answers.titled [Answers.chunk_ab]
           [NOTES; QUIZ] 0%nat).
  - intros k model prompt. exact I.
  - apply Forall_cons; [left; reflexivity|].
    apply Forall_cons; [right; right; reflexivity | apply Forall_nil].
  - apply Forall_cons; [eexists; reflexivity | apply Forall_nil].
Defined.



(** X18 (unknown content type, with chunks).  With at least one chunk, an
    unknown content type asked for first is not skipped: the [ValueError]
    of [generate_content_for_chunk] leaves [process_chunks_for_content],
    after the progress bar was opened and before any request. *)
Theorem unknown_content_type_stops_the_run
    (c : client) (chunks : list chunk) (chunk : chunk)
    (content_type : str) (content_types : list str) (n : nat) :
  times_format chunk -> ~ valid_content_type content_type ->
  process_chunks_for_content c (chunk :: chunks) (content_type :: content_types) n
  = ([ProgressStart], n, inl (InvalidContentType content_type)).
Proof.
  intros Ht Hv.
  pose proof (unknown_content_type_raises_aux c chunk content_type DEFAULT_MODEL n
                Ht Hv) as Hgen.
  unfold process_chunks_for_content. cbv zeta.
  change [ProgressStart] with ([ProgressStart] ++ @nil event).
  eapply bind_closed; [reflexivity|].
  apply bind_raised. cbn [for_chunks]. apply bind_raised.
  cbn [for_content_types]. apply bind_raised.
  unfold generate_into. apply bind_raised. exact Hgen.
Qed.

Lemma unknown_content_type_stops_the_run_witness :
  process_chunks_for_content Answers.titled [Answers.chunk_ab]
    [py "summary"; NOTES] 0%nat
  = ([ProgressStart], 0%nat, inl (InvalidContentType (py "summary"))).
Proof.
  apply (unknown_content_type_stops_the_run Answers.titled [] Answers.chunk_ab
           (py "summary") [NOTES] 0%nat).
  - eexists. reflexivity.
  - intros [H | [H | H]]; discriminate H.
Defined.

(* ================================================================== *)
(** * [app.py]: chunking, then generating *)

Lemma chunk_times_format (estimate : str -> Z) (max_tokens_per_chunk : Z)
    (segments : list segment) :
  Forall (fun s => formattable (seg_start s) /\ formattable (seg_end s)) segments ->
  Forall times_format
    (chunk_transcript_segments estimate segments max_tokens_per_chunk).
Proof.
  intros Hf. rewrite Forall_forall in Hf. apply Forall_forall.
  intros ch Hin. unfold chunk_transcript_segments in Hin.
  apply in_map_iff in Hin. destruct Hin as (e & <- & He).
  destruct (emission_times _ _ _ _ He) as (x & y & Hx & Hy & Hs & Hend).
  apply formattable_times_format.
  - rewrite Hs. apply (Hf x Hx).
  - rewrite Hend. apply (Hf y Hy).
Qed.

Lemma chunk_with_tiktoken_on_runs
    (token : Type)
    (encoding_for_model : str -> tiktoken.error + tiktoken.Encoding token)
    (get_encoding : str -> exn + tiktoken.Encoding token)
    (segments : list segment) (max_tokens_per_chunk : Z) :
  let estimate := fun t => estimate_token_count token encoding_for_model
                             get_encoding t DEFAULT_MODEL in
  returns_on_runs estimate segments ->
  chunk_with_tiktoken token encoding_for_model get_encoding
    segments max_tokens_per_chunk
  = (chunk_transcript_segments (fun t => returned (estimate t)) segments
       max_tokens_per_chunk, inr tt).
Proof.
  intros estimate Hruns. unfold chunk_with_tiktoken.
  apply (raising_run_on_runs estimate max_tokens_per_chunk segments Hruns).
Qed.

(** X19 (the two stages together).  The chunks made from the segments of a
    transcript always suit the generation.  When the tokenizer encodes the
    texts it is asked about (consecutive segment texts joined by single
    spaces, with or without a space in front: it refuses a text with a
    special token in it), the start and end of every segment is a number
    [format_timestamp] accepts, the content options are among notes,
    flashcards and quiz and every answer that parses is a JSON object,
    chunking with the budget of 3000 and then generating does not raise.  It
    makes at most one request for each segment and content option, and
    returns a dict with exactly the options as keys. *)
Theorem chunk_and_generate_returns
    (token : Type)
    (encoding_for_model : str -> tiktoken.error + tiktoken.Encoding token)
    (get_encoding : str -> exn + tiktoken.Encoding token)
    (c : client) (segments : list segment) (content_options : list str)
    (n : nat) :
  returns_on_runs
    (fun t => estimate_token_count token encoding_for_model get_encoding
                t DEFAULT_MODEL)
    segments ->
  answers_objects c -> Forall valid_content_type content_options ->
  Forall (fun s => formattable (seg_start s) /\ formattable (seg_end s)) segments ->
  exists ev calls g,
    chunk_and_generate token encoding_for_model get_encoding
      c segments content_options n
    = (ev, (n + calls)%nat, inr g)
    /\ List.length (api_calls ev) = calls
    /\ (calls <= List.length segments * List.length content_options)%nat
    /\ (forall k, In k (keys g) <-> In k content_options).
Proof.
  intros Hruns Hobj Hv Hf. unfold chunk_and_generate. cbv zeta.
  rewrite (chunk_with_tiktoken_on_runs token encoding_for_model get_encoding
             segments APP_CHUNK_BUDGET Hruns).
  cbv zeta beta iota.
  set (chunks := chunk_transcript_segments _ segments APP_CHUNK_BUDGET).
  assert (Ht : Forall times_format chunks)
    by (apply chunk_times_format; exact Hf).
  destruct (process_closed c chunks content_options n Hobj Hv Ht) as [Hrun Hkeys].
  destruct (run_chunks_events c content_options (List.length chunks) chunks 0
              (empty_content content_options) n) as (H1 & _ & _).
  destruct (empty_content_spec content_options) as (_ & _ & K3).
  eexists. exists (List.length chunks * List.length content_options)%nat.
  eexists. split; [exact Hrun|].
  split; [|split].
  - unfold api_calls in *. cbn [flat_map app].
    rewrite flat_map_app. cbn [flat_map]. rewrite app_nil_r. exact H1.
  - apply Nat.mul_le_mono_r. unfold chunks, chunk_transcript_segments.
    rewrite length_map. apply run_length.
  - intros k. rewrite Hkeys. apply K3.
Qed.

Lemma chunk_and_generate_returns_witness :
  exists ev calls g,
    chunk_and_generate str (fun _ => inr (phrase_encoding (py "ab cd")))
      (fun _ => inr (phrase_encoding (py "ab cd")))
      Answers.titled [Samples.seg_ab; Samples.seg_cd] [NOTES; QUIZ] 0%nat
    = (ev, (0 + calls)%nat, inr g)
    /\ List.length (api_calls ev) = calls
    /\ (calls <= 2 * 2)%nat
    /\ (forall k, In k (keys g) <-> In k [NOTES; QUIZ]).
Proof.
  apply (chunk_and_generate_returns str
           (fun _ => inr (phrase_encoding (py "ab cd")))
           (fun _ => inr (phrase_encoding (py "ab cd")))
           Answers.titled [Samples.seg_ab; Samples.seg_cd] [NOTES; QUIZ] 0%nat).
  - intros before run after lead _ _ _. eexists. reflexivity.
  - intros k model prompt. exact I.
  - apply Forall_cons; [left; reflexivity|].
    apply Forall_cons; [right; right; reflexivity | apply Forall_nil].
  - apply Forall_cons; [split; split; intros H; vm_compute in H; discriminate H|].
    apply Forall_cons;
      [split; split; intros H; vm_compute in H; discriminate H | apply Forall_nil].
Defined.



(* ================================================================== *)
(** * [summarize.py]: answers that are no objects *)

(** X20 (a notes answer that is no object).  Only exceptions of the request
    and of the parsing are caught.  When the answer for notes parses to a
    JSON value that is truthy and is no object, a non-empty array for
    example, writing its ["timestamp"] raises a [TypeError] that leaves
    [process_chunks_for_content] after the first request: nothing is
    returned, also not what other chunks would have given. *)
Theorem notes_answer_that_is_no_object_raises
    (c : client) (chunks : list chunk) (chunk : chunk)
    (content_types : list str) (j : json) (n : nat) :
  times_format chunk ->
  truthy_json j = true -> (forall fields, j <> JDict fields) ->
  (forall k model prompt, c k model prompt = Parsed j) ->
  exists prompt,
    process_chunks_for_content c (chunk :: chunks) (NOTES :: content_types) n
    = ([ProgressStart; ApiCall DEFAULT_MODEL prompt], S n, inl TypeError).
Proof.
  intros Ht Htruthy Hno Hc.
  exists (prompt_for chunk NOTES).
  pose proof (generate_closed c chunk NOTES DEFAULT_MODEL n Ht
                (or_introl eq_refl)) as Hgen.
  rewrite Hc in Hgen. cbn [errors_of result_of] in Hgen.
  destruct Ht as [stamp Hstamp].
  unfold process_chunks_for_content. cbv zeta.
  change [ProgressStart; ApiCall DEFAULT_MODEL (prompt_for chunk NOTES)]
    with ([ProgressStart] ++ [ApiCall DEFAULT_MODEL (prompt_for chunk NOTES)]).
  eapply bind_closed; [reflexivity|].
  apply bind_raised. cbn [for_chunks]. apply bind_raised.
  cbn [for_content_types]. apply bind_raised.
  unfold generate_into.
  change [ApiCall DEFAULT_MODEL (prompt_for chunk NOTES)]
    with ([ApiCall DEFAULT_MODEL (prompt_for chunk NOTES)] ++ @nil event).
  eapply bind_closed; [exact Hgen|].
  rewrite Htruthy, str_eqb_refl, Hstamp.
  apply bind_raised.
  destruct j; try reflexivity. exfalso. now apply (Hno fields).
Qed.

Lemma notes_answer_that_is_no_object_raises_witness :
  exists prompt,
    process_chunks_for_content (fun _ _ _ => Parsed (JList [JNull]))
      [Answers.chunk_ab] [NOTES; QUIZ] 0%nat
    = ([ProgressStart; ApiCall DEFAULT_MODEL prompt], 1%nat, inl TypeError).
Proof.
  apply (notes_answer_that_is_no_object_raises
           (fun _ _ _ => Parsed (JList [JNull])) [] Answers.chunk_ab
           [QUIZ] (JList [JNull]) 0%nat).
  - eexists. reflexivity.
  - reflexivity.
  - intros fields H. discriminate H.
  - intros k model prompt. reflexivity.
Defined.
